(** * VibeCode.py: resilient media discovery and transfer over AFC

    A shallow embedding of [src/VibeCode.py] (classes [InterruptibleOperation]
    and [SafeiPhonePhotoReader]) together with the properties of its
    traversal-and-transfer engine.

    Conventions of the embedding

    - Python [str] values are byte strings ([string]); [lower] acts on the
      ASCII letters, which is all the extension tables contain.
    - Python [int] values are [Z]; [len] is [Z.of_nat (length _)]. A Python
      [float] is kept as the rational number it denotes; the one float the
      engine computes is a true division of ints, which is correctly
      rounded ([true_div_mib]).
    - The object state ([self.*]), the local file system, the I/O history and
      the emitted log lines form one record [World]; methods are functions in
      a state-and-exception monad over it.
    - The pymobiledevice3 objects are not part of the repository: the AFC
      service is a record of oracles whose answers may depend on the whole
      I/O history so far, a missing method ([hasattr] false) is [None].
    - The local disk [local_fs] maps a path, as the string the program
      passes to [open] and [os], to the content of the file. Directories,
      permissions and the ways the operating system can refuse a call (a
      parent that is a regular file, an unwritable destination, a full
      disk) are outside this model: [mkdir], [open] and [write] succeed.
      Two different strings are two different entries.
    - [log] holds the lines of level INFO and above that the program hands
      to the logging handlers, which print them and append them to the
      file [iphone_reader.log]; that file is not an entry of [local_fs].
    - [os.path] is [posixpath], the program as it runs on a POSIX system
      ([Str.join], [Str.basename], [Str.dirname], [Str.splitext_ext]). *)

From Stdlib Require Import ZArith QArith List String Ascii Lia.
From Stdlib.Strings Require Import Byte.
From stdpp Require Import gmap strings list.

Open Scope Z_scope.
Open Scope string_scope.

(** ** Strings *)

Module Str.

Definition chars (s : string) : list ascii := list_ascii_of_string s.
Definition of_chars (l : list ascii) : string := string_of_list_ascii l.

Definition slash : ascii := "/"%char.
Definition dot : ascii := "."%char.

Definition is_upper (c : ascii) : bool :=
  let n := N_of_ascii c in (65 <=? n)%N && (n <=? 90)%N.

Definition lower_ascii (c : ascii) : ascii :=
  if is_upper c then ascii_of_N (N_of_ascii c + 32) else c.

(** [s.lower()] *)
Definition lower (s : string) : string := of_chars (map lower_ascii (chars s)).

Fixpoint prefix_of (p s : list ascii) : bool :=
  match p, s with
  | [], _ => true
  | _ :: _, [] => false
  | a :: p', b :: s' => Ascii.eqb a b && prefix_of p' s'
  end.

(** [s.startswith(p)] and [s.endswith(p)] *)
Definition startswith (s p : string) : bool := prefix_of (chars p) (chars s).
Definition endswith (s p : string) : bool :=
  prefix_of (rev (chars p)) (rev (chars s)).

Fixpoint infix_of (p s : list ascii) : bool :=
  prefix_of p s || match s with [] => false | _ :: s' => infix_of p s' end.

(** [p in s] *)
Definition contains (s p : string) : bool := infix_of (chars p) (chars s).

Fixpoint drop_while (f : ascii -> bool) (l : list ascii) : list ascii :=
  match l with
  | [] => []
  | c :: l' => if f c then drop_while f l' else l
  end.

Fixpoint take_while (f : ascii -> bool) (l : list ascii) : list ascii :=
  match l with
  | [] => []
  | c :: l' => if f c then c :: take_while f l' else []
  end.

Definition is_slash (c : ascii) : bool := Ascii.eqb c slash.
Definition is_dot (c : ascii) : bool := Ascii.eqb c dot.

(** [s.lstrip('/')] and [s.rstrip('/')] *)
Definition lstrip_slash (s : string) : string :=
  of_chars (drop_while is_slash (chars s)).
Definition rstrip_slash (s : string) : string :=
  of_chars (rev (drop_while is_slash (rev (chars s)))).

(** [s[:n]] for [0 <= n] *)
Definition take (n : nat) (s : string) : string := of_chars (firstn n (chars s)).

(** The part of [l] after its last [c] (all of [l] when [c] does not occur),
    and the part up to and including that last [c]. *)
Definition after_last (c : ascii) (l : list ascii) : list ascii :=
  rev (take_while (fun x => negb (Ascii.eqb x c)) (rev l)).
Definition upto_last (c : ascii) (l : list ascii) : list ascii :=
  rev (drop_while (fun x => negb (Ascii.eqb x c)) (rev l)).

(** [os.path.basename(p)]: [p[p.rfind('/')+1:]] *)
Definition basename (p : string) : string := of_chars (after_last slash (chars p)).

(** [os.path.dirname(p)]: the head [p[:p.rfind('/')+1]], with its trailing
    slashes removed unless it consists of slashes only. *)
Definition dirname (p : string) : string :=
  let head := upto_last slash (chars p) in
  if forallb is_slash head then of_chars head
  else of_chars (rev (drop_while is_slash (rev head))).

(** [os.path.splitext(p)[1]]: the extension starts at the last dot of the
    last path component, provided some character before that dot (within the
    component) is not a dot; otherwise it is empty. *)
Definition splitext_ext (p : string) : string :=
  let name := after_last slash (chars p) in
  if existsb is_dot name then
    let stem := upto_last dot name in        (* ends with the last dot *)
    let before := removelast stem in
    if existsb (fun c => negb (is_dot c)) before
    then of_chars (dot :: after_last dot name)
    else ""
  else "".

(** [os.path.join(a, b)] of [posixpath] *)
Definition join (a b : string) : string :=
  if startswith b "/" then b
  else if (String.eqb a "" || endswith a "/")%bool then a ++ b
  else a ++ "/" ++ b.

End Str.

(** ** File classification *)

(** [is_media_file]: the table [media_extensions] in source order. *)
Definition media_extensions : list string :=
  [ ".jpg"; ".jpeg"; ".png"; ".gif"; ".bmp"; ".tiff"; ".tif";
    ".heic"; ".heif"; ".webp"; ".raw"; ".dng"; ".cr2"; ".nef";
    ".mov"; ".mp4"; ".avi"; ".mkv"; ".m4v"; ".3gp"; ".wmv";
    ".flv"; ".webm"; ".mpg"; ".mpeg" ].

Definition is_media_file (filename : string) : bool :=
  let filename_lower := Str.lower filename in
  existsb (fun ext => Str.endswith filename_lower ext) media_extensions.

Inductive file_type := image | video | unknown.

Definition file_type_eqb (a b : file_type) : bool :=
  match a, b with
  | image, image | video, video | unknown, unknown => true
  | _, _ => false
  end.

Definition image_exts : list string :=
  [ ".jpg"; ".jpeg"; ".png"; ".gif"; ".bmp"; ".tiff"; ".heic"; ".heif";
    ".webp"; ".raw"; ".dng" ].

Definition video_exts : list string :=
  [ ".mov"; ".mp4"; ".avi"; ".mkv"; ".m4v"; ".3gp"; ".wmv" ].

Definition mem_str (s : string) (l : list string) : bool :=
  existsb (String.eqb s) l.

(** [get_file_type] *)
Definition get_file_type (file_path : string) : file_type :=
  let ext := Str.lower (Str.splitext_ext file_path) in
  if mem_str ext image_exts then image
  else if mem_str ext video_exts then video
  else unknown.

(** ** Exceptions, progress messages, I/O events and log lines *)

(** The exception classes the program meets; all of them derive from
    [Exception]. [AfcException] is the class the device library raises.
    [NameError] is what Python raises when a name is looked up that nothing
    binds. *)
Inductive exn :=
| AttributeError (msg : string)
| AfcException (msg : string)
| PermissionError (msg : string)
| OSError (msg : string)
| NameError (name : string)
| OverflowError (msg : string)
| OtherException (msg : string).

Definition is_attribute_error (e : exn) : bool :=
  match e with AttributeError _ => true | _ => false end.

Inductive outcome (A : Type) :=
| Ret (a : A)
| Raise (e : exn).
Arguments Ret {A} a.
Arguments Raise {A} e.

(** The texts handed to the progress observer, one constructor per call site
    (the program renders them as localized f-strings). *)
Inductive message :=
| MsgEmpty
| MsgSearchingDevice
| MsgConnected (name : string)
| MsgConnectDone
| MsgConnectFailed (e : exn)
| MsgAfcInit
| MsgAfcStarted
| MsgAfcFailed (e : exn)
| MsgSearchingDirs
| MsgChecking (path : string)
| MsgFoundDirs (n : Z)
| MsgFoundMedia (n : Z)
| MsgDownloading (name20 : string) (downloaded total : Z)
| MsgPreparing
| MsgDownloadingFile (name30 : string)
| MsgAnalysisStart
| MsgScanDir (directory : string)
| MsgProcessed (j n : Z)
| MsgAnalysisDone.

(** Every call that leaves the process: to the device, to the local file
    system, or to the registered progress observer. *)
Inductive event :=
| EvUsbmux
| EvAfcService
| EvExists (p : string)
| EvIsdir (p : string)
| EvListdir (p : string)
| EvLs (p : string)
| EvListDirectory (p : string)
| EvStat (p : string)
| EvOpen (p : string)
| EvFileOpen (p : string)
| EvRead (p : string)
| EvGetFileContents (p : string)
| EvPullFile (remote local : string)
| EvPull (remote local : string)
| EvMkdir (d : string)
| EvLocalExists (p : string)
| EvGetsize (p : string)
| EvOpenWrite (p : string)
| EvWrite (p : string) (n : Z)
| EvRemove (p : string)
| EvUtime (p : string) (t : Z)
| EvProgress (current total : Z) (m : message).

Inductive level := INFO | WARNING | ERROR.

(** The log lines of level INFO and above, one constructor per call site.
    [logging.basicConfig(level=logging.INFO)] discards the [logger.debug]
    lines, which therefore have no counterpart here. *)
Inductive log_msg :=
| LogStopSignal
| LogSearchingDevice
| LogConnected (name : string)
| LogModel (model : string)
| LogIosVersion (v : string)
| LogIos18
| LogIosStandard (v : string)
| LogIosSpecial (v : string)
| LogConnectFailed (e : exn)
| LogConnectHint (line : Z)
| LogAfcTested
| LogAfcNoAccess
| LogAfcTestFailed (e : exn)
| LogAfcStartFailed (e : exn)
| LogAfcMethods (methods : list string)
| LogAfcNoMethods
| LogDirSearchInterrupted
| LogFoundDirectory (path : string) (n : Z)
| LogApiIncompatible (e : exn)
| LogOpenFailed (path : string) (e : exn)
| LogAllMethodsFailed (stream_error bulk_error pull_error : exn)
| LogSizeMismatch (name : string) (actual expected : Z)
| LogDownloaded (name : string) (actual : Z)
| LogMissingAfterDownload (path : string)
| LogDownloadFailed (name : string) (e : exn)
| LogNothingToDownload
| LogBatchStart (total : Z)
| LogBatchInterrupted
| LogBatchProgress (completed total : Z)
| LogAnalysing
| LogAnalysisInterrupted
| LogNoDirectories
| LogScanInterrupted
| LogScanningDirectory (directory : string) (i n : Z)
| LogFetchingDetails (n : Z)
| LogPartialResult (n : Z)
| LogAnalysisDone
| LogTotalFiles (n : Z)
| LogCounts (images videos : Z)
| LogTotalSize (mb : Q)
| LogNoMedia.

(** ** Data model *)

(** A raw directory entry as an enumeration primitive may return it: a plain
    name, a dict (its string-valued fields), or any other object, of which
    only [str(item)] matters. *)
Inductive raw_entry :=
| EntryStr (s : string)
| EntryDict (d : gmap string string)
| EntryOther (repr : string).

(** What [afc.ls] may return: a list, a dict (with or without the key
    ['entries']), or something else. *)
Inductive ls_result :=
| LsList (items : list raw_entry)
| LsDict (entries : option (list raw_entry))
| LsOther.

(** One [read(chunk_size)] on an open remote file. *)
Inductive read_result :=
| Chunk (data : list byte)
| ReadFails (e : exn).

(** The dict returned by [afc.stat]; an absent key is [None]. *)
Record stat_info := {
  st_size : option Z;
  st_mtime : option Z;
  st_birthtime : option Z }.

(** [lockdown.all_values] with [lockdown.udid]. *)
Record lockdown_values := {
  DeviceName : option string;
  ProductType : option string;
  ProductVersion : option string;
  BuildVersion : option string;
  SerialNumber : option string;
  udid : string }.

(** The dict built by [get_file_info_safe] (a FileRecord). *)
Record file_info := {
  path : string;
  name : string;
  size : Z;
  modified : Z;
  created : Z;
  type : file_type }.

(** The dict returned by [analyze_photos_safe] (an AnalysisResult).
    [total_size_mb] is a Python float, the result of the true division
    [total_size / (1024 * 1024)]; a float is kept as the rational number it
    denotes (see [true_div_mib]). *)
Record analysis := {
  total_files : Z;
  image_count : Z;
  video_count : Z;
  total_size_mb : Q;
  photos_info : list file_info }.

(** The remote side. Each oracle receives the I/O history (newest event
    first) at the time of the call, so the device may answer the same
    question differently each time. An optional field is a method the
    service object may lack. An opened file is the finite sequence of
    results its successive [read] calls give; after it, [read] returns the
    empty byte string. *)
Record Device := {
  create_using_usbmux : list event -> outcome lockdown_values;
  AfcService : list event -> outcome unit;
  afc_exists : list event -> string -> outcome bool;
  afc_isdir : list event -> string -> outcome bool;
  afc_stat : list event -> string -> outcome stat_info;
  afc_listdir : option (list event -> string -> outcome (option (list raw_entry)));
  afc_ls : option (list event -> string -> outcome ls_result);
  afc_list_directory : option (list event -> string -> outcome (option (list raw_entry)));
  afc_open : option (list event -> string -> outcome (list read_result));
  afc_file_open : option (list event -> string -> outcome (list read_result));
  afc_get_file_contents : option (list event -> string -> outcome (list byte));
  afc_pull_file : option (list event -> string -> outcome (list byte));
  afc_pull : option (list event -> string -> outcome (list byte)) }.

(** A progress observer either returns or raises. *)
Definition observer := Z -> Z -> message -> option exn.

(** ** The world: object state and environment *)

Record World := {
  should_stop : bool;                  (* self.should_stop *)
  sigints : list nat;                  (* pending interrupts: polls left before each *)
  progress_callback : option observer; (* self.progress_callback *)
  status_message : message;            (* self.status_message *)
  device_info : option lockdown_values;(* self.device_info *)
  scan_current : Z;                    (* self.scan_progress["current"] *)
  scan_total : Z;                      (* self.scan_progress["total"] *)
  local_fs : gmap string (list byte);  (* local files: path string to content *)
  trace : list event;                  (* I/O history, newest first *)
  log : list (level * log_msg) }.      (* lines given to the log handlers, newest first *)

Definition set_stop (b : bool) (s : list nat) (w : World) : World :=
  {| should_stop := b; sigints := s;
     progress_callback := progress_callback w;
     status_message := status_message w; device_info := device_info w;
     scan_current := scan_current w; scan_total := scan_total w;
     local_fs := local_fs w; trace := trace w; log := log w |}.

Definition set_progress_callback' (cb : option observer) (w : World) : World :=
  {| should_stop := should_stop w; sigints := sigints w;
     progress_callback := cb;
     status_message := status_message w; device_info := device_info w;
     scan_current := scan_current w; scan_total := scan_total w;
     local_fs := local_fs w; trace := trace w; log := log w |}.

Definition set_status_message (m : message) (w : World) : World :=
  {| should_stop := should_stop w; sigints := sigints w;
     progress_callback := progress_callback w;
     status_message := m; device_info := device_info w;
     scan_current := scan_current w; scan_total := scan_total w;
     local_fs := local_fs w; trace := trace w; log := log w |}.

Definition set_device_info (d : option lockdown_values) (w : World) : World :=
  {| should_stop := should_stop w; sigints := sigints w;
     progress_callback := progress_callback w;
     status_message := status_message w; device_info := d;
     scan_current := scan_current w; scan_total := scan_total w;
     local_fs := local_fs w; trace := trace w; log := log w |}.

Definition set_scan_progress (c t : Z) (w : World) : World :=
  {| should_stop := should_stop w; sigints := sigints w;
     progress_callback := progress_callback w;
     status_message := status_message w; device_info := device_info w;
     scan_current := c; scan_total := t;
     local_fs := local_fs w; trace := trace w; log := log w |}.

Definition set_local_fs (fs : gmap string (list byte)) (w : World) : World :=
  {| should_stop := should_stop w; sigints := sigints w;
     progress_callback := progress_callback w;
     status_message := status_message w; device_info := device_info w;
     scan_current := scan_current w; scan_total := scan_total w;
     local_fs := fs; trace := trace w; log := log w |}.

Definition add_event (e : event) (w : World) : World :=
  {| should_stop := should_stop w; sigints := sigints w;
     progress_callback := progress_callback w;
     status_message := status_message w; device_info := device_info w;
     scan_current := scan_current w; scan_total := scan_total w;
     local_fs := local_fs w; trace := e :: trace w; log := log w |}.

Definition add_log (l : level) (m : log_msg) (w : World) : World :=
  {| should_stop := should_stop w; sigints := sigints w;
     progress_callback := progress_callback w;
     status_message := status_message w; device_info := device_info w;
     scan_current := scan_current w; scan_total := scan_total w;
     local_fs := local_fs w; trace := trace w; log := (l, m) :: log w |}.

(** ** The state-and-exception monad *)

Definition M (A : Type) : Type := World -> outcome A * World.

Definition ret {A} (a : A) : M A := fun w => (Ret a, w).
Definition raise {A} (e : exn) : M A := fun w => (Raise e, w).

Definition bind {A B} (m : M A) (k : A -> M B) : M B :=
  fun w =>
    match m w with
    | (Ret a, w') => k a w'
    | (Raise e, w') => (Raise e, w')
    end.

(** [try: m except Exception as e: h e]. The state reached when the exception
    was raised is the one the handler starts from. *)
Definition try_except {A} (m : M A) (h : exn -> M A) : M A :=
  fun w =>
    match m w with
    | (Ret a, w') => (Ret a, w')
    | (Raise e, w') => h e w'
    end.

(** A computation that touches no state: it returns or raises. *)
Definition lift {A} (o : outcome A) : M A := fun w => (o, w).

Definition gets {A} (f : World -> A) : M A := fun w => (Ret (f w), w).
Definition modify (f : World -> World) : M unit := fun w => (Ret tt, f w).

Declare Scope monad_scope.
Delimit Scope monad_scope with monad.
Notation "x <- c1 ;; c2" := (bind c1 (fun x => c2))
  (at level 100, c1 at next level, right associativity) : monad_scope.
Notation "c1 ;; c2" := (bind c1 (fun _ => c2))
  (at level 100, right associativity) : monad_scope.
Open Scope monad_scope.

(** A [for] loop whose body may [break]. *)
Inductive ctl (S : Type) :=
| Next (s : S)
| Break (s : S).
Arguments Next {S} s.
Arguments Break {S} s.

Fixpoint for_each {A S} (body : A -> S -> M (ctl S)) (l : list A) (s : S) : M S :=
  match l with
  | [] => ret s
  | x :: l' =>
      c <- body x s ;;
      match c with
      | Next s' => for_each body l' s'
      | Break s' => ret s'
      end
  end.

(** [enumerate(l)] *)
Definition enumerate {A} (l : list A) : list (Z * A) :=
  combine (map Z.of_nat (seq 0 (length l))) l.

Definition len {A} (l : list A) : Z := Z.of_nat (length l).

(** ** The cancellation token ([InterruptibleOperation]) *)

(** [logger.info], [logger.warning], [logger.error]: the line goes to the
    two handlers of [logging.basicConfig], the console and the file
    [iphone_reader.log]; [log] is what they received. *)
Definition logger (l : level) (m : log_msg) : M unit := modify (add_log l m).

(** [stop]: set the flag and log. *)
Definition stop : M unit :=
  modify (fun w => set_stop true (sigints w) w) ;;
  logger INFO LogStopSignal.

(** [is_stopped]. The interrupt handler ([_signal_handler], which calls
    [stop]) runs between two polls; it is accounted for at the first poll
    that observes it. *)
Definition is_stopped : M bool :=
  fun w =>
    if should_stop w then (Ret true, w)
    else match sigints w with
         | [] => (Ret false, w)
         | O :: rest =>
             match stop (set_stop false rest w) with
             | (_, w') => (Ret true, w')
             end
         | S n :: rest => (Ret false, set_stop false (n :: rest) w)
         end.

(** [reset] *)
Definition reset : M unit := modify (fun w => set_stop false (sigints w) w).

(** [set_progress_callback] *)
Definition set_progress_callback (callback : option observer) : M unit :=
  modify (set_progress_callback' callback).

(** [update_progress] *)
Definition update_progress (current total : Z) (message : message) : M unit :=
  modify (set_status_message message) ;;
  cb <- gets progress_callback ;;
  match cb with
  | Some callback =>
      modify (add_event (EvProgress current total message)) ;;
      match callback current total message with
      | None => ret tt
      | Some e => raise e
      end
  | None => ret tt
  end.

(** ** Calls that leave the process *)

(** A call to the device: the event is recorded, the oracle answers from the
    history before the call. *)
Definition remote_call {A} (ev : event) (oracle : list event -> outcome A) : M A :=
  fun w => (oracle (trace w), add_event ev w).

(** [os.path.exists(p)] *)
Definition local_exists (p : string) : M bool :=
  modify (add_event (EvLocalExists p)) ;;
  fs <- gets local_fs ;;
  ret (bool_decide (is_Some (fs !! p))).

(** [os.path.getsize(p)] *)
Definition local_getsize (p : string) : M Z :=
  modify (add_event (EvGetsize p)) ;;
  fs <- gets local_fs ;;
  match fs !! p with
  | Some content => ret (len content)
  | None => raise (OSError "No such file or directory")
  end.

(** [open(p, 'wb')]: the file is created or truncated. The call is taken
    to succeed, as are [write] and [mkdir] below. *)
Definition local_open_wb (p : string) : M unit :=
  modify (add_event (EvOpenWrite p)) ;;
  modify (fun w => set_local_fs (<[p := []]> (local_fs w)) w).

(** [local_file.write(data)] *)
Definition local_write (p : string) (data : list byte) : M unit :=
  modify (add_event (EvWrite p (len data))) ;;
  modify (fun w =>
    set_local_fs (<[p := (default [] (local_fs w !! p) ++ data)%list]> (local_fs w)) w).

(** [os.remove(p)] *)
Definition local_remove (p : string) : M unit :=
  modify (add_event (EvRemove p)) ;;
  modify (fun w => set_local_fs (delete p (local_fs w)) w).

(** [Path(d).mkdir(parents=True, exist_ok=True)]; directories are not part of
    [local_fs], the call is visible in the history only. *)
Definition local_mkdir (d : string) : M unit := modify (add_event (EvMkdir d)).

(** [os.utime(p, (t, t))] *)
Definition local_utime (p : string) (t : Z) : M unit := modify (add_event (EvUtime p t)).

(** ** The engine ([SafeiPhonePhotoReader]) *)

Section Engine.

Variable dev : Device.

(** *** Directory listing *)

(** The filter loop of [safe_listdir] for one item: the membership test
    [item not in ['.', '..', '']] comes first and compares the item itself;
    only then is a dict replaced by its ['name'] or ['filename'] field. *)
Definition filter_item (item : raw_entry) : list string :=
  match item with
  | EntryStr s => if mem_str s ["."; ".."; ""] then [] else [s]
  | EntryDict d =>
      match d !! "name" with
      | Some n => [n]
      | None => match d !! "filename" with
                | Some n => [n]
                | None => []
                end
      end
  | EntryOther repr => [repr]
  end.

Definition filtered_items (items : list raw_entry) : list string :=
  flat_map filter_item items.

(** [safe_listdir]. The enumeration primitives are each tried under their
    own [except Exception], which swallows the failure. The outer [try] has
    three clauses, [except AfcError], [except PermissionError] and
    [except Exception]; the first names [AfcError], which no import of the
    file binds (the library's class is [AfcException]). Python evaluates the
    clauses in order when an exception reaches them, so for every exception
    that leaves the body (one raised by the existence test or by the
    directory test) the lookup of [AfcError] raises [NameError], and that
    exception leaves the function: the two later clauses are never tried. *)
Definition safe_listdir (directory_path : string) : M (option (list string)) :=
  stopped <- is_stopped ;;
  if stopped then ret None else
  try_except
    (ex <- remote_call (EvExists directory_path)
             (fun h => afc_exists dev h directory_path) ;;
     if negb ex then ret None else
     isd <- remote_call (EvIsdir directory_path)
              (fun h => afc_isdir dev h directory_path) ;;
     if negb isd then ret None else
     (* method 1: listdir *)
     items1 <- match afc_listdir dev with
               | Some listdir =>
                   try_except
                     (remote_call (EvListdir directory_path)
                        (fun h => listdir h directory_path))
                     (fun _ => ret None)
               | None => ret None
               end ;;
     (* method 2: ls *)
     items2 <- match items1, afc_ls dev with
               | None, Some ls =>
                   try_except
                     (result <- remote_call (EvLs directory_path)
                                  (fun h => ls h directory_path) ;;
                      match result with
                      | LsList l => ret (Some l)
                      | LsDict (Some l) => ret (Some l)
                      | LsDict None | LsOther => ret None
                      end)
                     (fun _ => ret None)
               | _, _ => ret items1
               end ;;
     (* method 3: list_directory *)
     items3 <- match items2, afc_list_directory dev with
               | None, Some list_directory =>
                   try_except
                     (remote_call (EvListDirectory directory_path)
                        (fun h => list_directory h directory_path))
                     (fun _ => ret None)
               | _, _ => ret items2
               end ;;
     match items3 with
     | Some items => ret (Some (filtered_items items))
     | None => ret None
     end)
    (fun _ => raise (NameError "AfcError")).

(** *** Path discovery *)

Definition potential_paths : list string :=
  [ "/DCIM"; "/Media/DCIM";
    "/var/mobile/Media/DCIM"; "/var/mobile/Media/PhotoData";
    "/var/mobile/Media/Photos";
    "/private/var/mobile/Media/DCIM"; "/private/var/mobile/Media/PhotoData";
    "/PhotoData"; "/Photos"; "/Media/Photos"; "/Media/PhotoData";
    "/var/mobile/Applications"; "/Applications" ].

Definition photo_related_item (item : string) : bool :=
  let item_lower := Str.lower item in
  existsb (Str.endswith item_lower)
    [".jpg"; ".jpeg"; ".png"; ".heic"; ".mov"; ".mp4"]
  || existsb (Str.startswith item_lower)
       ["img_"; "dsc_"; "100apple"; "101apple"; "102apple"]
  || Str.contains item_lower "apple".

(** [get_photo_directories_safe] *)
Definition get_photo_directories_safe : M (list string) :=
  stopped <- is_stopped ;;
  if stopped then ret [] else
  let total_paths := len potential_paths in
  update_progress 0 total_paths MsgSearchingDirs ;;
  available_paths <-
    for_each
      (fun (ip : Z * string) (available_paths : list string) =>
         let (i, path) := ip in
         stopped <- is_stopped ;;
         if stopped then (logger INFO LogDirSearchInterrupted ;; ret (Break available_paths))
         else
           update_progress i total_paths (MsgChecking path) ;;
           items <- safe_listdir path ;;
           match items with
           | Some items =>
               if (0 <? len items)%Z then
                 let photo_related := existsb photo_related_item (firstn 10 items) in
                 if photo_related || (50 <? len items)%Z then
                   logger INFO (LogFoundDirectory path (len items)) ;;
                   ret (Next (available_paths ++ [path])%list)
                 else ret (Next available_paths)
               else ret (Next available_paths)
           | None => ret (Next available_paths)
           end)
      (enumerate potential_paths) [] ;;
  update_progress total_paths total_paths (MsgFoundDirs (len available_paths)) ;;
  ret available_paths.

(** *** Bounded recursive scan *)

(** One iteration of the item loop of [scan_photos_safe]. The lists are
    extended before [update_progress] is called, so an exception raised by
    the observer (caught by the [except Exception: continue] around the
    iteration) does not undo the append. *)
Definition scan_item (directory_path item : string)
    (acc : list string * list string) : M (ctl (list string * list string)) :=
  let (files, subdirs) := acc in
  stopped <- is_stopped ;;
  if stopped then ret (Break acc) else
  let item_path := Str.rstrip_slash directory_path ++ "/" ++ item in
  try_except
    (isd <- remote_call (EvIsdir item_path) (fun h => afc_isdir dev h item_path) ;;
     if isd then ret (Next (files, (subdirs ++ [item_path])%list))
     else if is_media_file item then
       modify (fun w => set_scan_progress (scan_current w + 1) (scan_total w) w) ;;
       current <- gets scan_current ;;
       total <- gets scan_total ;;
       (if (current mod 20 =? 0)%Z
        then try_except (update_progress current total (MsgFoundMedia current))
                        (fun _ => ret tt)
        else ret tt) ;;
       ret (Next ((files ++ [item_path])%list, subdirs))
     else ret (Next (files, subdirs)))
    (fun _ => ret (Next (files, subdirs))).

(** [scan_photos_safe], by recursion on the remaining depth: [depth] is
    [max_depth] when that is positive and [0] otherwise. *)
Fixpoint scan_depth (depth : nat) (directory_path : string) : M (list string) :=
  match depth with
  | O => ret []
  | S depth' =>
      stopped <- is_stopped ;;
      if stopped then ret [] else
      items <- safe_listdir directory_path ;;
      match items with
      | None => ret []
      | Some items =>
          fs <- for_each (scan_item directory_path) items ([], []) ;;
          let (files, subdirs) := fs : list string * list string in
          let photos := files in
          match subdirs with
          | [] => ret photos
          | _ :: _ =>
              stopped <- is_stopped ;;
              if stopped then ret photos else
              let max_subdirs := Z.min 20 (len subdirs) in
              for_each
                (fun subdir photos =>
                   stopped <- is_stopped ;;
                   if stopped then ret (Break photos) else
                   try_except
                     (sub_photos <- scan_depth depth' subdir ;;
                      ret (Next (photos ++ sub_photos)%list))
                     (fun _ => ret (Next photos)))
                (firstn (Z.to_nat max_subdirs) subdirs) photos
          end
      end
  end.

Definition scan_photos_safe (directory_path : string) (max_depth : Z) : M (list string) :=
  scan_depth (Z.to_nat max_depth) directory_path.

(** *** File records *)

(** [get_file_info_safe] *)
Definition get_file_info_safe (file_path : string) : M (option file_info) :=
  stopped <- is_stopped ;;
  if stopped then ret None else
  try_except
    (stat <- remote_call (EvStat file_path) (fun h => afc_stat dev h file_path) ;;
     ret (Some {| path := file_path;
                  name := Str.basename file_path;
                  size := default 0 (st_size stat);
                  modified := default 0 (st_mtime stat);
                  created := default 0 (st_birthtime stat);
                  type := get_file_type file_path |}))
    (fun _ => ret None).

(** *** Multi-strategy transfer *)

(** The object [safe_open_file] returns: a handle of the AFC service (its
    path is kept for the history) or a [BytesIO] over data already fetched. *)
Record remote_file := {
  rf_path : option string;
  rf_reads : list read_result }.

Definition chunk_size : Z := 512 * 1024.

Fixpoint take_n {A} (n : N) (l : list A) : list A :=
  match l with
  | [] => []
  | x :: l' => if (n =? 0)%N then [] else x :: take_n (N.pred n) l'
  end.

Fixpoint drop_n {A} (n : N) (l : list A) : list A :=
  match l with
  | [] => []
  | x :: l' => if (n =? 0)%N then l else drop_n (N.pred n) l'
  end.

Fixpoint chunks_of (fuel : nat) (n : N) (data : list byte) : list read_result :=
  match fuel, data with
  | S fuel', _ :: _ => Chunk (take_n n data) :: chunks_of fuel' n (drop_n n data)
  | _, _ => []
  end.

(** [BytesIO(data)]: successive [read(chunk_size)] calls return the data in
    pieces of [chunk_size] bytes. *)
Definition BytesIO (data : list byte) : remote_file :=
  {| rf_path := None;
     rf_reads := chunks_of (length data) (Z.to_N chunk_size) data |}.

(** [safe_open_file] (the message texts are translated). *)
Definition safe_open_file (file_path : string) : M remote_file :=
  try_except
    (match afc_open dev, afc_file_open dev, afc_get_file_contents dev with
     | Some open, _, _ =>
         reads <- remote_call (EvOpen file_path) (fun h => open h file_path) ;;
         ret {| rf_path := Some file_path; rf_reads := reads |}
     | None, Some file_open, _ =>
         reads <- remote_call (EvFileOpen file_path) (fun h => file_open h file_path) ;;
         ret {| rf_path := Some file_path; rf_reads := reads |}
     | None, None, Some get_file_contents =>
         data <- remote_call (EvGetFileContents file_path)
                   (fun h => get_file_contents h file_path) ;;
         ret (BytesIO data)
     | None, None, None =>
         raise (AttributeError "AFC service does not support reading files")
     end)
    (fun e =>
       if is_attribute_error e
       then (logger ERROR (LogApiIncompatible e) ;; raise e)
       else (logger ERROR (LogOpenFailed file_path e) ;; raise e)).

(** The [while not self.is_stopped()] loop of [_download_with_stream], by
    recursion on the reads the open file still has to give. *)
Fixpoint stream_copy (remote_file : option string) (local_path : string)
    (total_size : Z) (reads : list read_result) (downloaded_size : Z) : M unit :=
  stopped <- is_stopped ;;
  if stopped then ret tt else
  (match remote_file with
   | Some p => modify (add_event (EvRead p))
   | None => ret tt
   end) ;;
  match reads with
  | [] => ret tt
  | ReadFails e :: _ => raise e
  | Chunk chunk :: rest =>
      match chunk with
      | [] => ret tt
      | _ :: _ =>
          local_write local_path chunk ;;
          let downloaded_size := downloaded_size + len chunk in
          (if (total_size >? 5 * 1024 * 1024)%Z
           then update_progress downloaded_size total_size
                  (MsgDownloading (Str.take 20 (Str.basename local_path))
                     downloaded_size total_size)
           else ret tt) ;;
          stream_copy remote_file local_path total_size rest downloaded_size
      end
  end.

Definition info_size (info : option file_info) : Z :=
  match info with
  | Some fi => size fi
  | None => 0
  end.

(** [_download_with_stream] *)
Definition _download_with_stream (remote_path local_path : string)
    (info : option file_info) : M bool :=
  let total_size := info_size info in
  remote_file <- safe_open_file remote_path ;;
  local_open_wb local_path ;;
  stream_copy (rf_path remote_file) local_path total_size (rf_reads remote_file) 0 ;;
  stopped <- is_stopped ;;
  if stopped then
    ex <- local_exists local_path ;;
    (if ex then local_remove local_path else ret tt) ;;
    ret false
  else ret true.

(** [_download_with_bulk_read] *)
Definition _download_with_bulk_read (remote_path local_path : string)
    (info : option file_info) : M bool :=
  match afc_get_file_contents dev with
  | Some get_file_contents =>
      data <- remote_call (EvGetFileContents remote_path)
                (fun h => get_file_contents h remote_path) ;;
      stopped <- is_stopped ;;
      if stopped then ret false else
      local_open_wb local_path ;;
      local_write local_path data ;;
      ret true
  | None => raise (AttributeError "AFC does not support bulk reads")
  end.

(** [afc.pull_file(remote, local)] and [afc.pull(remote, local)] write the
    local file themselves. *)
Definition pulled (local_path : string) (data : list byte) : M unit :=
  modify (fun w => set_local_fs (<[local_path := data]> (local_fs w)) w).

(** [_download_with_pull] *)
Definition _download_with_pull (remote_path local_path : string)
    (info : option file_info) : M bool :=
  match afc_pull_file dev, afc_pull dev with
  | Some pull_file, _ =>
      data <- remote_call (EvPullFile remote_path local_path)
                (fun h => pull_file h remote_path) ;;
      pulled local_path data ;;
      stopped <- is_stopped ;;
      ret (negb stopped)
  | None, Some pull =>
      data <- remote_call (EvPull remote_path local_path)
                (fun h => pull h remote_path) ;;
      pulled local_path data ;;
      stopped <- is_stopped ;;
      ret (negb stopped)
  | None, None => raise (AttributeError "AFC does not support pull")
  end.

(** The pre-check of [download_file_safe]: a local file of the expected,
    positive size is already there. *)
Definition already_present (local_path : string) (info : option file_info) : M bool :=
  ex <- local_exists local_path ;;
  match ex, info with
  | true, Some fi =>
      local_size <- local_getsize local_path ;;
      let remote_size := size fi in
      ret ((local_size =? remote_size)%Z && (remote_size >? 0)%Z)
  | _, _ => ret false
  end.

(** The nested [try] blocks of [download_file_safe]: [Some success] when a
    strategy returned, [None] when the function returns [False] because all
    three raised. *)
Definition try_strategies (remote_path local_path : string)
    (info : option file_info) : M (option bool) :=
  try_except
    (success <- _download_with_stream remote_path local_path info ;;
     ret (Some success))
    (fun stream_error =>
       try_except
         (success <- _download_with_bulk_read remote_path local_path info ;;
          ret (Some success))
         (fun bulk_error =>
            try_except
              (success <- _download_with_pull remote_path local_path info ;;
               ret (Some success))
              (fun pull_error =>
                 logger ERROR (LogAllMethodsFailed stream_error bulk_error pull_error) ;;
                 ret None))).

(** The verification step of [download_file_safe] after a strategy returned
    [success]. *)
Definition verify_download (local_path : string) (info : option file_info)
    (success : bool) : M bool :=
  proceed <- (if success then (stopped <- is_stopped ;; ret (negb stopped))
              else ret false) ;;
  if proceed then
    ex <- local_exists local_path ;;
    if ex then
      actual_size <- local_getsize local_path ;;
      let expected_size := info_size info in
      (if (expected_size >? 0)%Z && negb (actual_size =? expected_size)%Z
       then logger WARNING
              (LogSizeMismatch (Str.basename local_path) actual_size expected_size)
       else ret tt) ;;
      (match info with
       | Some fi =>
           if negb (modified fi =? 0)%Z
           then try_except (local_utime local_path (modified fi)) (fun _ => ret tt)
           else ret tt
       | None => ret tt
       end) ;;
      logger INFO (LogDownloaded (Str.basename local_path) actual_size) ;;
      ret true
    else
      (logger ERROR (LogMissingAfterDownload local_path) ;;
       ret false)
  else ret success.

(** [download_file_safe] *)
Definition download_file_safe (remote_path local_path : string)
    (info : option file_info) : M bool :=
  stopped <- is_stopped ;;
  if stopped then ret false else
  try_except
    (local_mkdir (Str.dirname local_path) ;;
     skip <- already_present local_path info ;;
     if skip then ret true else
     attempt <- try_strategies remote_path local_path info ;;
     match attempt with
     | None => ret false
     | Some success => verify_download local_path info success
     end)
    (fun e =>
       logger ERROR (LogDownloadFailed (Str.basename remote_path) e) ;;
       ret false).

(** *** Batch download *)

Definition local_path_of (output_directory : string) (photo_info : file_info) : string :=
  let relative_path := Str.lstrip_slash (path photo_info) in
  Str.join output_directory relative_path.

(** One iteration of the loop of [download_photos_batch_safe]; the state of
    the loop is [(downloaded_count, failed_count)]. *)
Definition batch_item (output_directory : string) (total_photos : Z)
    (ip : Z * file_info) (counts : Z * Z) : M (ctl (Z * Z)) :=
  let (i, photo_info) := ip in
  let (downloaded_count, failed_count) := counts in
  stopped <- is_stopped ;;
  if stopped then (logger INFO LogBatchInterrupted ;; ret (Break counts)) else
  let local_path := local_path_of output_directory photo_info in
  update_progress i total_photos
    (MsgDownloadingFile (Str.take 30 (Str.basename (path photo_info)))) ;;
  ok <- download_file_safe (path photo_info) local_path (Some photo_info) ;;
  let counts' := if ok then (downloaded_count + 1, failed_count)
                 else (downloaded_count, failed_count + 1) in
  (if ((i + 1) mod 10 =? 0)%Z
   then logger INFO (LogBatchProgress (fst counts' + snd counts') total_photos)
   else ret tt) ;;
  ret (Next counts').

(** [download_photos_batch_safe] *)
Definition download_photos_batch_safe (photos_info : list file_info)
    (output_directory : string) : M (Z * Z) :=
  match photos_info with
  | [] => logger WARNING LogNothingToDownload ;; ret (0, 0)
  | _ :: _ =>
      let total_photos := len photos_info in
      logger INFO (LogBatchStart total_photos) ;;
      update_progress 0 total_photos MsgPreparing ;;
      for_each (batch_item output_directory total_photos)
        (enumerate photos_info) (0, 0)
  end.

(** *** Device session *)

(** [connect_device] *)
Definition connect_device : M bool :=
  stopped <- is_stopped ;;
  if stopped then ret false else
  try_except
    (update_progress 0 100 MsgSearchingDevice ;;
     logger INFO LogSearchingDevice ;;
     lockdown <- remote_call EvUsbmux (create_using_usbmux dev) ;;
     stopped <- is_stopped ;;
     if stopped then ret false else
     modify (set_device_info (Some lockdown)) ;;
     let name := default "Unknown" (DeviceName lockdown) in
     let model := default "Unknown" (ProductType lockdown) in
     let ios_version := default "Unknown" (ProductVersion lockdown) in
     update_progress 50 100 (MsgConnected name) ;;
     logger INFO (LogConnected name) ;;
     logger INFO (LogModel model) ;;
     logger INFO (LogIosVersion ios_version) ;;
     (if Str.startswith ios_version "18." then logger INFO LogIos18
      else if existsb (Str.startswith ios_version) ["17."; "16."; "15."]
      then logger INFO (LogIosStandard ios_version)
      else logger WARNING (LogIosSpecial ios_version)) ;;
     update_progress 100 100 MsgConnectDone ;;
     ret true)
    (fun e =>
       logger ERROR (LogConnectFailed e) ;;
       update_progress 0 100 (MsgConnectFailed e) ;;
       logger ERROR (LogConnectHint 0) ;;
       logger ERROR (LogConnectHint 1) ;;
       logger ERROR (LogConnectHint 2) ;;
       logger ERROR (LogConnectHint 3) ;;
       logger ERROR (LogConnectHint 4) ;;
       ret false).

Definition has {A} (o : option A) (method : string) : list string :=
  match o with
  | Some _ => [method]
  | None => []
  end.

(** [_detect_afc_api_version] *)
Definition _detect_afc_api_version : M (list string) :=
  let available_methods :=
    (has (afc_open dev) "open" ++ has (afc_file_open dev) "file_open"
     ++ has (afc_get_file_contents dev) "get_file_contents"
     ++ has (afc_pull_file dev) "pull_file" ++ has (afc_pull dev) "pull"
     ++ has (afc_listdir dev) "listdir" ++ has (afc_ls dev) "ls")%list in
  logger INFO (LogAfcMethods available_methods) ;;
  (match available_methods with
   | [] => logger WARNING LogAfcNoMethods
   | _ :: _ => ret tt
   end) ;;
  ret available_methods.

(** [setup_afc_service] *)
Definition setup_afc_service : M bool :=
  stopped <- is_stopped ;;
  if stopped then ret false else
  try_except
    (update_progress 0 100 MsgAfcInit ;;
     remote_call EvAfcService (AfcService dev) ;;
     _detect_afc_api_version ;;
     try_except
       (test_items <- safe_listdir "/" ;;
        match test_items with
        | Some _ =>
            logger INFO LogAfcTested ;;
            update_progress 100 100 MsgAfcStarted ;;
            ret true
        | None =>
            logger ERROR LogAfcNoAccess ;;
            ret false
        end)
       (fun test_error =>
          logger ERROR (LogAfcTestFailed test_error) ;;
          ret false))
    (fun e =>
       logger ERROR (LogAfcStartFailed e) ;;
       update_progress 0 100 (MsgAfcFailed e) ;;
       ret false).

(** *** Analysis *)

(** The inner loop of [analyze_photos_safe] over the scanned paths. *)
Definition analyze_photo (n_photos : Z) (jp : Z * string)
    (all_photos : list file_info) : M (ctl (list file_info)) :=
  let (j, photo) := jp in
  stopped <- is_stopped ;;
  if stopped then ret (Break all_photos) else
  photo_info <- get_file_info_safe photo ;;
  let all_photos' := match photo_info with
                     | Some fi => (all_photos ++ [fi])%list
                     | None => all_photos
                     end in
  (if ((j + 1) mod 50 =? 0)%Z
   then update_progress (j + 1) n_photos (MsgProcessed (j + 1) n_photos)
   else ret tt) ;;
  ret (Next all_photos').

(** The outer loop of [analyze_photos_safe] over the discovered roots;
    [scan_photos_safe] runs with its default [max_depth=3]. *)
Definition analyze_directory (n_directories : Z) (id : Z * string)
    (all_photos : list file_info) : M (ctl (list file_info)) :=
  let (i, directory) := id in
  stopped <- is_stopped ;;
  if stopped then (logger INFO LogScanInterrupted ;; ret (Break all_photos)) else
  logger INFO (LogScanningDirectory directory (i + 1) n_directories) ;;
  update_progress (i * 50) (n_directories * 50) (MsgScanDir directory) ;;
  photos <- scan_photos_safe directory 3 ;;
  stopped <- is_stopped ;;
  if stopped then ret (Break all_photos) else
  match photos with
  | [] => ret (Next all_photos)
  | _ :: _ =>
      logger INFO (LogFetchingDetails (len photos)) ;;
      all_photos' <- for_each (analyze_photo (len photos)) (enumerate photos) all_photos ;;
      ret (Next all_photos')
  end.

Definition sum_sizes (l : list file_info) : Z :=
  fold_right (fun p acc => size p + acc) 0 l.

(** The integer nearest to [n] among those a binary64 number can hold, the
    integers with at most 53 significant bits; a tie goes to the even
    significand. *)
Definition round_binary64 (n : Z) : Z :=
  let a := Z.abs n in
  let e := Z.log2 a - 52 in
  if (e <=? 0)%Z then n
  else
    let q := a / 2 ^ e in
    let r := a mod 2 ^ e in
    let half := 2 ^ (e - 1) in
    let q' := if (half <? r)%Z || ((half =? r)%Z && Z.odd q) then q + 1 else q in
    Z.sgn n * (q' * 2 ^ e).

(** [total_size / (1024 * 1024)] on a Python int. The true division of two
    ints gives the binary64 number nearest to the exact quotient; dividing
    by 2^20 only moves the exponent, so that number is the binary64 nearest
    to [total_size], divided by 2^20. When it is beyond the binary64 range
    (2^1024 or more in magnitude) Python raises [OverflowError]. *)
Definition true_div_mib (total_size : Z) : outcome Q :=
  let m := round_binary64 total_size in
  if (2 ^ 1044 <=? Z.abs m)%Z
  then Raise (OverflowError "integer division result too large for a float")
  else Ret (m # (1024 * 1024)).

Definition count_type (t : file_type) (l : list file_info) : Z :=
  len (filter (fun p => file_type_eqb (type p) t = true) l).

(** The statistics block of [analyze_photos_safe]: the three counts and
    the dict, whose construction evaluates the division. *)
Definition statistics (all_photos : list file_info) : outcome analysis :=
  let total_size := sum_sizes all_photos in
  let image_count := count_type image all_photos in
  let video_count := count_type video all_photos in
  match true_div_mib total_size with
  | Ret mb =>
      Ret {| total_files := len all_photos;
             image_count := image_count;
             video_count := video_count;
             total_size_mb := mb;
             photos_info := all_photos |}
  | Raise e => Raise e
  end.

(** [analyze_photos_safe] *)
Definition analyze_photos_safe : M (option analysis) :=
  reset ;;
  connected <- connect_device ;;
  if negb connected then ret None else
  stopped <- is_stopped ;;
  if stopped then ret None else
  afc_ready <- setup_afc_service ;;
  if negb afc_ready then ret None else
  stopped <- is_stopped ;;
  if stopped then ret None else
  logger INFO LogAnalysing ;;
  update_progress 0 100 MsgAnalysisStart ;;
  directories <- get_photo_directories_safe ;;
  stopped <- is_stopped ;;
  if stopped then (logger INFO LogAnalysisInterrupted ;; ret None) else
  match directories with
  | [] => logger WARNING LogNoDirectories ;; ret None
  | _ :: _ =>
      modify (set_scan_progress 0 0) ;;
      all_photos <- for_each (analyze_directory (len directories))
                      (enumerate directories) [] ;;
      stopped <- is_stopped ;;
      if stopped then
        logger INFO LogAnalysisInterrupted ;;
        (match all_photos with
         | [] => ret tt
         | _ :: _ => logger INFO (LogPartialResult (len all_photos))
         end) ;;
        ret None
      else
        match all_photos with
        | _ :: _ =>
            result <- lift (statistics all_photos) ;;
            update_progress 100 100 MsgAnalysisDone ;;
            logger INFO LogAnalysisDone ;;
            logger INFO (LogTotalFiles (total_files result)) ;;
            logger INFO (LogCounts (image_count result) (video_count result)) ;;
            logger INFO (LogTotalSize (total_size_mb result)) ;;
            ret (Some result)
        | [] => logger WARNING LogNoMedia ;; ret None
        end
  end.

End Engine.

(** ** Vocabulary of the properties *)

(** The progress observer never raises (or none is registered). *)
Definition observer_silent (w : World) : Prop :=
  match progress_callback w with
  | None => True
  | Some callback => forall current total message, callback current total message = None
  end.

(** No cancellation is pending or will arrive, and the observer is silent. *)
Definition calm (w : World) : Prop :=
  should_stop w = false /\ sigints w = [] /\ observer_silent w.

(** Number of observer invocations in a history. *)
Fixpoint observer_calls (h : list event) : nat :=
  match h with
  | [] => 0
  | EvProgress _ _ _ :: h' => S (observer_calls h')
  | _ :: h' => observer_calls h'
  end.

(** Number of directories [safe_listdir] went to the device for: each such
    call starts with exactly one [afc.exists]. *)
Fixpoint directories_listed (h : list event) : nat :=
  match h with
  | [] => 0
  | EvExists _ :: h' => S (directories_listed h')
  | _ :: h' => directories_listed h'
  end.

(** The most directories a scan of the given depth can list: the directory
    itself and, below it, at most 20 subdirectories one level less deep. *)
Fixpoint scan_bound (depth : nat) : nat :=
  match depth with
  | O => 0
  | S depth' => 1 + 20 * scan_bound depth'
  end.




(** The outcome of the pre-check of [download_file_safe] on a local disk. *)
Definition size_matches (fs : gmap string (list byte)) (local_path : string)
    (info : option file_info) : bool :=
  match fs !! local_path, info with
  | Some content, Some fi => (len content =? size fi)%Z && (size fi >? 0)%Z
  | _, _ => false
  end.



(** The three strategies as the specification words them: streamed copy
    first, bulk read only when that raised, direct copy-out only when that
    raised too, and a failure reported with the three errors only when all
    three raised. The result is [Some success] of the strategy that
    returned, or [None] with the report. *)
Definition strategies_in_order (dev : Device) (remote_path local_path : string)
    (info : option file_info) (w : World) : option bool * World :=
  match _download_with_stream dev remote_path local_path info w with
  | (Ret success, w1) => (Some success, w1)
  | (Raise stream_error, w1) =>
      match _download_with_bulk_read dev remote_path local_path info w1 with
      | (Ret success, w2) => (Some success, w2)
      | (Raise bulk_error, w2) =>
          match _download_with_pull dev remote_path local_path info w2 with
          | (Ret success, w3) => (Some success, w3)
          | (Raise pull_error, w3) =>
              (None,
               add_log ERROR (LogAllMethodsFailed stream_error bulk_error pull_error) w3)
          end
      end
  end.

(** The events a call added to the history, newest first. *)
Definition new_events (before after : World) : list event :=
  firstn (length (trace after) - length (trace before)) (trace after).

(** [m] lists at most [n] further directories, however it ends. *)
Definition cost {A} (m : M A) (n : nat) : Prop :=
  forall w,
    (directories_listed (trace (snd (m w))) <= directories_listed (trace w) + n)%nat.

(** [m] always returns: it raises nothing to its caller. *)
Definition returns {A} (m : M A) : Prop :=
  forall w, exists a, fst (m w) = Ret a.

(** [m] keeps the state property [I], however it ends. *)
Definition stable {A} (I : World -> Prop) (m : M A) : Prop :=
  forall w, I w -> I (snd (m w)).

(** The events one transfer may add to the history once the parent
    directory is ensured. *)
Definition transfer_event (e : event) : bool :=
  match e with
  | EvOpen _ | EvFileOpen _ | EvRead _ | EvGetFileContents _
  | EvPullFile _ _ | EvPull _ _
  | EvLocalExists _ | EvGetsize _ | EvOpenWrite _ | EvWrite _ _
  | EvRemove _ | EvUtime _ _ | EvProgress _ _ _ => true
  | _ => false
  end.

(** The log lines one transfer may emit, the line that reports the failure
    of all three strategies apart. *)
Definition transfer_log (m : log_msg) : bool :=
  match m with
  | LogStopSignal | LogApiIncompatible _ | LogOpenFailed _ _
  | LogSizeMismatch _ _ _ | LogDownloaded _ _ | LogMissingAfterDownload _
  | LogDownloadFailed _ _ => true
  | _ => false
  end.

(** A state property that survives everything the transfer of one file to
    [local_path] does: polling the token, setting the status message, adding
    transfer events and log lines, and writing or removing [local_path]. *)
Record footprint (local_path : string) (I : World -> Prop) : Prop := {
  fp_stop : stable I is_stopped;
  fp_status : forall m w, I w -> I (set_status_message m w);
  fp_event : forall e w, transfer_event e = true -> I w -> I (add_event e w);
  fp_log : forall l m w, transfer_log m = true -> I w -> I (add_log l m w);
  fp_write : forall content w,
    I w -> I (set_local_fs (<[local_path := content]> (local_fs w)) w);
  fp_remove : forall w,
    I w -> I (set_local_fs (delete local_path (local_fs w)) w) }.

(** ** Sample devices and worlds *)

(** The state of a freshly constructed reader over a given local disk. *)
Definition fresh (fs : gmap string (list byte)) : World :=
  {| should_stop := false; sigints := []; progress_callback := None;
     status_message := MsgEmpty; device_info := None;
     scan_current := 0; scan_total := 0;
     local_fs := fs; trace := []; log := [] |}.

Definition sample_lockdown : lockdown_values :=
  {| DeviceName := Some "iPhone"; ProductType := Some "iPhone16,2";
     ProductVersion := Some "18.5"; BuildVersion := Some "22F76";
     SerialNumber := None; udid := "00008130" |}.

(** A device described by its directory listings and by what opening,
    bulk-reading and pulling a file give; every file has 3 bytes. *)
Definition sample_device
    (listing : string -> option (list raw_entry))
    (open : option (string -> outcome (list read_result)))
    (contents pull : option (string -> outcome (list byte))) : Device :=
  {| create_using_usbmux := fun _ => Ret sample_lockdown;
     AfcService := fun _ => Ret tt;
     afc_exists := fun _ p => Ret (bool_decide (is_Some (listing p)));
     afc_isdir := fun _ p => Ret (bool_decide (is_Some (listing p)));
     afc_stat := fun _ _ =>
       Ret {| st_size := Some 3; st_mtime := Some 1700000000; st_birthtime := None |};
     afc_listdir := Some (fun _ p => Ret (listing p));
     afc_ls := None;
     afc_list_directory := None;
     afc_open := option_map (fun f _ p => f p) open;
     afc_file_open := None;
     afc_get_file_contents := option_map (fun f _ p => f p) contents;
     afc_pull_file := option_map (fun f _ p => f p) pull;
     afc_pull := None |}.

Definition three_bytes : list byte := [x41; x42; x43].

Definition two_reads : outcome (list read_result) :=
  Ret [Chunk [x41; x42]; Chunk [x43]].

(** A camera roll holding one raw photo. *)
Definition raw_roll (p : string) : option (list raw_entry) :=
  if String.eqb p "/" then Some [EntryStr "DCIM"]
  else if String.eqb p "/DCIM" then Some [EntryStr "IMG_0001.CR2"]
  else None.

Definition raw_device : Device :=
  sample_device raw_roll (Some (fun _ => two_reads)) None None.



(** A camera roll whose listing primitive returns records, the first of
    which names the directory itself. *)
Definition dict_roll (p : string) : option (list raw_entry) :=
  if String.eqb p "/DCIM"
  then Some [EntryDict {[ "name" := "." ]}; EntryDict {[ "name" := "IMG_0001.JPG" ]}]
  else None.

Definition dict_device : Device := sample_device dict_roll None None None.

(** A camera roll with two photos and a text file. *)
Definition apple_roll (p : string) : option (list raw_entry) :=
  if String.eqb p "/" then Some [EntryStr "DCIM"]
  else if String.eqb p "/DCIM" then Some [EntryStr "100APPLE"]
  else if String.eqb p "/DCIM/100APPLE"
  then Some [EntryStr "IMG_0001.JPG"; EntryStr "IMG_0002.MOV"; EntryStr "notes.txt"]
  else None.

Definition apple_device : Device :=
  sample_device apple_roll (Some (fun _ => two_reads)) None None.

(** A device without any read primitive. *)
Definition mute_device : Device := sample_device apple_roll None None None.

(** The camera roll behind a connection that was lost: every existence test
    raises the library's error. *)
Definition dropped_device : Device :=
  {| create_using_usbmux := fun _ => Ret sample_lockdown;
     AfcService := fun _ => Ret tt;
     afc_exists := fun _ _ => Raise (AfcException "connection lost");
     afc_isdir := fun _ p => Ret (bool_decide (is_Some (apple_roll p)));
     afc_stat := fun _ _ =>
       Ret {| st_size := Some 3; st_mtime := Some 1700000000; st_birthtime := None |};
     afc_listdir := Some (fun _ p => Ret (apple_roll p));
     afc_ls := None; afc_list_directory := None;
     afc_open := None; afc_file_open := None; afc_get_file_contents := None;
     afc_pull_file := None; afc_pull := None |}.

Definition record_of (p : string) : file_info :=
  {| path := p; name := Str.basename p; size := 3; modified := 1700000000;
     created := 0; type := get_file_type p |}.

Definition photo1 : file_info := record_of "/DCIM/100APPLE/IMG_0001.JPG".
Definition photo2 : file_info := record_of "/DCIM/100APPLE/IMG_0002.MOV".
Definition photo3 : file_info := record_of "/DCIM/100APPLE/IMG_0003.JPG".

(** A device on which every primitive raises for the second photo. *)
Definition flaky {A} (good : A) (p : string) : outcome A :=
  if String.eqb p (path photo2) then Raise (AfcException "read failed") else Ret good.

Definition flaky_device : Device :=
  sample_device apple_roll
    (Some (flaky [Chunk [x41; x42]; Chunk [x43]]))
    (Some (flaky three_bytes)) (Some (flaky three_bytes)).


(** A reader whose local disk holds an earlier download and for which an
    interrupt arrives at the third poll of the token. *)
Definition interrupted_world : World :=
  set_stop false [2%nat] (fresh {[ "out/DCIM/100APPLE/IMG_0000.JPG" := three_bytes ]}).


(** A pathological tree: every path is a directory that lists the same 25
    subdirectories, without end. *)
Definition crowded_names : list string :=
  [ "a"; "b"; "c"; "d"; "e"; "f"; "g"; "h"; "i"; "j"; "k"; "l"; "m";
    "n"; "o"; "p"; "q"; "r"; "s"; "t"; "u"; "v"; "w"; "x"; "y" ].

Definition crowded_device : Device :=
  sample_device (fun _ => Some (map EntryStr crowded_names)) None None None.

(** An observer that raises. *)
Definition raising_observer : observer :=
  fun _ _ _ => Some (OtherException "observer failed").

(** [reportProgress] as the specification words it: whatever the registered
    observer does, the call returns normally. *)
Definition never_raises (current total : Z) (m : message) (w : World) : Prop :=
  exists w', update_progress current total m w = (Ret tt, w').

(** The second transfer as the specification words it: it reports a skip
    and the only I/O is the existence check and the size check of the local
    file. *)
Definition skipped_with_size_check_only (dev : Device)
    (remote_path local_path : string) (info : file_info) (w : World) : Prop :=
  exists w',
    download_file_safe dev remote_path local_path (Some info) w = (Ret true, w') /\
    forall e, In e (new_events w w') ->
              e = EvLocalExists local_path \/ e = EvGetsize local_path.

(** ** Vocabulary of the further properties *)

(** Whenever [m] returns a value, the value satisfies [P]. *)
Definition yields {A} (m : M A) (P : A -> Prop) : Prop :=
  forall w, match fst (m w) with
            | Ret a => P a
            | Raise _ => True
            end.

(** The names [safe_listdir] filters out. *)
Definition pseudo_entry (s : string) : bool := mem_str s ["."; ".."; ""].

(** What [get_file_info_safe] guarantees of a record it builds. *)
Definition record_of_path (r : file_info) : Prop :=
  name r = Str.basename (path r) /\ type r = get_file_type (path r).

(** [m] leaves the part [f] of the state as it is, however it ends. *)
Definition preserves {A B} (f : World -> B) (m : M A) : Prop :=
  forall w, f (snd (m w)) = f w.

(** From a state satisfying [P], [m] returns a value satisfying [Q] in a
    state satisfying [P] again. *)
Definition settles {A} (P : World -> Prop) (m : M A) (Q : A -> Prop) : Prop :=
  forall w, P w -> exists a w', m w = (Ret a, w') /\ P w' /\ Q a.

(** An existence or directory test that never answers yes for [p]: it
    answers no or raises. *)
Definition refuses (test : list event -> string -> outcome bool) (p : string) : Prop :=
  forall h, test h p = Ret false \/ exists e, test h p = Raise e.

(** The first enumeration primitive gives no listing for [p]: the method is
    missing, raises, or returns [None]. *)
Definition listdir_gives_nothing (dev : Device) (p : string) : Prop :=
  match afc_listdir dev with
  | None => True
  | Some listdir => forall h, listdir h p = Ret None \/ exists e, listdir h p = Raise e
  end.

(** A device whose listing primitive raises, so that [ls] is tried, and
    answers with the dict shape. *)
Definition ls_device : Device :=
  {| create_using_usbmux := fun _ => Ret sample_lockdown;
     AfcService := fun _ => Ret tt;
     afc_exists := fun _ _ => Ret true;
     afc_isdir := fun _ _ => Ret true;
     afc_stat := fun _ _ => Raise (AfcException "stat failed");
     afc_listdir := Some (fun _ _ => Raise (AfcException "listdir failed"));
     afc_ls := Some (fun _ _ =>
       Ret (LsDict (Some [EntryDict {[ "filename" := "IMG_0001.JPG" ]};
                          EntryStr ".."; EntryStr "notes.txt"])));
     afc_list_directory := Some (fun _ _ => Ret (Some [EntryStr "unused"]));
     afc_open := None; afc_file_open := None; afc_get_file_contents := None;
     afc_pull_file := None; afc_pull := None |}.

(** A reader whose token is already set. *)
Definition stopped_world : World := set_stop true [] (fresh ∅).

(** The state a loop body hands on, whether it continues or breaks. *)
Definition ctl_state {S} (c : ctl S) : S :=
  match c with
  | Next s => s
  | Break s => s
  end.

(** A path that passes the media filter. *)
Definition media_path (p : string) : Prop := is_media_file p = true.

(** A record as the analysis builds it: a media path with the name and the
    type derived from that path. *)
Definition media_record (r : file_info) : Prop :=
  media_path (path r) /\ record_of_path r.

(** A device that cannot be reached. *)
Definition unreachable_device : Device :=
  {| create_using_usbmux := fun _ => Raise (OtherException "no device");
     AfcService := fun _ => Ret tt;
     afc_exists := fun _ _ => Ret true;
     afc_isdir := fun _ _ => Ret true;
     afc_stat := fun _ _ => Raise (AfcException "stat failed");
     afc_listdir := Some (fun _ _ => Ret (Some [EntryStr "IMG_0001.JPG"]));
     afc_ls := None; afc_list_directory := None;
     afc_open := None; afc_file_open := None; afc_get_file_contents := None;
     afc_pull_file := None; afc_pull := None |}.

(** The calls made to the AFC service, that is the history without the
    connection attempts and the observer invocations. *)
Fixpoint afc_history (h : list event) : list event :=
  match h with
  | [] => []
  | EvUsbmux :: h' => afc_history h'
  | EvProgress _ _ _ :: h' => afc_history h'
  | e :: h' => e :: afc_history h'
  end.

(** The path [scan_photos_safe] builds for an entry of a directory. *)
Definition item_path (directory_path item : string) : string :=
  Str.rstrip_slash directory_path ++ "/" ++ item.

(** The device says that [p] is a directory listing the plain names
    [names], through its first enumeration primitive. *)
Definition lists_plain (dev : Device) (p : string) (names : list string) : Prop :=
  (forall h, afc_exists dev h p = Ret true) /\
  (forall h, afc_isdir dev h p = Ret true) /\
  exists listdir,
    afc_listdir dev = Some listdir /\
    forall h, listdir h p = Ret (Some (map EntryStr names)).

(** The retention test of [get_photo_directories_safe] on a listing. *)
Definition looks_like_photos (items : list string) : bool :=
  (0 <? len items)%Z
  && (existsb photo_related_item (firstn 10 items) || (50 <? len items)%Z).

(** An existence or directory test that gives an answer for [p], yes or no,
    whenever it is asked: it does not raise. *)
Definition answers (test : list event -> string -> outcome bool) (p : string) : Prop :=
  forall h, exists b, test h p = Ret b.

(** The calls made on the local file system, newest first: the history
    without the device calls and the observer invocations. *)
Fixpoint local_operations (h : list event) : list event :=
  match h with
  | [] => []
  | EvMkdir d :: h' => EvMkdir d :: local_operations h'
  | EvLocalExists p :: h' => EvLocalExists p :: local_operations h'
  | EvGetsize p :: h' => EvGetsize p :: local_operations h'
  | EvOpenWrite p :: h' => EvOpenWrite p :: local_operations h'
  | EvWrite p n :: h' => EvWrite p n :: local_operations h'
  | EvRemove p :: h' => EvRemove p :: local_operations h'
  | EvUtime p t :: h' => EvUtime p t :: local_operations h'
  | _ :: h' => local_operations h'
  end.

(** The calls made to the device, newest first: the history without the
    local calls and the observer invocations. *)
Fixpoint device_calls (h : list event) : list event :=
  match h with
  | [] => []
  | EvMkdir _ :: h' | EvLocalExists _ :: h' | EvGetsize _ :: h'
  | EvOpenWrite _ :: h' | EvWrite _ _ :: h' | EvRemove _ :: h'
  | EvUtime _ _ :: h' | EvProgress _ _ _ :: h' => device_calls h'
  | e :: h' => e :: device_calls h'
  end.

(** * Properties *)

(** ** The monad *)

Lemma bind_ret_inv {A B} (m : M A) (k : A -> M B) w b w' :
  bind m k w = (Ret b, w') ->
  exists a w1, m w = (Ret a, w1) /\ k a w1 = (Ret b, w').
Proof.
  unfold bind. destruct (m w) as [[a | e] w1]; intros H.
  - exists a, w1. split; [reflexivity | exact H].
  - discriminate H.
Qed.

Lemma bind_run {A B} (m : M A) (k : A -> M B) w a w1 :
  m w = (Ret a, w1) -> bind m k w = k a w1.
Proof. unfold bind. intros ->. reflexivity. Qed.

Lemma bind_run_raise {A B} (m : M A) (k : A -> M B) w e w1 :
  m w = (Raise e, w1) -> bind m k w = (Raise e, w1).
Proof. unfold bind. intros ->. reflexivity. Qed.

Lemma try_run {A} (m : M A) (h : exn -> M A) w a w1 :
  m w = (Ret a, w1) -> try_except m h w = (Ret a, w1).
Proof. unfold try_except. intros ->. reflexivity. Qed.

Lemma try_run_raise {A} (m : M A) (h : exn -> M A) w e w1 :
  m w = (Raise e, w1) -> try_except m h w = h e w1.
Proof. unfold try_except. intros ->. reflexivity. Qed.

(** ** Progress reporting *)

Lemma update_progress_eq current total m w :
  update_progress current total m w =
  match progress_callback w with
  | Some callback =>
      (match callback current total m with
       | None => Ret tt
       | Some e => Raise e
       end,
       add_event (EvProgress current total m) (set_status_message m w))
  | None => (Ret tt, set_status_message m w)
  end.
Proof.
  unfold update_progress, bind, modify, gets. simpl.
  destruct (progress_callback w) as [callback |]; simpl; [| reflexivity].
  destruct (callback current total m); reflexivity.
Qed.

(** C9, as the code has it: [update_progress] invokes the registered observer
    exactly once, or none when none is registered; it returns normally when
    the observer does, and an exception raised by the observer reaches the
    caller unchanged. *)
Theorem update_progress_one_observer current total m w :
  observer_calls (trace (snd (update_progress current total m w))) =
    (observer_calls (trace w) +
     match progress_callback w with Some _ => 1 | None => 0 end)%nat /\
  fst (update_progress current total m w) =
    match progress_callback w with
    | Some callback =>
        match callback current total m with
        | None => Ret tt
        | Some e => Raise e
        end
    | None => Ret tt
    end.
Proof.
  rewrite update_progress_eq.
  destruct (progress_callback w) as [callback |]; simpl.
  - split; [lia | reflexivity].
  - split; [lia | reflexivity].
Qed.

(** C9, as the specification has it, fails for an observer that raises. *)
Lemma update_progress_observer_raises :
  ~ never_raises 1 10 MsgPreparing
      (set_progress_callback' (Some raising_observer) (fresh ∅)).
Proof.
  intros [w' H]. rewrite update_progress_eq in H. simpl in H. discriminate H.
Qed.

(** ** Directory listing *)

Lemma filter_item_str s x :
  In x (filter_item (EntryStr s)) -> x = s /\ x <> "." /\ x <> ".." /\ x <> "".
Proof.
  unfold filter_item, mem_str. simpl.
  destruct (String.eqb_spec s "."); [intros [] |].
  destruct (String.eqb_spec s ".."); [intros [] |].
  destruct (String.eqb_spec s ""); [intros [] |].
  simpl. intros [<- | []]. auto.
Qed.

(** For listings made of plain names the pseudo-entries are filtered out. *)
Lemma filtered_items_plain names x :
  In x (filtered_items (map EntryStr names)) ->
  In x names /\ x <> "." /\ x <> ".." /\ x <> "".
Proof.
  unfold filtered_items. induction names as [| s names IH]; simpl.
  - intros [].
  - intros H. apply in_app_or in H. destruct H as [H | H].
    + apply filter_item_str in H. destruct H as [-> H]. auto.
    + destruct (IH H) as [H1 H2]. auto.
Qed.

(** C2 at a listing made of records: the entry named ["."] is replaced by
    its name after the membership test, and so survives the filter. *)
Theorem safe_listdir_keeps_dot_record :
  fst (safe_listdir dict_device "/DCIM" (fresh ∅)) = Ret (Some ["."; "IMG_0001.JPG"]).
Proof. vm_compute. reflexivity. Qed.

(** ** Classification *)

(** C1 at a camera roll with one raw photo: [is_media_file] lets the file
    in, [get_file_type] calls it unknown, and the record is counted in
    [total_files] while being neither an image nor a video. *)
Theorem analysis_counts_unknown_record :
  is_media_file "IMG_0001.CR2" = true /\
  get_file_type "/DCIM/IMG_0001.CR2" = unknown /\
  exists result,
    fst (analyze_photos_safe raw_device (fresh ∅)) = Ret (Some result) /\
    total_files result = 1 /\ image_count result = 0 /\ video_count result = 0 /\
    map (fun p => (path p, type p)) (photos_info result) =
      [("/DCIM/IMG_0001.CR2", unknown)].
Proof.
  split; [vm_compute; reflexivity |].
  split; [vm_compute; reflexivity |].
  eexists. split; [vm_compute; reflexivity |].
  repeat split.
Qed.

(** ** Analysis result *)

Ltac inv_ret H :=
  match type of H with
  | ret _ _ = _ => unfold ret in H; inversion H; subst; clear H
  | (_, _) = (_, _) => inversion H; subst; clear H
  end.

Tactic Notation "inv_bind" hyp(H) "as" ident(a) :=
  let w1 := fresh "w" in
  let H1 := fresh "Hrun" in
  apply bind_ret_inv in H; destruct H as (a & w1 & H1 & H).




Lemma statistics_result all_photos result :
  statistics all_photos = Ret result ->
  photos_info result = all_photos /\
  total_files result = len all_photos /\
  image_count result = count_type image all_photos /\
  video_count result = count_type video all_photos /\
  total_size_mb result = round_binary64 (sum_sizes all_photos) # (1024 * 1024).
Proof.
  unfold statistics, true_div_mib.
  destruct (2 ^ 1044 <=? Z.abs (round_binary64 (sum_sizes all_photos)))%Z;
    [discriminate |].
  intros H. inversion H. repeat split.
Qed.

Lemma analyze_photos_safe_result dev w w' result :
  analyze_photos_safe dev w = (Ret (Some result), w') ->
  exists all_photos, all_photos <> [] /\ statistics all_photos = Ret result.
Proof.
  unfold analyze_photos_safe. intros H.
  inv_bind H as u. inv_bind H as connected.
  destruct connected; simpl in H; [| inv_ret H].
  inv_bind H as stopped. destruct stopped; [inv_ret H |].
  inv_bind H as ready. destruct ready; simpl in H; [| inv_ret H].
  inv_bind H as stopped. destruct stopped; [inv_ret H |].
  inv_bind H as u1. inv_bind H as u2. inv_bind H as directories.
  inv_bind H as stopped.
  destruct stopped; [inv_bind H as u3; inv_ret H |].
  destruct directories as [| directory directories]; [inv_bind H as u3; inv_ret H |].
  inv_bind H as u3. inv_bind H as all_photos. inv_bind H as stopped.
  destruct stopped; [inv_bind H as u4; inv_bind H as u5; inv_ret H |].
  destruct all_photos as [| p all_photos]; [inv_bind H as u4; inv_ret H |].
  inv_bind H as result0. inv_bind H as u4. inv_bind H as u5. inv_bind H as u6.
  inv_bind H as u7. inv_bind H as u8. inv_ret H.
  exists (p :: all_photos). split; [discriminate |].
  match goal with
  | Hl : lift _ _ = _ |- _ => unfold lift in Hl; inversion Hl; reflexivity
  end.
Qed.




(** ** Bounded scan *)

Lemma cost_le {A} (m : M A) n n' : cost m n -> (n <= n')%nat -> cost m n'.
Proof. intros H Hle w. specialize (H w). lia. Qed.

Lemma cost_ret {A} (a : A) : cost (ret a) 0.
Proof. intros w. simpl. lia. Qed.

Lemma cost_raise {A} e : cost (@raise A e) 0.
Proof. intros w. simpl. lia. Qed.

Lemma cost_bind {A B} (m : M A) (k : A -> M B) n1 n2 :
  cost m n1 -> (forall a, cost (k a) n2) -> cost (bind m k) (n1 + n2).
Proof.
  intros Hm Hk w. unfold bind. specialize (Hm w).
  destruct (m w) as [[a | e] w1]; simpl in *.
  - specialize (Hk a w1). lia.
  - lia.
Qed.

Lemma cost_try {A} (m : M A) (h : exn -> M A) n1 n2 :
  cost m n1 -> (forall e, cost (h e) n2) -> cost (try_except m h) (n1 + n2).
Proof.
  intros Hm Hh w. unfold try_except. specialize (Hm w).
  destruct (m w) as [[a | e] w1]; simpl in *.
  - lia.
  - specialize (Hh e w1). lia.
Qed.

Lemma cost_for_each {A S} (body : A -> S -> M (ctl S)) n l s :
  (forall x s, cost (body x s) n) -> cost (for_each body l s) (length l * n).
Proof.
  intros Hbody. revert s. induction l as [| x l IH]; intros s; simpl.
  - apply cost_ret.
  - apply cost_bind; [apply Hbody |]. intros [s' | s'].
    + apply IH.
    + eapply cost_le; [apply cost_ret | lia].
Qed.

Lemma cost_modify f :
  (forall w, directories_listed (trace (f w)) = directories_listed (trace w)) ->
  cost (modify f) 0.
Proof. intros H w. simpl. rewrite H. lia. Qed.

Lemma cost_gets {A} (f : World -> A) : cost (gets f) 0.
Proof. intros w. simpl. lia. Qed.

Lemma cost_is_stopped : cost is_stopped 0.
Proof.
  intros w. unfold is_stopped.
  destruct (should_stop w); simpl; [lia |].
  destruct (sigints w) as [| [| n] rest]; simpl; lia.
Qed.

Lemma cost_update_progress current total m : cost (update_progress current total m) 0.
Proof.
  intros w. rewrite update_progress_eq.
  destruct (progress_callback w); simpl; lia.
Qed.

Lemma cost_remote_call {A} ev (oracle : list event -> outcome A) :
  cost (remote_call ev oracle) (directories_listed [ev]).
Proof. intros w. unfold remote_call. simpl. destruct ev; simpl; lia. Qed.

Lemma cost_bind_l {A B} (m : M A) (k : A -> M B) n :
  cost m n -> (forall a, cost (k a) 0) -> cost (bind m k) n.
Proof. intros Hm Hk. eapply cost_le; [apply (cost_bind m k n 0 Hm Hk) | lia]. Qed.

Lemma cost_bind_r {A B} (m : M A) (k : A -> M B) n :
  cost m 0 -> (forall a, cost (k a) n) -> cost (bind m k) n.
Proof. intros Hm Hk. apply (cost_bind m k 0 n Hm Hk). Qed.

Lemma cost_try_l {A} (m : M A) (h : exn -> M A) n :
  cost m n -> (forall e, cost (h e) 0) -> cost (try_except m h) n.
Proof. intros Hm Hh. eapply cost_le; [apply (cost_try m h n 0 Hm Hh) | lia]. Qed.

Lemma cost_zero_le {A} (m : M A) n : cost m 0 -> cost m n.
Proof. intros H. eapply cost_le; [exact H | lia]. Qed.

(** Code that lists no directory: every step is one of the rules above. *)
Ltac cost_zero :=
  repeat first
    [ apply cost_ret | apply cost_raise | apply cost_gets
    | apply cost_is_stopped | apply cost_update_progress
    | apply cost_modify; reflexivity
    | apply cost_remote_call
    | apply cost_bind_r; [| intro]
    | apply cost_try_l; [| intro]
    | match goal with
      | |- cost (if ?b then _ else _) _ => destruct b
      | |- cost (match ?x with _ => _ end) _ => destruct x
      end ].

Lemma cost_safe_listdir dev directory_path : cost (safe_listdir dev directory_path) 1.
Proof.
  unfold safe_listdir.
  apply cost_bind_r; [apply cost_is_stopped |].
  intros [|]; [apply cost_zero_le, cost_ret |].
  apply cost_try_l; [| intros; apply cost_raise].
  apply cost_bind_l; [apply cost_remote_call |].
  intros ex. cost_zero.
Qed.

Lemma cost_scan_item dev directory_path item acc :
  cost (scan_item dev directory_path item acc) 0.
Proof. unfold scan_item. destruct acc as [files subdirs]. cost_zero. Qed.

Lemma fan_out_capped (subdirs : list string) :
  (length (firstn (Z.to_nat (Z.min 20 (len subdirs))) subdirs) <= 20)%nat.
Proof. rewrite length_firstn. unfold len. lia. Qed.

Lemma cost_scan_depth dev depth :
  forall directory_path, cost (scan_depth dev depth directory_path) (scan_bound depth).
Proof.
  induction depth as [| depth IH]; intros directory_path; [apply cost_ret |].
  cbn [scan_depth scan_bound].
  apply cost_bind_r; [apply cost_is_stopped |].
  intros [|]; [apply cost_zero_le, cost_ret |].
  apply cost_bind; [apply cost_safe_listdir |].
  intros [items |]; [| apply cost_zero_le, cost_ret].
  apply cost_bind_r.
  { apply (cost_le _ _ _ (cost_for_each _ 0 items _ (cost_scan_item dev directory_path))).
    lia. }
  intros [files [| subdir subdirs]]; [apply cost_zero_le, cost_ret |].
  apply cost_bind_r; [apply cost_is_stopped |].
  intros [|]; [apply cost_zero_le, cost_ret |].
  eapply cost_le.
  - apply cost_for_each with (n := scan_bound depth). intros x photos.
    apply cost_bind_r; [apply cost_is_stopped |].
    intros [|]; [apply cost_zero_le, cost_ret |].
    apply cost_try_l; [| intros; apply cost_ret].
    apply cost_bind_l; [apply IH | intros; apply cost_ret].
  - apply Nat.mul_le_mono_r, fan_out_capped.
Qed.

Lemma returns_ret {A} (a : A) : returns (ret a).
Proof. intros w. exists a. reflexivity. Qed.

Lemma returns_bind {A B} (m : M A) (k : A -> M B) :
  returns m -> (forall a, returns (k a)) -> returns (bind m k).
Proof.
  intros Hm Hk w. unfold bind. destruct (Hm w) as [a Ha].
  destruct (m w) as [r w1]. simpl in Ha. subst r. apply Hk.
Qed.

Lemma returns_try {A} (m : M A) (h : exn -> M A) :
  (forall e, returns (h e)) -> returns (try_except m h).
Proof.
  intros Hh w. unfold try_except. destruct (m w) as [[a | e] w1].
  - exists a. reflexivity.
  - apply Hh.
Qed.

Lemma returns_for_each {A S} (body : A -> S -> M (ctl S)) l s :
  (forall x s, returns (body x s)) -> returns (for_each body l s).
Proof.
  intros Hbody. revert s. induction l as [| x l IH]; intros s; simpl.
  - apply returns_ret.
  - apply returns_bind; [apply Hbody |]. intros [s' | s']; [apply IH | apply returns_ret].
Qed.

Lemma returns_is_stopped : returns is_stopped.
Proof.
  intros w. unfold is_stopped. destruct (should_stop w); [eexists; reflexivity |].
  destruct (sigints w) as [| [| n] rest]; eexists; reflexivity.
Qed.

Lemma returns_logger l m : returns (logger l m).
Proof. intros w. exists tt. reflexivity. Qed.

Lemma returns_safe_listdir dev directory_path :
  answers (afc_exists dev) directory_path ->
  answers (afc_isdir dev) directory_path ->
  returns (safe_listdir dev directory_path).
Proof.
  intros Hex Hdir. unfold safe_listdir. apply returns_bind; [apply returns_is_stopped |].
  intros [|]; [apply returns_ret |]. intros w.
  unfold try_except, bind at 1, remote_call at 1.
  destruct (Hex (trace w)) as [ex ->]. destruct ex; [| eexists; reflexivity].
  cbn [negb]. unfold bind at 1, remote_call at 1.
  destruct (Hdir (trace (add_event (EvExists directory_path) w))) as [isd ->].
  destruct isd; [| eexists; reflexivity]. cbn [negb].
  match goal with
  | |- exists a, fst (match ?m ?w1 with _ => _ end) = _ =>
      assert (Hr : returns m); [| destruct (Hr w1) as [a Ha];
        destruct (m w1) as [r w2]; simpl in Ha; subst r; exists a; reflexivity]
  end.
  apply returns_bind.
  { destruct (afc_listdir dev); [apply returns_try; intros; apply returns_ret
                                | apply returns_ret]. }
  intros items1. apply returns_bind.
  { destruct items1; destruct (afc_ls dev);
      first [apply returns_ret | apply returns_try; intros; apply returns_ret]. }
  intros items2. apply returns_bind.
  { destruct items2; destruct (afc_list_directory dev);
      first [apply returns_ret | apply returns_try; intros; apply returns_ret]. }
  intros [items |]; apply returns_ret.
Qed.

Lemma returns_scan_item dev directory_path item acc :
  returns (scan_item dev directory_path item acc).
Proof.
  unfold scan_item. destruct acc as [files subdirs].
  apply returns_bind; [apply returns_is_stopped |].
  intros [|]; [apply returns_ret |]. apply returns_try. intros; apply returns_ret.
Qed.

Lemma returns_scan_depth dev depth directory_path :
  answers (afc_exists dev) directory_path ->
  answers (afc_isdir dev) directory_path ->
  returns (scan_depth dev depth directory_path).
Proof.
  intros Hex Hdir. destruct depth as [| depth]; [apply returns_ret |].
  cbn [scan_depth]. apply returns_bind; [apply returns_is_stopped |].
  intros [|]; [apply returns_ret |].
  apply returns_bind; [apply returns_safe_listdir; assumption |].
  intros [items |]; [| apply returns_ret].
  apply returns_bind; [apply returns_for_each; intros; apply returns_scan_item |].
  intros [files [| subdir subdirs]]; [apply returns_ret |].
  apply returns_bind; [apply returns_is_stopped |].
  intros [|]; [apply returns_ret |].
  apply returns_for_each. intros x photos.
  apply returns_bind; [apply returns_is_stopped |].
  intros [|]; [apply returns_ret |]. apply returns_try. intros; apply returns_ret.
Qed.

(** The recursion of the source: a positive [max_depth] scans the
    subdirectories with [max_depth - 1]. *)
Lemma scan_photos_safe_decrements dev subdir max_depth :
  0 < max_depth ->
  Z.to_nat max_depth = S (Z.to_nat (max_depth - 1)) /\
  scan_depth dev (Z.to_nat (max_depth - 1)) subdir =
    scan_photos_safe dev subdir (max_depth - 1).
Proof. intros H. split; [lia | reflexivity]. Qed.

(** The scenario of the specification: the two media files are returned in
    listing order and the text file is left out. *)
Example scan_photos_safe_scenario :
  fst (scan_photos_safe apple_device "/DCIM" 3 (fresh ∅)) =
  Ret ["/DCIM/100APPLE/IMG_0001.JPG"; "/DCIM/100APPLE/IMG_0002.MOV"].
Proof. vm_compute. reflexivity. Qed.

(** On the endless tree with 25 subdirectories everywhere the bound is
    attained: 1 + 20 directories at depth 2, 1 + 20 + 400 at depth 3. *)
Example scan_photos_safe_endless_tree :
  directories_listed (trace (snd (scan_photos_safe crowded_device "/" 2 (fresh ∅))))
  = scan_bound 2 /\
  directories_listed (trace (snd (scan_photos_safe crowded_device "/" 3 (fresh ∅))))
  = scan_bound 3.
Proof. split; vm_compute; reflexivity. Qed.

(** C6: the scan is not total. On a device whose existence test raises for
    the scanned root, [scan_photos_safe] with the default depth does not
    return a list: the exception reaches the [except AfcError] clause of
    [safe_listdir], the lookup of that unbound name raises [NameError], and
    the call of [safe_listdir] in the scan is outside every [try], so the
    [NameError] leaves [scan_photos_safe] after that one existence test. *)
Theorem scan_photos_safe_root_error :
  exists w',
    scan_photos_safe dropped_device "/DCIM" 3 (fresh ∅)
    = (Raise (NameError "AfcError"), w') /\
    trace w' = [EvExists "/DCIM"].
Proof. eexists. split; vm_compute; reflexivity. Qed.

(** ** State properties kept by a transfer *)

Lemma stable_ret {A} I (a : A) : stable I (ret a).
Proof. intros w H. exact H. Qed.

Lemma stable_raise {A} I e : stable I (@raise A e).
Proof. intros w H. exact H. Qed.

Lemma stable_gets {A} I (f : World -> A) : stable I (gets f).
Proof. intros w H. exact H. Qed.

Lemma stable_modify I f : (forall w, I w -> I (f w)) -> stable I (modify f).
Proof. intros Hf w H. apply Hf, H. Qed.

Lemma stable_bind {A B} I (m : M A) (k : A -> M B) :
  stable I m -> (forall a, stable I (k a)) -> stable I (bind m k).
Proof.
  intros Hm Hk w H. unfold bind. specialize (Hm w H).
  destruct (m w) as [[a | e] w1]; simpl in *.
  - apply Hk, Hm.
  - exact Hm.
Qed.

Lemma stable_try {A} I (m : M A) (h : exn -> M A) :
  stable I m -> (forall e, stable I (h e)) -> stable I (try_except m h).
Proof.
  intros Hm Hh w H. unfold try_except. specialize (Hm w H).
  destruct (m w) as [[a | e] w1]; simpl in *.
  - exact Hm.
  - apply Hh, Hm.
Qed.

Lemma stable_for_each {A S} I (body : A -> S -> M (ctl S)) l s :
  (forall x s, stable I (body x s)) -> stable I (for_each body l s).
Proof.
  intros Hbody. revert s. induction l as [| x l IH]; intros s; simpl.
  - apply stable_ret.
  - apply stable_bind; [apply Hbody |]. intros [s' | s']; [apply IH | apply stable_ret].
Qed.

Lemma stable_remote_call {A} I ev (oracle : list event -> outcome A) :
  (forall w, I w -> I (add_event ev w)) -> stable I (remote_call ev oracle).
Proof. intros Hev w H. apply Hev, H. Qed.

Section Footprint.

Variable dev : Device.
Variable local_path : string.
Variable I : World -> Prop.
Hypothesis HI : footprint local_path I.

Lemma fp_is_stopped : stable I is_stopped.
Proof. apply (fp_stop _ _ HI). Qed.

Lemma fp_logger l m : transfer_log m = true -> stable I (logger l m).
Proof. intros Hm. apply stable_modify. intros w. apply (fp_log _ _ HI), Hm. Qed.

Lemma fp_add_event ev : transfer_event ev = true -> stable I (modify (add_event ev)).
Proof. intros Hev. apply stable_modify. intros w. apply (fp_event _ _ HI), Hev. Qed.

Lemma fp_remote_call {A} ev (oracle : list event -> outcome A) :
  transfer_event ev = true -> stable I (remote_call ev oracle).
Proof. intros Hev. apply stable_remote_call. intros w. apply (fp_event _ _ HI), Hev. Qed.

Lemma fp_update_progress current total m : stable I (update_progress current total m).
Proof.
  intros w H. rewrite update_progress_eq.
  destruct (progress_callback w); simpl.
  - apply (fp_event _ _ HI); [reflexivity |]. apply (fp_status _ _ HI), H.
  - apply (fp_status _ _ HI), H.
Qed.

Lemma fp_local_exists : stable I (local_exists local_path).
Proof.
  unfold local_exists. apply stable_bind; [apply fp_add_event; reflexivity |].
  intros _. apply stable_bind; [apply stable_gets |]. intros; apply stable_ret.
Qed.

Lemma fp_local_getsize : stable I (local_getsize local_path).
Proof.
  unfold local_getsize. apply stable_bind; [apply fp_add_event; reflexivity |].
  intros _. apply stable_bind; [apply stable_gets |].
  intros fs. destruct (fs !! local_path); [apply stable_ret | apply stable_raise].
Qed.

Lemma fp_local_open_wb : stable I (local_open_wb local_path).
Proof.
  unfold local_open_wb. apply stable_bind; [apply fp_add_event; reflexivity |].
  intros _. apply stable_modify. intros w. apply (fp_write _ _ HI).
Qed.

Lemma fp_local_write data : stable I (local_write local_path data).
Proof.
  unfold local_write. apply stable_bind; [apply fp_add_event; reflexivity |].
  intros _. apply stable_modify. intros w. apply (fp_write _ _ HI).
Qed.

Lemma fp_local_remove : stable I (local_remove local_path).
Proof.
  unfold local_remove. apply stable_bind; [apply fp_add_event; reflexivity |].
  intros _. apply stable_modify. intros w. apply (fp_remove _ _ HI).
Qed.

Lemma fp_local_utime t : stable I (local_utime local_path t).
Proof. apply fp_add_event. reflexivity. Qed.

Lemma fp_safe_open_file file_path : stable I (safe_open_file dev file_path).
Proof.
  unfold safe_open_file. apply stable_try.
  - destruct (afc_open dev); [| destruct (afc_file_open dev);
      [| destruct (afc_get_file_contents dev); [| apply stable_raise]]];
    (apply stable_bind; [apply fp_remote_call; reflexivity | intros; apply stable_ret]).
  - intros e. destruct (is_attribute_error e);
    (apply stable_bind; [apply fp_logger; reflexivity | intros; apply stable_raise]).
Qed.

Lemma fp_stream_copy remote_file total_size reads :
  forall downloaded_size,
    stable I (stream_copy remote_file local_path total_size reads downloaded_size).
Proof.
  induction reads as [| r reads IH]; intros downloaded_size; simpl.
  - apply stable_bind; [apply fp_is_stopped |].
    intros [|]; [apply stable_ret |].
    apply stable_bind; [| intros; apply stable_ret].
    destruct remote_file; [apply fp_add_event; reflexivity | apply stable_ret].
  - apply stable_bind; [apply fp_is_stopped |].
    intros [|]; [apply stable_ret |].
    apply stable_bind.
    { destruct remote_file; [apply fp_add_event; reflexivity | apply stable_ret]. }
    intros _. destruct r as [[| b chunk] | e]; [apply stable_ret | | apply stable_raise].
    apply stable_bind; [apply fp_local_write |]. intros _.
    apply stable_bind; [| intros; apply IH].
    destruct (_ >? _)%Z; [apply fp_update_progress | apply stable_ret].
Qed.

Lemma fp_download_with_stream remote_path info :
  stable I (_download_with_stream dev remote_path local_path info).
Proof.
  unfold _download_with_stream.
  apply stable_bind; [apply fp_safe_open_file |]. intros remote_file.
  apply stable_bind; [apply fp_local_open_wb |]. intros _.
  apply stable_bind; [apply fp_stream_copy |]. intros _.
  apply stable_bind; [apply fp_is_stopped |].
  intros [|]; [| apply stable_ret].
  apply stable_bind; [apply fp_local_exists |]. intros ex.
  apply stable_bind; [| intros; apply stable_ret].
  destruct ex; [apply fp_local_remove | apply stable_ret].
Qed.

Lemma fp_download_with_bulk_read remote_path info :
  stable I (_download_with_bulk_read dev remote_path local_path info).
Proof.
  unfold _download_with_bulk_read.
  destruct (afc_get_file_contents dev); [| apply stable_raise].
  apply stable_bind; [apply fp_remote_call; reflexivity |]. intros data.
  apply stable_bind; [apply fp_is_stopped |].
  intros [|]; [apply stable_ret |].
  apply stable_bind; [apply fp_local_open_wb |]. intros _.
  apply stable_bind; [apply fp_local_write | intros; apply stable_ret].
Qed.

Lemma fp_pulled data : stable I (pulled local_path data).
Proof. apply stable_modify. intros w. apply (fp_write _ _ HI). Qed.

Lemma fp_download_with_pull remote_path info :
  stable I (_download_with_pull dev remote_path local_path info).
Proof.
  unfold _download_with_pull.
  destruct (afc_pull_file dev); [| destruct (afc_pull dev); [| apply stable_raise]];
    (apply stable_bind; [apply fp_remote_call; reflexivity |]; intros data;
     apply stable_bind; [apply fp_pulled |]; intros _;
     apply stable_bind; [apply fp_is_stopped | intros; apply stable_ret]).
Qed.


Lemma fp_verify_download info success :
  stable I (verify_download local_path info success).
Proof.
  unfold verify_download. apply stable_bind.
  { destruct success; [| apply stable_ret].
    apply stable_bind; [apply fp_is_stopped | intros; apply stable_ret]. }
  intros [|]; [| apply stable_ret].
  apply stable_bind; [apply fp_local_exists |].
  intros [|].
  - apply stable_bind; [apply fp_local_getsize |]. intros actual_size.
    apply stable_bind.
    { destruct (_ && _); [apply fp_logger; reflexivity | apply stable_ret]. }
    intros _. apply stable_bind.
    { destruct info as [fi |]; [| apply stable_ret].
      destruct (negb _); [| apply stable_ret].
      apply stable_try; [apply fp_local_utime | intros; apply stable_ret]. }
    intros _. apply stable_bind; [apply fp_logger; reflexivity | intros; apply stable_ret].
  - apply stable_bind; [apply fp_logger; reflexivity | intros; apply stable_ret].
Qed.

(** The three strategies and the verification step, for a property that
    also survives the line reporting that all strategies failed. *)
Hypothesis HI_all_failed :
  forall e1 e2 e3 w, I w -> I (add_log ERROR (LogAllMethodsFailed e1 e2 e3) w).



End Footprint.

(** ** Transfers without cancellation *)

Lemma is_stopped_calm w : calm w -> is_stopped w = (Ret false, w).
Proof.
  intros (Hstop & Hsig & _). unfold is_stopped. rewrite Hstop, Hsig. reflexivity.
Qed.



Lemma returns_download_file_safe dev remote_path local_path info :
  returns (download_file_safe dev remote_path local_path info).
Proof.
  unfold download_file_safe. apply returns_bind; [apply returns_is_stopped |].
  intros [|]; [apply returns_ret |]. apply returns_try.
  intros e. apply returns_bind; [apply returns_logger | intros; apply returns_ret].
Qed.

(** [download_file_safe] once the entry poll of the token is known. *)
Lemma download_file_safe_entered dev remote_path local_path info w w1 :
  is_stopped w = (Ret false, w1) ->
  download_file_safe dev remote_path local_path info w =
  try_except
    (skip <- already_present local_path info ;;
     if skip then ret true else
     attempt <- try_strategies dev remote_path local_path info ;;
     match attempt with
     | None => ret false
     | Some success => verify_download local_path info success
     end)
    (fun e =>
       logger ERROR (LogDownloadFailed (Str.basename remote_path) e) ;;
       ret false)
    (add_event (EvMkdir (Str.dirname local_path)) w1).
Proof.
  intros H. unfold download_file_safe. rewrite (bind_run _ _ _ _ _ H). reflexivity.
Qed.

Lemma download_file_safe_cancelled dev remote_path local_path info w w1 :
  is_stopped w = (Ret true, w1) ->
  download_file_safe dev remote_path local_path info w = (Ret false, w1).
Proof.
  intros H. unfold download_file_safe. rewrite (bind_run _ _ _ _ _ H). reflexivity.
Qed.


(** ** Batch download *)





(** ** The skip of an already present file *)

Lemma is_stopped_false w w1 :
  is_stopped w = (Ret false, w1) ->
  local_fs w1 = local_fs w /\ trace w1 = trace w /\ log w1 = log w /\
  progress_callback w1 = progress_callback w.
Proof.
  unfold is_stopped. destruct (should_stop w); [discriminate |].
  destruct (sigints w) as [| [| n] rest]; simpl; intros H; inversion H; subst;
    repeat split; reflexivity.
Qed.

Lemma local_exists_run p w :
  local_exists p w = (Ret (bool_decide (is_Some (local_fs w !! p))), add_event (EvLocalExists p) w).
Proof. reflexivity. Qed.

Lemma local_getsize_run p w content :
  local_fs w !! p = Some content ->
  local_getsize p w = (Ret (len content), add_event (EvGetsize p) w).
Proof.
  intros H. unfold local_getsize, bind, modify, gets. simpl. rewrite H. reflexivity.
Qed.

Lemma already_present_run local_path info w content :
  local_fs w !! local_path = Some content ->
  already_present local_path (Some info) w =
  (Ret ((len content =? size info)%Z && (size info >? 0)%Z),
   add_event (EvGetsize local_path) (add_event (EvLocalExists local_path) w)).
Proof.
  intros H. unfold already_present.
  rewrite (bind_run _ _ _ _ _ (local_exists_run local_path w)).
  rewrite bool_decide_eq_true_2 by (rewrite H; eexists; reflexivity).
  cbn beta iota.
  rewrite (bind_run _ _ _ _ _
             (local_getsize_run local_path (add_event (EvLocalExists local_path) w)
                content H)).
  reflexivity.
Qed.

Lemma already_present_absent local_path info w :
  local_fs w !! local_path = None ->
  already_present local_path info w = (Ret false, add_event (EvLocalExists local_path) w).
Proof.
  intros H. unfold already_present.
  rewrite (bind_run _ _ _ _ _ (local_exists_run local_path w)).
  rewrite bool_decide_eq_false_2 by (rewrite H; intros [? ?]; discriminate).
  reflexivity.
Qed.

Lemma download_file_safe_skip dev remote_path local_path info w w1 content :
  is_stopped w = (Ret false, w1) ->
  local_fs w !! local_path = Some content ->
  len content = size info ->
  0 < size info ->
  download_file_safe dev remote_path local_path (Some info) w =
  (Ret true,
   add_event (EvGetsize local_path)
     (add_event (EvLocalExists local_path)
        (add_event (EvMkdir (Str.dirname local_path)) w1))).
Proof.
  intros Hstop Hfile Hlen Hpos.
  destruct (is_stopped_false w w1 Hstop) as (Hfs & _).
  rewrite (download_file_safe_entered _ _ _ _ w w1 Hstop).
  apply try_run. erewrite bind_run.
  2: { apply (already_present_run local_path info _ content). simpl. rewrite Hfs. exact Hfile. }
  rewrite Hlen, Z.eqb_refl.
  replace (size info >? 0)%Z with true by (symmetry; apply Z.gtb_lt; lia).
  reflexivity.
Qed.

(** C4, as the code has it: when a local file of the expected positive size
    exists and no cancellation is pending, the transfer reports success
    after three local calls and nothing else: ensuring the parent directory
    (which comes before the check), the existence check and the size check.
    The device is not contacted, the local files and the log are
    unchanged. *)
Theorem download_file_safe_idempotent dev remote_path local_path info w content :
  fst (is_stopped w) = Ret false ->
  local_fs w !! local_path = Some content ->
  len content = size info ->
  0 < size info ->
  exists w',
    download_file_safe dev remote_path local_path (Some info) w = (Ret true, w') /\
    trace w' =
      EvGetsize local_path :: EvLocalExists local_path
        :: EvMkdir (Str.dirname local_path) :: trace w /\
    local_fs w' = local_fs w /\ log w' = log w.
Proof.
  intros Hstop Hfile Hlen Hpos.
  destruct (is_stopped w) as [r w1] eqn:Hrun. simpl in Hstop. subst r.
  destruct (is_stopped_false w w1 Hrun) as (Hfs & Htr & Hlog & _).
  eexists. split.
  - apply (download_file_safe_skip _ _ _ _ w w1 content); assumption.
  - simpl. rewrite Htr, Hfs, Hlog. repeat split.
Qed.

(** The state after a first, complete transfer of the first photo. *)
Lemma first_transfer_complete :
  exists w1,
    download_file_safe apple_device (path photo1) (local_path_of "out" photo1)
      (Some photo1) (fresh ∅) = (Ret true, w1) /\
    fst (is_stopped w1) = Ret false /\
    local_fs w1 !! local_path_of "out" photo1 = Some three_bytes.
Proof.
  eexists. split; [vm_compute; reflexivity |].
  split; vm_compute; reflexivity.
Defined.

Lemma download_file_safe_idempotent_witness :
  exists w1 w2,
    download_file_safe apple_device (path photo1) (local_path_of "out" photo1)
      (Some photo1) (fresh ∅) = (Ret true, w1) /\
    download_file_safe apple_device (path photo1) (local_path_of "out" photo1)
      (Some photo1) w1 = (Ret true, w2) /\
    local_fs w2 = local_fs w1 /\ log w2 = log w1.
Proof.
  destruct first_transfer_complete as (w1 & Hfirst & Hstop & Hfile).
  destruct (download_file_safe_idempotent apple_device (path photo1)
              (local_path_of "out" photo1) photo1 w1 three_bytes Hstop Hfile
              eq_refl eq_refl)
    as (w2 & Hsecond & _ & Hfs & Hlog).
  exists w1, w2. repeat split; assumption.
Defined.

(** C4, as the specification has it, fails: the second call also ensures the
    parent directory. *)
Lemma download_file_safe_second_call_mkdir :
  exists w1,
    download_file_safe apple_device (path photo1) (local_path_of "out" photo1)
      (Some photo1) (fresh ∅) = (Ret true, w1) /\
    ~ skipped_with_size_check_only apple_device (path photo1)
        (local_path_of "out" photo1) photo1 w1.
Proof.
  eexists. split; [vm_compute; reflexivity |].
  intros (w2 & Hrun & Honly).
  vm_compute in Hrun. inversion Hrun; subst; clear Hrun.
  specialize (Honly (EvMkdir "out/DCIM/100APPLE")).
  destruct Honly as [H | H]; [| discriminate H | discriminate H].
  vm_compute. right. right. left. reflexivity.
Qed.

(** ** Skipped transfers in a batch *)

Lemma update_progress_calm_run current total m w :
  calm w ->
  exists w1,
    update_progress current total m w = (Ret tt, w1) /\
    calm w1 /\ local_fs w1 = local_fs w.
Proof.
  intros Hc. pose proof Hc as (_ & _ & Hobs).
  rewrite update_progress_eq. unfold observer_silent in Hobs.
  destruct (progress_callback w) as [callback |] eqn:Hcb.
  - rewrite Hobs. eexists. split; [reflexivity |]. split; [| reflexivity].
    destruct Hc as (H1 & H2 & H3). split; [exact H1 |]. split; [exact H2 |].
    unfold observer_silent. simpl. rewrite Hcb. exact Hobs.
  - eexists. split; [reflexivity |]. split; [| reflexivity].
    destruct Hc as (H1 & H2 & H3). split; [exact H1 |]. split; [exact H2 |].
    unfold observer_silent. simpl. rewrite Hcb. exact Logic.I.
Qed.





(** ** Cancellation of a streamed copy *)

Lemma already_present_eq local_path info w :
  exists w',
    already_present local_path info w = (Ret (size_matches (local_fs w) local_path info), w') /\
    local_fs w' = local_fs w /\ log w' = log w /\
    should_stop w' = should_stop w /\ sigints w' = sigints w /\
    progress_callback w' = progress_callback w.
Proof.
  unfold size_matches. destruct (local_fs w !! local_path) as [content |] eqn:Hfile.
  - destruct info as [fi |].
    + rewrite (already_present_run local_path fi w content Hfile).
      eexists. split; [reflexivity |]. repeat split.
    + unfold already_present.
      rewrite (bind_run _ _ _ _ _ (local_exists_run local_path w)).
      rewrite bool_decide_eq_true_2 by (rewrite Hfile; eexists; reflexivity).
      eexists. split; [reflexivity |]. repeat split.
  - rewrite (already_present_absent local_path info w Hfile).
    eexists. split; [reflexivity |]. repeat split.
Qed.





Lemma is_stopped_set w :
  should_stop w = true -> is_stopped w = (Ret true, w).
Proof. intros H. unfold is_stopped. rewrite H. reflexivity. Qed.







(** ** Fallback between the strategies *)

Lemma try_strategies_in_order dev remote_path local_path info w :
  try_strategies dev remote_path local_path info w =
  (Ret (fst (strategies_in_order dev remote_path local_path info w)),
   snd (strategies_in_order dev remote_path local_path info w)).
Proof.
  unfold try_strategies, strategies_in_order, try_except, bind.
  destruct (_download_with_stream dev remote_path local_path info w) as [[s | e1] w1];
    [reflexivity |].
  destruct (_download_with_bulk_read dev remote_path local_path info w1) as [[s | e2] w2];
    [reflexivity |].
  destruct (_download_with_pull dev remote_path local_path info w2) as [[s | e3] w3];
    reflexivity.
Qed.

Lemma returns_verify_download local_path info success :
  returns (verify_download local_path info success).
Proof.
  intros w. unfold verify_download.
  assert (Hproceed : exists b w1,
    (if success then (stopped <- is_stopped ;; ret (negb stopped)) else ret false) w
    = (Ret b, w1)).
  { destruct success; [| eexists _, _; reflexivity].
    destruct (returns_is_stopped w) as [b Hb].
    destruct (is_stopped w) as [r w1] eqn:Hrun. simpl in Hb. subst r.
    rewrite (bind_run _ _ _ _ _ Hrun). eexists _, _. reflexivity. }
  destruct Hproceed as (b & w1 & Hrun1). rewrite (bind_run _ _ _ _ _ Hrun1).
  destruct b; [| eexists; reflexivity].
  rewrite (bind_run _ _ _ _ _ (local_exists_run local_path w1)).
  destruct (local_fs w1 !! local_path) as [content |] eqn:Hfile.
  - rewrite bool_decide_eq_true_2 by (eexists; reflexivity).
    rewrite (bind_run _ _ _ _ _
               (local_getsize_run local_path (add_event (EvLocalExists local_path) w1)
                  content Hfile)).
    apply returns_bind.
    { intros w2. destruct (_ && _); eexists; reflexivity. }
    intros _. apply returns_bind.
    { intros w2. destruct info as [fi |]; [| eexists; reflexivity].
      destruct (negb _); eexists; reflexivity. }
    intros _. apply returns_bind; [apply returns_logger | intros; apply returns_ret].
  - rewrite bool_decide_eq_false_2 by (intros [? ?]; discriminate).
    eexists. reflexivity.
Qed.

Lemma download_file_safe_strategies dev remote_path local_path info w w1 :
  is_stopped w = (Ret false, w1) ->
  size_matches (local_fs w) local_path info = false ->
  download_file_safe dev remote_path local_path info w =
  match strategies_in_order dev remote_path local_path info
          (snd (already_present local_path info
                  (add_event (EvMkdir (Str.dirname local_path)) w1))) with
  | (Some success, w3) => verify_download local_path info success w3
  | (None, w3) => (Ret false, w3)
  end.
Proof.
  intros Hstop Hskip.
  rewrite (download_file_safe_entered _ _ _ _ w w1 Hstop).
  destruct (is_stopped_false w w1 Hstop) as (Hfs & _).
  destruct (already_present_eq local_path info
              (add_event (EvMkdir (Str.dirname local_path)) w1)) as (w2 & Hrun2 & _).
  change (local_fs (add_event (EvMkdir (Str.dirname local_path)) w1))
    with (local_fs w1) in Hrun2.
  rewrite Hfs, Hskip in Hrun2. rewrite Hrun2. simpl snd.
  unfold try_except at 1. rewrite (bind_run _ _ _ _ _ Hrun2). cbn beta iota.
  rewrite (bind_run _ _ _ _ _ (try_strategies_in_order dev remote_path local_path info w2)).
  destruct (strategies_in_order dev remote_path local_path info w2) as [[success |] w3];
    simpl; [| reflexivity].
  destruct (returns_verify_download local_path info success w3) as [b Hb].
  destruct (verify_download local_path info success w3) as [r w4].
  simpl in Hb. subst r. reflexivity.
Qed.

Lemma footprint_not_logged local_path e1 e2 e3 :
  footprint local_path
    (fun w => ~ In (ERROR, LogAllMethodsFailed e1 e2 e3) (log w)).
Proof.
  split.
  - intros w H. unfold is_stopped. destruct (should_stop w); [exact H |].
    destruct (sigints w) as [| [| n] rest]; [exact H | | exact H].
    simpl. intros [Heq | Hin]; [discriminate Heq | exact (H Hin)].
  - intros m w H. exact H.
  - intros e w _ H. exact H.
  - intros l m w Hm H. simpl. intros [Heq | Hin]; [| exact (H Hin)].
    inversion Heq; subst. discriminate Hm.
  - intros content w H. exact H.
  - intros w H. exact H.
Qed.

(** C3: once a transfer is past the entry poll and the pre-check, the nested
    [try] blocks of the code are the fixed-order fallback of the
    specification ([strategies_in_order]: streamed copy, then bulk read only
    if that raised, then copy-out only if that raised too), the transfer
    continues with the result of the first strategy that returned, and it
    returns [False] with the error line naming the three exceptions exactly
    when all three strategies raised them. *)
Theorem strategies_fall_back_in_order dev remote_path local_path info w w1 :
  is_stopped w = (Ret false, w1) ->
  size_matches (local_fs w) local_path info = false ->
  let w2 := snd (already_present local_path info
                   (add_event (EvMkdir (Str.dirname local_path)) w1)) in
  try_strategies dev remote_path local_path info w2 =
    (Ret (fst (strategies_in_order dev remote_path local_path info w2)),
     snd (strategies_in_order dev remote_path local_path info w2)) /\
  download_file_safe dev remote_path local_path info w =
    match strategies_in_order dev remote_path local_path info w2 with
    | (Some success, w3) => verify_download local_path info success w3
    | (None, w3) => (Ret false, w3)
    end /\
  forall e1 e2 e3,
    ~ In (ERROR, LogAllMethodsFailed e1 e2 e3) (log w) ->
    (fst (download_file_safe dev remote_path local_path info w) = Ret false /\
     In (ERROR, LogAllMethodsFailed e1 e2 e3)
        (log (snd (download_file_safe dev remote_path local_path info w)))
     <->
     exists w3 w4 w5,
       _download_with_stream dev remote_path local_path info w2 = (Raise e1, w3) /\
       _download_with_bulk_read dev remote_path local_path info w3 = (Raise e2, w4) /\
       _download_with_pull dev remote_path local_path info w4 = (Raise e3, w5)).
Proof.
  intros Hstop Hskip w2.
  split; [apply try_strategies_in_order |].
  pose proof (download_file_safe_strategies dev remote_path local_path info w w1
                Hstop Hskip) as Hdl.
  fold w2 in Hdl. split; [exact Hdl |].
  intros e1 e2 e3 Hfresh. rewrite Hdl. clear Hdl.
  set (x := (ERROR, LogAllMethodsFailed e1 e2 e3)) in *.
  pose proof (footprint_not_logged local_path e1 e2 e3) as HI. fold x in HI.
  set (I := fun w : World => ~ In x (log w)) in *.
  assert (HI2 : I w2).
  { destruct (is_stopped_false w w1 Hstop) as (_ & _ & Hlog & _).
    destruct (already_present_eq local_path info
                (add_event (EvMkdir (Str.dirname local_path)) w1))
      as (w2' & Hrun2 & _ & Hlog2 & _).
    subst w2. rewrite Hrun2. simpl snd. unfold I. rewrite Hlog2. simpl.
    rewrite Hlog. exact Hfresh. }
  unfold strategies_in_order.
  pose proof (fp_download_with_stream dev local_path I HI remote_path info w2 HI2) as H3.
  destruct (_download_with_stream dev remote_path local_path info w2) as [[s | e1'] w3].
  { simpl in H3.
    pose proof (fp_verify_download local_path I HI info s w3 H3) as H4.
    split.
    - intros [_ Hin]. contradiction.
    - intros (? & ? & ? & Heq & _). discriminate Heq. }
  simpl in H3.
  pose proof (fp_download_with_bulk_read dev local_path I HI remote_path info w3 H3) as H4.
  destruct (_download_with_bulk_read dev remote_path local_path info w3)
    as [[s | e2'] w4] eqn:E2.
  { simpl in H4.
    pose proof (fp_verify_download local_path I HI info s w4 H4) as H5.
    split.
    - intros [_ Hin]. contradiction.
    - intros (w3' & ? & ? & Heq1 & Heq2 & _).
      inversion Heq1; subst. rewrite E2 in Heq2. discriminate Heq2. }
  simpl in H4.
  pose proof (fp_download_with_pull dev local_path I HI remote_path info w4 H4) as H5.
  destruct (_download_with_pull dev remote_path local_path info w4)
    as [[s | e3'] w5] eqn:E3.
  { simpl in H5.
    pose proof (fp_verify_download local_path I HI info s w5 H5) as H6.
    split.
    - intros [_ Hin]. contradiction.
    - intros (w3' & w4' & ? & Heq1 & Heq2 & Heq3).
      inversion Heq1; subst. rewrite E2 in Heq2. inversion Heq2; subst.
      rewrite E3 in Heq3. discriminate Heq3. }
  simpl in H5. split.
  - intros [_ [Heq | Hin]]; [| contradiction].
    inversion Heq; subst. exists w3, w4, w5.
    split; [reflexivity |]. split; [exact E2 | exact E3].
  - intros (w3' & w4' & w5' & Heq1 & Heq2 & Heq3).
    inversion Heq1; subst. rewrite E2 in Heq2. inversion Heq2; subst.
    rewrite E3 in Heq3. inversion Heq3; subst.
    split; [reflexivity |]. left. reflexivity.
Qed.

Lemma strategies_fall_back_in_order_witness :
  is_stopped (fresh ∅) = (Ret false, fresh ∅) /\
  size_matches (local_fs (fresh ∅)) (local_path_of "out" photo2) (Some photo2) = false /\
  fst (download_file_safe flaky_device (path photo2) (local_path_of "out" photo2)
         (Some photo2) (fresh ∅)) = Ret false /\
  In (ERROR, LogAllMethodsFailed (AfcException "read failed") (AfcException "read failed")
               (AfcException "read failed"))
     (log (snd (download_file_safe flaky_device (path photo2)
                  (local_path_of "out" photo2) (Some photo2) (fresh ∅)))).
Proof.
  assert (Hstop : is_stopped (fresh ∅) = (Ret false, fresh ∅)) by reflexivity.
  assert (Hskip : size_matches (local_fs (fresh ∅)) (local_path_of "out" photo2)
                    (Some photo2) = false) by reflexivity.
  split; [exact Hstop |]. split; [exact Hskip |].
  destruct (strategies_fall_back_in_order flaky_device (path photo2)
              (local_path_of "out" photo2) (Some photo2) (fresh ∅) (fresh ∅)
              Hstop Hskip) as (_ & _ & Hiff).
  apply (Hiff (AfcException "read failed") (AfcException "read failed") (AfcException "read failed")).
  - simpl. intros [].
  - eexists _, _, _. split; [vm_compute; reflexivity |].
    split; vm_compute; reflexivity.
Defined.

(** * Further properties *)

(** ** Strings *)

Lemma chars_of_chars l : Str.chars (Str.of_chars l) = l.
Proof. apply list_ascii_of_string_of_list_ascii. Qed.

Lemma of_chars_chars s : Str.of_chars (Str.chars s) = s.
Proof. apply string_of_list_ascii_of_string. Qed.

Lemma chars_app a b : Str.chars (a ++ b) = (Str.chars a ++ Str.chars b)%list.
Proof. induction a as [| c a IH]; simpl; [reflexivity |]. f_equal. exact IH. Qed.

Lemma prefix_of_app p r : Str.prefix_of p (p ++ r)%list = true.
Proof.
  induction p as [| c p IH]; simpl; [reflexivity |].
  rewrite Ascii.eqb_refl. exact IH.
Qed.

Lemma prefix_of_inv p s :
  Str.prefix_of p s = true -> exists r, s = (p ++ r)%list.
Proof.
  revert s. induction p as [| c p IH]; intros s H; simpl in H.
  - exists s. reflexivity.
  - destruct s as [| d s]; [discriminate H |].
    apply andb_prop in H. destruct H as [Hc Hp].
    apply Ascii.eqb_eq in Hc. subst d.
    destruct (IH s Hp) as [r ->]. exists r. reflexivity.
Qed.

Lemma endswith_app x s e :
  Str.endswith s e = true -> Str.endswith (x ++ s) e = true.
Proof.
  unfold Str.endswith. intros H. apply prefix_of_inv in H. destruct H as [r Hr].
  rewrite chars_app, rev_app_distr, Hr, <- app_assoc. apply prefix_of_app.
Qed.

Lemma chars_lower s : Str.chars (Str.lower s) = map Str.lower_ascii (Str.chars s).
Proof. unfold Str.lower. apply chars_of_chars. Qed.

Lemma lower_app a b : Str.lower (a ++ b) = Str.lower a ++ Str.lower b.
Proof.
  rewrite <- (of_chars_chars (Str.lower a ++ Str.lower b)).
  rewrite chars_app, !chars_lower. unfold Str.lower.
  rewrite chars_app, map_app. reflexivity.
Qed.

Lemma endswith_lower s e :
  Str.endswith s e = true -> Str.endswith (Str.lower s) (Str.lower e) = true.
Proof.
  unfold Str.endswith. intros H. apply prefix_of_inv in H. destruct H as [r Hr].
  rewrite !chars_lower, <- !map_rev, Hr, map_app. apply prefix_of_app.
Qed.

Lemma take_drop_while f l : (Str.take_while f l ++ Str.drop_while f l)%list = l.
Proof.
  induction l as [| c l IH]; simpl; [reflexivity |].
  destruct (f c); simpl; [f_equal; exact IH | reflexivity].
Qed.

Lemma drop_while_head f l :
  existsb (fun c => negb (f c)) l = true ->
  exists c rest, Str.drop_while f l = c :: rest /\ f c = false.
Proof.
  induction l as [| c l IH]; simpl; [discriminate |].
  destruct (f c) eqn:Hc; simpl.
  - exact IH.
  - intros _. exists c, l. split; [reflexivity | exact Hc].
Qed.

(** The extension [os.path.splitext] returns is an end of the path. *)
Lemma endswith_splitext p : Str.endswith p (Str.splitext_ext p) = true.
Proof.
  unfold Str.splitext_ext, Str.endswith.
  set (name := Str.after_last Str.slash (Str.chars p)).
  destruct (existsb Str.is_dot name) eqn:Hdot; [| reflexivity].
  destruct (existsb _ (removelast _)); [| reflexivity].
  rewrite chars_of_chars.
  assert (Hsplit : rev (Str.chars p) =
            (rev name ++ Str.drop_while (fun x => negb (Ascii.eqb x Str.slash))
                           (rev (Str.chars p)))%list).
  { subst name. unfold Str.after_last. rewrite rev_involutive.
    symmetry. apply take_drop_while. }
  rewrite Hsplit. clear Hsplit.
  assert (Hname : exists rest,
            rev name = (rev (Str.dot :: Str.after_last Str.dot name) ++ rest)%list).
  { unfold Str.after_last at 1. cbn [rev]. rewrite rev_involutive.
    destruct (drop_while_head (fun x => negb (Ascii.eqb x Str.dot)) (rev name))
      as (c & rest & Hdrop & Hc).
    { apply existsb_exists in Hdot. destruct Hdot as (c & Hin & Hc).
      apply existsb_exists. exists c. split; [exact (proj1 (in_rev name c) Hin) |].
      unfold Str.is_dot in Hc. rewrite Hc. reflexivity. }
    apply negb_false_iff, Ascii.eqb_eq in Hc. subst c.
    exists rest. rewrite <- app_assoc. simpl. rewrite <- Hdrop.
    symmetry. apply take_drop_while. }
  destruct Hname as [rest ->]. rewrite <- app_assoc. apply prefix_of_app.
Qed.

(** ** Classification tables *)

Lemma typed_extension_is_media ext :
  mem_str ext (image_exts ++ video_exts)%list = true ->
  In ext media_extensions.
Proof.
  unfold mem_str. intros H. apply existsb_exists in H.
  destruct H as (x & Hin & Heq). apply String.eqb_eq in Heq. subst x.
  simpl in Hin.
  repeat (destruct Hin as [<- | Hin]; [simpl; tauto |]). contradiction.
Qed.

(** Every path that [get_file_type] calls an image or a video passes
    [is_media_file]: the typed extensions are among the media extensions and
    the extension is an end of the path. *)
Theorem typed_file_is_media file_path :
  get_file_type file_path <> unknown -> is_media_file file_path = true.
Proof.
  unfold get_file_type, is_media_file. intros Htyped.
  set (ext := Str.lower (Str.splitext_ext file_path)) in *.
  assert (Hmem : mem_str ext (image_exts ++ video_exts)%list = true).
  { unfold mem_str in *. rewrite existsb_app.
    destruct (existsb (String.eqb ext) image_exts); [reflexivity |].
    destruct (existsb (String.eqb ext) video_exts); [reflexivity |].
    contradiction Htyped. reflexivity. }
  apply existsb_exists. exists ext. split.
  - apply typed_extension_is_media, Hmem.
  - apply endswith_lower, endswith_splitext.
Qed.

Lemma typed_file_is_media_witness :
  get_file_type "/DCIM/100APPLE/IMG_0002.MOV" <> unknown /\
  is_media_file "/DCIM/100APPLE/IMG_0002.MOV" = true.
Proof.
  assert (H : get_file_type "/DCIM/100APPLE/IMG_0002.MOV" <> unknown).
  { vm_compute. discriminate. }
  split; [exact H | exact (typed_file_is_media _ H)].
Defined.

Lemma lower_ascii_slash c :
  Ascii.eqb (Str.lower_ascii c) Str.slash = Ascii.eqb c Str.slash.
Proof. destruct c as [[] [] [] [] [] [] [] []]; reflexivity. Qed.

Lemma lower_ascii_dot c :
  Ascii.eqb (Str.lower_ascii c) Str.dot = Ascii.eqb c Str.dot.
Proof. destruct c as [[] [] [] [] [] [] [] []]; reflexivity. Qed.

Lemma take_while_map f g l :
  (forall c, g (f c) = g c) ->
  Str.take_while g (map f l) = map f (Str.take_while g l).
Proof.
  intros Hg. induction l as [| c l IH]; simpl; [reflexivity |].
  rewrite Hg. destruct (g c); simpl; [f_equal; exact IH | reflexivity].
Qed.

Lemma drop_while_map f g l :
  (forall c, g (f c) = g c) ->
  Str.drop_while g (map f l) = map f (Str.drop_while g l).
Proof.
  intros Hg. induction l as [| c l IH]; simpl; [reflexivity |].
  rewrite Hg. destruct (g c); simpl; [exact IH | reflexivity].
Qed.

Lemma after_last_lower sep l :
  (forall c, Ascii.eqb (Str.lower_ascii c) sep = Ascii.eqb c sep) ->
  Str.after_last sep (map Str.lower_ascii l) = map Str.lower_ascii (Str.after_last sep l).
Proof.
  intros Hsep. unfold Str.after_last.
  rewrite <- map_rev, take_while_map, map_rev; [reflexivity |].
  intros c. rewrite Hsep. reflexivity.
Qed.

Lemma upto_last_lower sep l :
  (forall c, Ascii.eqb (Str.lower_ascii c) sep = Ascii.eqb c sep) ->
  Str.upto_last sep (map Str.lower_ascii l) = map Str.lower_ascii (Str.upto_last sep l).
Proof.
  intros Hsep. unfold Str.upto_last.
  rewrite <- map_rev, drop_while_map, map_rev; [reflexivity |].
  intros c. rewrite Hsep. reflexivity.
Qed.

Lemma existsb_map_same {A} (f : A -> A) (g : A -> bool) l :
  (forall c, g (f c) = g c) -> existsb g (map f l) = existsb g l.
Proof.
  intros Hg. induction l as [| c l IH]; simpl; [reflexivity |].
  rewrite Hg, IH. reflexivity.
Qed.

Lemma removelast_map {A B} (f : A -> B) l :
  removelast (map f l) = map f (removelast l).
Proof.
  induction l as [| c l IH]; simpl; [reflexivity |].
  destruct l as [| d l]; simpl in *; [reflexivity |]. f_equal. exact IH.
Qed.

Lemma lower_of_chars l : Str.lower (Str.of_chars l) = Str.of_chars (map Str.lower_ascii l).
Proof. unfold Str.lower. rewrite chars_of_chars. reflexivity. Qed.

(** [splitext] finds the same extension, up to case, in a lower-cased path. *)
Lemma splitext_lower p :
  Str.splitext_ext (Str.lower p) = Str.lower (Str.splitext_ext p).
Proof.
  unfold Str.splitext_ext. rewrite chars_lower.
  rewrite (after_last_lower Str.slash _ lower_ascii_slash).
  set (name := Str.after_last Str.slash (Str.chars p)).
  rewrite (existsb_map_same Str.lower_ascii Str.is_dot name lower_ascii_dot).
  destruct (existsb Str.is_dot name); [| reflexivity].
  rewrite (upto_last_lower Str.dot _ lower_ascii_dot), removelast_map.
  rewrite (existsb_map_same Str.lower_ascii (fun c => negb (Str.is_dot c))).
  2: { intros c. unfold Str.is_dot. rewrite lower_ascii_dot. reflexivity. }
  destruct (existsb _ (removelast _)); [| reflexivity].
  rewrite (after_last_lower Str.dot _ lower_ascii_dot), lower_of_chars.
  reflexivity.
Qed.

Lemma lower_ascii_idem c : Str.lower_ascii (Str.lower_ascii c) = Str.lower_ascii c.
Proof. destruct c as [[] [] [] [] [] [] [] []]; reflexivity. Qed.

Lemma lower_idem s : Str.lower (Str.lower s) = Str.lower s.
Proof.
  unfold Str.lower at 1. rewrite chars_lower, map_map.
  unfold Str.lower. f_equal. apply map_ext. intros c. apply lower_ascii_idem.
Qed.

(** Classification ignores the case of ASCII letters: two paths with the
    same lower-case form get the same type and the same media verdict. *)
Theorem classification_ignores_case p q :
  Str.lower p = Str.lower q ->
  get_file_type p = get_file_type q /\ is_media_file p = is_media_file q.
Proof.
  intros Heq. split.
  - unfold get_file_type. rewrite <- !splitext_lower, Heq. reflexivity.
  - unfold is_media_file. rewrite Heq. reflexivity.
Qed.

Lemma classification_ignores_case_witness :
  Str.lower "/DCIM/IMG_0001.JPG" = Str.lower "/dcim/img_0001.jpg" /\
  get_file_type "/DCIM/IMG_0001.JPG" = get_file_type "/dcim/img_0001.jpg" /\
  is_media_file "/DCIM/IMG_0001.JPG" = is_media_file "/dcim/img_0001.jpg".
Proof.
  assert (H : Str.lower "/DCIM/IMG_0001.JPG" = Str.lower "/dcim/img_0001.jpg")
    by reflexivity.
  split; [exact H | exact (classification_ignores_case _ _ H)].
Defined.

(** ** The local mirror *)

Lemma lstrip_slash_relative p : Str.startswith (Str.lstrip_slash p) "/" = false.
Proof.
  unfold Str.startswith, Str.lstrip_slash. rewrite chars_of_chars.
  induction (Str.chars p) as [| c l IH]; [reflexivity |].
  cbn [Str.drop_while]. destruct (Str.is_slash c) eqn:Hc; [exact IH |].
  change (Str.chars "/") with [Str.slash]. cbn [Str.prefix_of].
  unfold Str.is_slash in Hc. rewrite Ascii.eqb_sym, Hc. reflexivity.
Qed.

Lemma startswith_app a b : Str.startswith (a ++ b) a = true.
Proof. unfold Str.startswith. rewrite chars_app. apply prefix_of_app. Qed.

(** With the path functions of a POSIX system ([os.path] is [posixpath]),
    the local path of a record always begins with the output directory: the
    leading slashes of the remote path are stripped before [os.path.join],
    which therefore never discards its first argument. (Under [ntpath] a
    drive letter in the remote path would still discard it; that platform
    is not modelled.) *)
Theorem local_path_under_output_directory output_directory photo_info :
  Str.startswith (local_path_of output_directory photo_info) output_directory = true.
Proof.
  unfold local_path_of, Str.join. rewrite lstrip_slash_relative.
  destruct (_ || _)%bool; apply startswith_app.
Qed.

(** ** What an operation leaves alone *)

Lemma preserves_ret {A B} (f : World -> B) (a : A) : preserves f (ret a).
Proof. intros w. reflexivity. Qed.

Lemma preserves_raise {A B} (f : World -> B) e : preserves f (@raise A e).
Proof. intros w. reflexivity. Qed.

Lemma preserves_gets {A B} (f : World -> B) (g : World -> A) : preserves f (gets g).
Proof. intros w. reflexivity. Qed.

Lemma preserves_modify {B} (f : World -> B) g :
  (forall w, f (g w) = f w) -> preserves f (modify g).
Proof. intros H w. apply H. Qed.

Lemma preserves_bind {A C B} (f : World -> B) (m : M A) (k : A -> M C) :
  preserves f m -> (forall a, preserves f (k a)) -> preserves f (bind m k).
Proof.
  intros Hm Hk w. unfold bind. specialize (Hm w).
  destruct (m w) as [[a | e] w1]; simpl in *.
  - rewrite (Hk a w1). exact Hm.
  - exact Hm.
Qed.

Lemma preserves_try {A B} (f : World -> B) (m : M A) (h : exn -> M A) :
  preserves f m -> (forall e, preserves f (h e)) -> preserves f (try_except m h).
Proof.
  intros Hm Hh w. unfold try_except. specialize (Hm w).
  destruct (m w) as [[a | e] w1]; simpl in *.
  - exact Hm.
  - rewrite (Hh e w1). exact Hm.
Qed.

Lemma preserves_for_each_in {A S B} (f : World -> B) (body : A -> S -> M (ctl S)) l :
  (forall x, In x l -> forall s, preserves f (body x s)) ->
  forall s, preserves f (for_each body l s).
Proof.
  induction l as [| x l IH]; intros Hbody s; simpl.
  - apply preserves_ret.
  - apply preserves_bind; [apply Hbody; left; reflexivity |].
    intros [s' | s']; [| apply preserves_ret].
    apply IH. intros y Hy. apply Hbody. right. exact Hy.
Qed.

Lemma preserves_for_each {A S B} (f : World -> B) (body : A -> S -> M (ctl S)) l s :
  (forall x s, preserves f (body x s)) -> preserves f (for_each body l s).
Proof. intros Hbody. apply preserves_for_each_in. intros x _. apply Hbody. Qed.

Lemma preserves_remote_call {A B} (f : World -> B) ev (oracle : list event -> outcome A) :
  (forall w, f (add_event ev w) = f w) -> preserves f (remote_call ev oracle).
Proof. intros H w. apply H. Qed.

Lemma preserves_is_stopped {B} (f : World -> B) :
  (forall b s w, f (set_stop b s w) = f w) ->
  (forall l m w, f (add_log l m w) = f w) ->
  preserves f is_stopped.
Proof.
  intros Hstop Hlog w. unfold is_stopped. destruct (should_stop w); [reflexivity |].
  destruct (sigints w) as [| [| n] rest]; simpl.
  - reflexivity.
  - rewrite Hlog, Hstop, Hstop. reflexivity.
  - apply Hstop.
Qed.

Lemma preserves_update_progress {B} (f : World -> B) current total m :
  (forall m w, f (set_status_message m w) = f w) ->
  (forall e w, f (add_event e w) = f w) ->
  preserves f (update_progress current total m).
Proof.
  intros Hstatus Hevent w. rewrite update_progress_eq.
  destruct (progress_callback w); simpl.
  - rewrite Hevent. apply Hstatus.
  - apply Hstatus.
Qed.

(** Straight-line code over primitives that leave [f] alone. *)
Ltac preserves_auto :=
  repeat first
    [ apply preserves_ret | apply preserves_raise | apply preserves_gets
    | apply preserves_is_stopped; intros; reflexivity
    | apply preserves_update_progress; intros; reflexivity
    | apply preserves_modify; intros; reflexivity
    | apply preserves_remote_call; intros; reflexivity
    | apply preserves_bind; [| intro]
    | apply preserves_try; [| intro]
    | apply preserves_for_each; intros
    | match goal with
      | |- preserves _ (if ?b then _ else _) => destruct b
      | |- preserves _ (match ?x with _ => _ end) => destruct x
      end ].

Section ReadOnly.

Variable dev : Device.

Lemma safe_listdir_no_local_op p : preserves (fun w => local_operations (trace w)) (safe_listdir dev p).
Proof. unfold safe_listdir. preserves_auto. Qed.

Lemma scan_item_no_local_op directory_path item acc :
  preserves (fun w => local_operations (trace w)) (scan_item dev directory_path item acc).
Proof. unfold scan_item. destruct acc. preserves_auto. Qed.

Lemma scan_depth_no_local_op depth :
  forall directory_path, preserves (fun w => local_operations (trace w)) (scan_depth dev depth directory_path).
Proof.
  induction depth as [| depth IH]; intros directory_path; [apply preserves_ret |].
  cbn [scan_depth].
  apply preserves_bind; [preserves_auto |]. intros [|]; [apply preserves_ret |].
  apply preserves_bind; [apply safe_listdir_no_local_op |].
  intros [items |]; [| apply preserves_ret].
  apply preserves_bind.
  { apply preserves_for_each. intros. apply scan_item_no_local_op. }
  intros [files [| subdir subdirs]]; [apply preserves_ret |].
  apply preserves_bind; [preserves_auto |]. intros [|]; [apply preserves_ret |].
  apply preserves_for_each. intros x photos.
  apply preserves_bind; [preserves_auto |]. intros [|]; [apply preserves_ret |].
  apply preserves_try; [| intros; apply preserves_ret].
  apply preserves_bind; [apply IH | intros; apply preserves_ret].
Qed.

Lemma get_file_info_safe_no_local_op p : preserves (fun w => local_operations (trace w)) (get_file_info_safe dev p).
Proof. unfold get_file_info_safe. preserves_auto. Qed.

Lemma get_photo_directories_safe_no_local_op :
  preserves (fun w => local_operations (trace w)) (get_photo_directories_safe dev).
Proof.
  unfold get_photo_directories_safe.
  apply preserves_bind; [preserves_auto |]. intros [|]; [apply preserves_ret |].
  apply preserves_bind; [preserves_auto |]. intros _.
  apply preserves_bind; [| intros; preserves_auto].
  apply preserves_for_each. intros [i p] acc.
  apply preserves_bind; [preserves_auto |]. intros [|]; [preserves_auto |].
  apply preserves_bind; [preserves_auto |]. intros _.
  apply preserves_bind; [apply safe_listdir_no_local_op |]. intros items.
  unfold logger. preserves_auto.
Qed.

Lemma connect_device_no_local_op : preserves (fun w => local_operations (trace w)) (connect_device dev).
Proof. unfold connect_device, logger. preserves_auto. Qed.

Lemma setup_afc_service_no_local_op : preserves (fun w => local_operations (trace w)) (setup_afc_service dev).
Proof.
  unfold setup_afc_service.
  apply preserves_bind; [preserves_auto |]. intros [|]; [apply preserves_ret |].
  apply preserves_try; [| intros; unfold logger; preserves_auto].
  apply preserves_bind; [preserves_auto |]. intros _.
  apply preserves_bind; [preserves_auto |]. intros _.
  apply preserves_bind.
  { unfold _detect_afc_api_version, logger. preserves_auto. }
  intros _. apply preserves_try; [| intros; unfold logger; preserves_auto].
  apply preserves_bind; [apply safe_listdir_no_local_op |].
  intros items. unfold logger. preserves_auto.
Qed.

Lemma analyze_photo_no_local_op n jp all_photos :
  preserves (fun w => local_operations (trace w)) (analyze_photo dev n jp all_photos).
Proof.
  unfold analyze_photo. destruct jp as [j photo].
  apply preserves_bind; [preserves_auto |]. intros [|]; [apply preserves_ret |].
  apply preserves_bind; [apply get_file_info_safe_no_local_op |]. intros photo_info.
  preserves_auto.
Qed.

Lemma analyze_directory_no_local_op n id all_photos :
  preserves (fun w => local_operations (trace w)) (analyze_directory dev n id all_photos).
Proof.
  unfold analyze_directory. destruct id as [i directory].
  apply preserves_bind; [preserves_auto |].
  intros [|]; [unfold logger; preserves_auto |].
  apply preserves_bind; [unfold logger; preserves_auto |]. intros _.
  apply preserves_bind; [preserves_auto |]. intros _.
  apply preserves_bind; [apply scan_depth_no_local_op |]. intros photos.
  apply preserves_bind; [preserves_auto |]. intros [|]; [apply preserves_ret |].
  destruct photos as [| photo photos]; [apply preserves_ret |].
  apply preserves_bind; [unfold logger; preserves_auto |]. intros _.
  apply preserves_bind; [| intros; apply preserves_ret].
  apply preserves_for_each. intros. apply analyze_photo_no_local_op.
Qed.

Lemma analyze_photos_safe_no_local_op : preserves (fun w => local_operations (trace w)) (analyze_photos_safe dev).
Proof.
  unfold analyze_photos_safe.
  apply preserves_bind; [unfold reset; preserves_auto |]. intros _.
  apply preserves_bind; [apply connect_device_no_local_op |].
  intros connected. destruct (negb connected); [apply preserves_ret |].
  apply preserves_bind; [preserves_auto |]. intros [|]; [apply preserves_ret |].
  apply preserves_bind; [apply setup_afc_service_no_local_op |].
  intros ready. destruct (negb ready); [apply preserves_ret |].
  apply preserves_bind; [preserves_auto |]. intros [|]; [apply preserves_ret |].
  apply preserves_bind; [unfold logger; preserves_auto |]. intros _.
  apply preserves_bind; [preserves_auto |]. intros _.
  apply preserves_bind; [apply get_photo_directories_safe_no_local_op |].
  intros directories.
  apply preserves_bind; [preserves_auto |].
  intros [|]; [unfold logger; preserves_auto |].
  destruct directories as [| directory directories]; [unfold logger; preserves_auto |].
  apply preserves_bind; [preserves_auto |]. intros _.
  apply preserves_bind.
  { apply preserves_for_each. intros. apply analyze_directory_no_local_op. }
  intros all_photos.
  apply preserves_bind; [preserves_auto |].
  intros [|]; unfold logger; preserves_auto.
Qed.

End ReadOnly.

(** Discovery, scanning and analysis make no call on the local file system
    (no mkdir, existence or size test, open, write, remove or utime),
    whatever the device answers and however they end; what they leave
    locally is the log lines handed to the logging handlers. *)
Theorem analysis_makes_no_local_operation dev w :
  local_operations (trace (snd (analyze_photos_safe dev w)))
  = local_operations (trace w) /\
  local_operations (trace (snd (get_photo_directories_safe dev w)))
  = local_operations (trace w) /\
  (forall directory_path max_depth,
     local_operations (trace (snd (scan_photos_safe dev directory_path max_depth w)))
     = local_operations (trace w)) /\
  (forall p, local_operations (trace (snd (safe_listdir dev p w)))
             = local_operations (trace w)) /\
  (forall p, local_operations (trace (snd (get_file_info_safe dev p w)))
             = local_operations (trace w)).
Proof.
  split; [apply analyze_photos_safe_no_local_op |].
  split; [apply get_photo_directories_safe_no_local_op |].
  split; [intros; apply scan_depth_no_local_op |].
  split; [intros; apply safe_listdir_no_local_op |].
  intros; apply get_file_info_safe_no_local_op.
Qed.

(** ** Cancelled operations *)

(** Once the token is set, every entry point of the engine returns its
    empty result at once and leaves the whole state as it is: nothing is
    asked of the device, nothing is written, nothing is logged. *)
Theorem cancelled_operations_return_at_once dev w :
  should_stop w = true ->
  (forall p, safe_listdir dev p w = (Ret None, w)) /\
  (forall p, get_file_info_safe dev p w = (Ret None, w)) /\
  (forall p max_depth, scan_photos_safe dev p max_depth w = (Ret [], w)) /\
  get_photo_directories_safe dev w = (Ret [], w) /\
  (forall remote_path local_path info,
     download_file_safe dev remote_path local_path info w = (Ret false, w)) /\
  connect_device dev w = (Ret false, w) /\
  setup_afc_service dev w = (Ret false, w).
Proof.
  intros Hstop. pose proof (is_stopped_set w Hstop) as Hrun.
  split; [intros p; unfold safe_listdir; rewrite (bind_run _ _ _ _ _ Hrun); reflexivity |].
  split; [intros p; unfold get_file_info_safe;
          rewrite (bind_run _ _ _ _ _ Hrun); reflexivity |].
  split.
  { intros p max_depth. unfold scan_photos_safe.
    destruct (Z.to_nat max_depth); [reflexivity |].
    cbn [scan_depth]. rewrite (bind_run _ _ _ _ _ Hrun). reflexivity. }
  split; [unfold get_photo_directories_safe;
          rewrite (bind_run _ _ _ _ _ Hrun); reflexivity |].
  split; [intros; apply download_file_safe_cancelled, Hrun |].
  split; [unfold connect_device; rewrite (bind_run _ _ _ _ _ Hrun); reflexivity |].
  unfold setup_afc_service. rewrite (bind_run _ _ _ _ _ Hrun). reflexivity.
Qed.

Lemma cancelled_operations_return_at_once_witness :
  should_stop stopped_world = true /\
  scan_photos_safe apple_device "/DCIM" 3 stopped_world = (Ret [], stopped_world) /\
  download_file_safe apple_device (path photo1) (local_path_of "out" photo1)
    (Some photo1) stopped_world = (Ret false, stopped_world).
Proof.
  assert (H : should_stop stopped_world = true) by reflexivity.
  destruct (cancelled_operations_return_at_once apple_device stopped_world H)
    as (_ & _ & Hscan & _ & Hdl & _).
  split; [exact H |]. split; [apply Hscan | apply Hdl].
Defined.

(** ** Directory listing: failure, priority and fallback *)

Lemma filtered_plain_names names :
  filtered_items (map EntryStr names)
  = List.filter (fun s => negb (pseudo_entry s)) names.
Proof.
  unfold filtered_items, pseudo_entry.
  induction names as [| s names IH]; [reflexivity |].
  cbn [map flat_map List.filter]. rewrite IH. unfold filter_item.
  destruct (mem_str s ["."; ".."; ""]); reflexivity.
Qed.

(** What [safe_listdir] makes of a path that cannot be listed, when no
    cancellation is observed: a path whose existence test or directory test
    answers no is reported as [None]; a path whose existence test or
    directory test raises is not, the call raises [NameError] (the
    [except AfcError] clause names an unbound class). *)
Theorem safe_listdir_absent_or_failing dev p w :
  fst (is_stopped w) = Ret false ->
  ((forall h, afc_exists dev h p = Ret false) \/
   (forall h, afc_exists dev h p = Ret true) /\ (forall h, afc_isdir dev h p = Ret false) ->
   fst (safe_listdir dev p w) = Ret None) /\
  ((forall h, exists e, afc_exists dev h p = Raise e) \/
   (forall h, afc_exists dev h p = Ret true) /\
   (forall h, exists e, afc_isdir dev h p = Raise e) ->
   fst (safe_listdir dev p w) = Raise (NameError "AfcError")).
Proof.
  intros Hstop.
  destruct (is_stopped w) as [r1 w1] eqn:Hrun. simpl in Hstop. subst r1.
  unfold safe_listdir. rewrite (bind_run _ _ _ _ _ Hrun).
  split; unfold try_except, bind at 1, remote_call at 1; cbn beta.
  - intros [Hex | [Hex Hdir]]; rewrite Hex; [reflexivity |].
    cbn [negb]. unfold bind at 1, remote_call at 1. cbn beta. rewrite Hdir. reflexivity.
  - intros [Hex | [Hex Hdir]].
    + destruct (Hex (trace w1)) as [e ->]. reflexivity.
    + rewrite Hex. cbn [negb]. unfold bind at 1, remote_call at 1. cbn beta.
      destruct (Hdir (trace (add_event (EvExists p) w1))) as [e ->]. reflexivity.
Qed.

Lemma safe_listdir_absent_or_failing_witness :
  fst (is_stopped (fresh ∅)) = Ret false /\
  fst (safe_listdir apple_device "/Photos" (fresh ∅)) = Ret None /\
  fst (safe_listdir dropped_device "/DCIM" (fresh ∅)) = Raise (NameError "AfcError").
Proof.
  split; [reflexivity |]. split.
  - apply (proj1 (safe_listdir_absent_or_failing apple_device "/Photos" (fresh ∅)
                    eq_refl)).
    left. intros h. reflexivity.
  - apply (proj2 (safe_listdir_absent_or_failing dropped_device "/DCIM" (fresh ∅)
                    eq_refl)).
    left. intros h. eexists. reflexivity.
Defined.

(** When the directory exists and [listdir] lists plain names, the result
    is those names without [.], [..] and the empty name, in listing order,
    and the two other enumeration primitives are not called even if the
    service has them. *)
Theorem safe_listdir_prefers_listdir dev p w listdir names :
  fst (is_stopped w) = Ret false ->
  (forall h, afc_exists dev h p = Ret true) ->
  (forall h, afc_isdir dev h p = Ret true) ->
  afc_listdir dev = Some listdir ->
  (forall h, listdir h p = Ret (Some (map EntryStr names))) ->
  exists w',
    safe_listdir dev p w
    = (Ret (Some (List.filter (fun s => negb (pseudo_entry s)) names)), w') /\
    trace w' = EvListdir p :: EvIsdir p :: EvExists p :: trace w.
Proof.
  intros Hstop Hex Hdir Hhas Hlist.
  destruct (is_stopped w) as [r1 w1] eqn:Hrun. simpl in Hstop. subst r1.
  destruct (is_stopped_false w w1 Hrun) as (_ & Htr & _).
  unfold safe_listdir. rewrite (bind_run _ _ _ _ _ Hrun).
  unfold try_except, bind, remote_call. rewrite Hhas.
  rewrite Hex. cbn [negb]. rewrite Hdir. cbn [negb]. rewrite Hlist.
  destruct (afc_ls dev); destruct (afc_list_directory dev);
    (eexists; split; [unfold ret; rewrite filtered_plain_names; reflexivity |];
     simpl; rewrite Htr; reflexivity).
Qed.

Lemma safe_listdir_prefers_listdir_witness :
  exists w',
    safe_listdir apple_device "/DCIM/100APPLE" (fresh ∅)
    = (Ret (Some ["IMG_0001.JPG"; "IMG_0002.MOV"; "notes.txt"]), w').
Proof.
  destruct (safe_listdir_prefers_listdir apple_device "/DCIM/100APPLE" (fresh ∅)
              (fun _ p => Ret (apple_roll p))
              ["IMG_0001.JPG"; "IMG_0002.MOV"; "notes.txt"]
              eq_refl (fun _ => eq_refl) (fun _ => eq_refl) eq_refl (fun _ => eq_refl))
    as (w' & Hrun & _).
  exists w'. exact Hrun.
Defined.

(** When [listdir] gives nothing (missing, raising, or returning [None]) and
    [ls] answers with a list or with a dict holding ['entries'], that
    listing is used, and [list_directory] is not called. *)
Theorem safe_listdir_falls_back_to_ls dev p w ls result items :
  fst (is_stopped w) = Ret false ->
  (forall h, afc_exists dev h p = Ret true) ->
  (forall h, afc_isdir dev h p = Ret true) ->
  listdir_gives_nothing dev p ->
  afc_ls dev = Some ls ->
  (forall h, ls h p = Ret result) ->
  result = LsList items \/ result = LsDict (Some items) ->
  exists w',
    safe_listdir dev p w = (Ret (Some (filtered_items items)), w') /\
    trace w' =
      (EvLs p :: match afc_listdir dev with
                 | Some _ => [EvListdir p]
                 | None => []
                 end
       ++ EvIsdir p :: EvExists p :: trace w)%list.
Proof.
  intros Hstop Hex Hdir Hnothing Hhas Hls Hshape.
  destruct (is_stopped w) as [r1 w1] eqn:Hrun. simpl in Hstop. subst r1.
  destruct (is_stopped_false w w1 Hrun) as (_ & Htr & _).
  unfold safe_listdir. rewrite (bind_run _ _ _ _ _ Hrun).
  unfold try_except, bind, remote_call. unfold listdir_gives_nothing in Hnothing.
  rewrite Hex. cbn [negb]. rewrite Hdir. cbn [negb].
  destruct (afc_listdir dev) as [listdir |].
  - destruct (Hnothing (trace (add_event (EvIsdir p) (add_event (EvExists p) w1))))
      as [Hl | [e Hl]]; rewrite Hl; cbn; rewrite Hhas, Hls; cbn;
      destruct Hshape as [-> | ->]; cbn;
      (eexists; split; [reflexivity |]); cbn; rewrite Htr; reflexivity.
  - cbn. rewrite Hhas, Hls. cbn.
    destruct Hshape as [-> | ->]; cbn;
      (eexists; split; [reflexivity |]); cbn; rewrite Htr; reflexivity.
Qed.

Lemma safe_listdir_falls_back_to_ls_witness :
  listdir_gives_nothing ls_device "/DCIM" /\
  exists w',
    safe_listdir ls_device "/DCIM" (fresh ∅)
    = (Ret (Some ["IMG_0001.JPG"; "notes.txt"]), w') /\
    trace w' = [EvLs "/DCIM"; EvListdir "/DCIM"; EvIsdir "/DCIM"; EvExists "/DCIM"].
Proof.
  assert (H : listdir_gives_nothing ls_device "/DCIM").
  { intros h. right. eexists. reflexivity. }
  split; [exact H |].
  exact (safe_listdir_falls_back_to_ls ls_device "/DCIM" (fresh ∅) _ _ _
           eq_refl (fun _ => eq_refl) (fun _ => eq_refl) H eq_refl (fun _ => eq_refl)
           (or_intror eq_refl)).
Defined.

(** ** Transfers: what they never do *)

Section TransferFrame.

Variable dev : Device.

Lemma safe_open_file_keeps_callback p :
  preserves progress_callback (safe_open_file dev p).
Proof. unfold safe_open_file, logger. preserves_auto. Qed.

Lemma stream_copy_keeps_callback remote_file local_path total_size reads :
  forall downloaded_size,
    preserves progress_callback
      (stream_copy remote_file local_path total_size reads downloaded_size).
Proof.
  induction reads as [| r reads IH]; intros downloaded_size; simpl.
  - preserves_auto.
  - apply preserves_bind; [preserves_auto |]. intros [|]; [apply preserves_ret |].
    apply preserves_bind; [preserves_auto |]. intros _.
    destruct r as [[| b chunk] | e]; [apply preserves_ret | | apply preserves_raise].
    apply preserves_bind; [unfold local_write; preserves_auto |]. intros _.
    apply preserves_bind; [preserves_auto | intros; apply IH].
Qed.

Lemma download_with_stream_keeps_callback remote_path local_path info :
  preserves progress_callback (_download_with_stream dev remote_path local_path info).
Proof.
  unfold _download_with_stream.
  apply preserves_bind; [apply safe_open_file_keeps_callback |]. intros remote_file.
  apply preserves_bind; [unfold local_open_wb; preserves_auto |]. intros _.
  apply preserves_bind; [apply stream_copy_keeps_callback |]. intros _.
  unfold local_exists, local_remove. preserves_auto.
Qed.

Lemma try_strategies_keeps_callback remote_path local_path info :
  preserves progress_callback (try_strategies dev remote_path local_path info).
Proof.
  unfold try_strategies.
  apply preserves_try.
  { apply preserves_bind; [apply download_with_stream_keeps_callback |].
    intros; apply preserves_ret. }
  intros stream_error.
  unfold _download_with_bulk_read, _download_with_pull, pulled, local_open_wb,
    local_write, logger.
  preserves_auto.
Qed.

Lemma download_file_safe_keeps_callback remote_path local_path info :
  preserves progress_callback (download_file_safe dev remote_path local_path info).
Proof.
  unfold download_file_safe.
  apply preserves_bind; [preserves_auto |]. intros [|]; [apply preserves_ret |].
  apply preserves_try; [| intros; unfold logger; preserves_auto].
  apply preserves_bind; [unfold local_mkdir; preserves_auto |]. intros _.
  apply preserves_bind.
  { unfold already_present, local_exists, local_getsize. preserves_auto. }
  intros [|]; [apply preserves_ret |].
  apply preserves_bind; [apply try_strategies_keeps_callback |].
  intros [success |]; [| apply preserves_ret].
  unfold verify_download, local_exists, local_getsize, local_utime, logger.
  preserves_auto.
Qed.

End TransferFrame.

(** A transfer never raises: whatever the device answers or raises,
    whatever the observer does and whenever an interrupt arrives, the call
    returns a boolean. *)
Theorem transfer_never_raises dev remote_path local_path info w :
  exists ok w', download_file_safe dev remote_path local_path info w = (Ret ok, w').
Proof.
  destruct (returns_download_file_safe dev remote_path local_path info w) as [ok Hok].
  destruct (download_file_safe dev remote_path local_path info w) as [r w'].
  simpl in Hok. subst r. exists ok, w'. reflexivity.
Qed.

(** ** Transfers on a service without read primitives *)

Lemma try_strategies_no_primitive dev remote_path local_path info w :
  afc_open dev = None -> afc_file_open dev = None ->
  afc_get_file_contents dev = None ->
  afc_pull_file dev = None -> afc_pull dev = None ->
  exists w',
    try_strategies dev remote_path local_path info w = (Ret None, w') /\
    trace w' = trace w.
Proof.
  intros Hopen Hfile Hcontents Hpull_file Hpull.
  unfold try_strategies, _download_with_stream, safe_open_file,
    _download_with_bulk_read, _download_with_pull.
  rewrite Hopen, Hfile, Hcontents, Hpull_file, Hpull.
  eexists. split; reflexivity.
Qed.

Lemma already_present_no_device_call local_path info :
  preserves (fun w => device_calls (trace w)) (already_present local_path info).
Proof. unfold already_present, local_exists, local_getsize. preserves_auto. Qed.

(** On a service that has none of the five read primitives a transfer asks
    nothing of the device, and it answers yes only for the skip: when the
    local copy was already there with the expected, positive size. *)
Theorem transfer_without_read_primitive dev remote_path local_path info w :
  afc_open dev = None -> afc_file_open dev = None ->
  afc_get_file_contents dev = None ->
  afc_pull_file dev = None -> afc_pull dev = None ->
  exists ok w',
    download_file_safe dev remote_path local_path info w = (Ret ok, w') /\
    device_calls (trace w') = device_calls (trace w) /\
    (ok = true -> size_matches (local_fs w) local_path info = true).
Proof.
  intros Hopen Hfile Hcontents Hpull_file Hpull.
  destruct (returns_is_stopped w) as [stopped Hstopped].
  pose proof (preserves_is_stopped (fun w => device_calls (trace w))
                ltac:(intros; reflexivity) ltac:(intros; reflexivity) w) as Hcalls.
  destruct (is_stopped w) as [r w1] eqn:Hrun. simpl in Hstopped, Hcalls. subst r.
  destruct stopped.
  - exists false, w1. split; [| split; [exact Hcalls | discriminate]].
    unfold download_file_safe. rewrite (bind_run _ _ _ _ _ Hrun). reflexivity.
  - destruct (is_stopped_false w w1 Hrun) as (Hfs & _).
    rewrite (download_file_safe_entered dev remote_path local_path info w w1 Hrun).
    set (w2 := add_event (EvMkdir (Str.dirname local_path)) w1).
    destruct (already_present_eq local_path info w2) as (w3 & Hrun3 & _).
    pose proof (already_present_no_device_call local_path info w2) as Hcalls3.
    rewrite Hrun3 in Hcalls3. simpl in Hcalls3.
    change (local_fs w2) with (local_fs w1) in Hrun3. rewrite Hfs in Hrun3.
    destruct (size_matches (local_fs w) local_path info) eqn:Hpresent.
    + exists true, w3. split; [| split; [| reflexivity]].
      * apply try_run. rewrite (bind_run _ _ _ _ _ Hrun3). reflexivity.
      * rewrite Hcalls3. exact Hcalls.
    + destruct (try_strategies_no_primitive dev remote_path local_path info w3
                  Hopen Hfile Hcontents Hpull_file Hpull) as (w4 & Hrun4 & Htrace4).
      exists false, w4. split; [| split; [| discriminate]].
      * apply try_run. rewrite (bind_run _ _ _ _ _ Hrun3). cbn iota.
        rewrite (bind_run _ _ _ _ _ Hrun4). reflexivity.
      * rewrite Htrace4, Hcalls3. exact Hcalls.
Qed.

Lemma transfer_without_read_primitive_witness :
  exists w',
    download_file_safe mute_device (path photo1) (local_path_of "out" photo1)
      (Some photo1) (fresh ∅) = (Ret false, w') /\
    device_calls (trace w') = [].
Proof.
  destruct (transfer_without_read_primitive mute_device (path photo1)
              (local_path_of "out" photo1) (Some photo1) (fresh ∅)
              eq_refl eq_refl eq_refl eq_refl eq_refl)
    as (ok & w' & Hrun & Hcalls & Hskip).
  exists w'. split; [| exact Hcalls].
  destruct ok; [| exact Hrun].
  specialize (Hskip eq_refl). vm_compute in Hskip. discriminate Hskip.
Defined.

(** ** Batches under cancellation *)

Lemma settles_plain {A} (m : M A) :
  returns m -> preserves progress_callback m ->
  settles observer_silent m (fun _ => True).
Proof.
  intros Hr Hp w Hobs. destruct (Hr w) as [a Ha]. specialize (Hp w).
  destruct (m w) as [r w']. simpl in Ha, Hp. subst r.
  exists a, w'. split; [reflexivity |]. split; [| exact Logic.I].
  unfold observer_silent in *. rewrite Hp. exact Hobs.
Qed.

Lemma settles_update_progress current total m :
  settles observer_silent (update_progress current total m) (fun _ => True).
Proof.
  intros w Hobs. rewrite update_progress_eq.
  pose proof Hobs as Hobs'. unfold observer_silent in Hobs'.
  destruct (progress_callback w) as [callback |] eqn:Hcb.
  - rewrite Hobs'. eexists _, _. split; [reflexivity |]. split; [| exact Logic.I].
    unfold observer_silent. simpl. rewrite Hcb. exact Hobs'.
  - eexists _, _. split; [reflexivity |]. split; [| exact Logic.I].
    unfold observer_silent. simpl. rewrite Hcb. exact Logic.I.
Qed.

Lemma settles_batch_item dev output_directory total_photos ir downloaded failed :
  settles observer_silent
    (batch_item dev output_directory total_photos ir (downloaded, failed))
    (fun c =>
       match c with
       | Next (d, f) => d + f = downloaded + failed + 1 /\ downloaded <= d /\ failed <= f
       | Break (d, f) => d = downloaded /\ f = failed
       end).
Proof.
  intros w Hobs. unfold batch_item. destruct ir as [i r].
  destruct (settles_plain is_stopped returns_is_stopped
              ltac:(preserves_auto) w Hobs) as (stopped & w1 & Hrun1 & Hobs1 & _).
  rewrite (bind_run _ _ _ _ _ Hrun1). destruct stopped.
  { eexists _, _. split; [reflexivity |]. split; [exact Hobs1 |]. split; reflexivity. }
  set (msg := MsgDownloadingFile _).
  destruct (settles_update_progress i total_photos msg w1 Hobs1)
    as (u & w2 & Hrun2 & Hobs2 & _).
  rewrite (bind_run _ _ _ _ _ Hrun2).
  destruct (settles_plain _
              (returns_download_file_safe dev (path r)
                 (local_path_of output_directory r) (Some r))
              (download_file_safe_keeps_callback dev _ _ _) w2 Hobs2)
    as (ok & w3 & Hrun3 & Hobs3 & _).
  rewrite (bind_run _ _ _ _ _ Hrun3).
  destruct ((i + 1) mod 10 =? 0)%Z; destruct ok;
    (eexists _, _; split; [reflexivity |]; split; [exact Hobs3 |]; cbn; lia).
Qed.

Lemma settles_batch_loop dev output_directory total_photos items :
  forall downloaded failed,
    settles observer_silent
      (for_each (batch_item dev output_directory total_photos) items (downloaded, failed))
      (fun c => downloaded <= fst c /\ failed <= snd c /\
                fst c + snd c <= downloaded + failed + len items).
Proof.
  induction items as [| ir items IH]; intros downloaded failed w Hobs.
  - exists (downloaded, failed), w. split; [reflexivity |]. split; [exact Hobs |].
    unfold len. simpl. lia.
  - cbn [for_each].
    destruct (settles_batch_item dev output_directory total_photos ir downloaded failed
                w Hobs) as (c & w1 & Hrun1 & Hobs1 & Hc).
    rewrite (bind_run _ _ _ _ _ Hrun1).
    destruct c as [[d f] | [d f]].
    + destruct (IH d f w1 Hobs1) as (c' & w' & Hrun & Hobs' & Hc').
      exists c', w'. split; [exact Hrun |]. split; [exact Hobs' |].
      unfold len in *. cbn [length]. lia.
    + exists (d, f), w1. split; [reflexivity |]. split; [exact Hobs1 |].
      unfold len. cbn [length fst snd]. lia.
Qed.

(** With an observer that does not raise, a batch always returns, also when
    it is cancelled on the way: both counts are non-negative and together
    they never exceed the number of records. *)
Theorem batch_counts_bounded dev records output_directory w :
  observer_silent w ->
  exists succeeded failed w',
    download_photos_batch_safe dev records output_directory w
    = (Ret (succeeded, failed), w') /\
    0 <= succeeded /\ 0 <= failed /\ succeeded + failed <= len records.
Proof.
  intros Hobs. unfold download_photos_batch_safe.
  destruct records as [| r records].
  { eexists 0, 0, _. split; [reflexivity |]. unfold len. simpl. lia. }
  set (records' := r :: records).
  assert (Hobs1 : observer_silent (add_log INFO (LogBatchStart (len records')) w))
    by exact Hobs.
  destruct (settles_update_progress 0 (len records') MsgPreparing _ Hobs1)
    as (u & w2 & Hrun2 & Hobs2 & _).
  destruct (settles_batch_loop dev output_directory (len records') (enumerate records')
              0 0 w2 Hobs2) as ([s f] & w' & Hrun & _ & Hs & Hf & Hsum).
  exists s, f, w'. split.
  - unfold bind at 1.
    change (logger INFO (LogBatchStart (len records')) w)
      with (Ret tt, add_log INFO (LogBatchStart (len records')) w).
    cbn beta iota. rewrite (bind_run _ _ _ _ _ Hrun2). exact Hrun.
  - simpl in Hs, Hf, Hsum.
    assert (Hlen : len (enumerate records') = len records').
    { unfold enumerate, len. rewrite length_combine, length_map, length_seq.
      rewrite Nat.min_id. reflexivity. }
    lia.
Qed.

Lemma batch_counts_bounded_witness :
  observer_silent interrupted_world /\
  exists succeeded failed w',
    download_photos_batch_safe apple_device [photo1; photo2; photo3] "out"
      interrupted_world = (Ret (succeeded, failed), w') /\
    succeeded + failed <= 3.
Proof.
  assert (H : observer_silent interrupted_world) by exact Logic.I.
  split; [exact H |].
  destruct (batch_counts_bounded apple_device [photo1; photo2; photo3] "out"
              interrupted_world H) as (s & f & w' & Hrun & _ & _ & Hsum).
  exists s, f, w'. split; [exact Hrun | exact Hsum].
Defined.

(** ** Values an operation can return *)

Lemma yields_ret {A} (a : A) (P : A -> Prop) : P a -> yields (ret a) P.
Proof. intros H w. exact H. Qed.

Lemma yields_raise {A} e (P : A -> Prop) : yields (raise e) P.
Proof. intros w. exact Logic.I. Qed.

Lemma yields_bind {A B} (m : M A) (k : A -> M B) (Q : A -> Prop) (P : B -> Prop) :
  yields m Q -> (forall a, Q a -> yields (k a) P) -> yields (bind m k) P.
Proof.
  intros Hm Hk w. unfold bind. specialize (Hm w).
  destruct (m w) as [[a | e] w1]; simpl in *.
  - apply (Hk a Hm w1).
  - exact Logic.I.
Qed.

Lemma yields_bind_any {A B} (m : M A) (k : A -> M B) (P : B -> Prop) :
  (forall a, yields (k a) P) -> yields (bind m k) P.
Proof.
  intros Hk. apply yields_bind with (Q := fun _ => True).
  - intros w. destruct (fst (m w)); exact Logic.I.
  - intros a _. apply Hk.
Qed.

Lemma yields_try {A} (m : M A) (h : exn -> M A) (P : A -> Prop) :
  yields m P -> (forall e, yields (h e) P) -> yields (try_except m h) P.
Proof.
  intros Hm Hh w. unfold try_except. specialize (Hm w).
  destruct (m w) as [[a | e] w1]; simpl in *.
  - exact Hm.
  - apply (Hh e w1).
Qed.

Lemma yields_for_each_in {A S} (body : A -> S -> M (ctl S)) (Inv : S -> Prop) l :
  (forall x, In x l -> forall s, Inv s -> yields (body x s) (fun c => Inv (ctl_state c))) ->
  forall s, Inv s -> yields (for_each body l s) Inv.
Proof.
  induction l as [| x l IH]; intros Hbody s Hs; simpl.
  - apply yields_ret, Hs.
  - eapply yields_bind; [apply Hbody; [left; reflexivity | exact Hs] |].
    intros [s' | s'] Hs'; simpl in Hs'.
    + apply IH; [| exact Hs']. intros y Hy. apply Hbody. right. exact Hy.
    + apply yields_ret, Hs'.
Qed.

Lemma yields_run {A} (m : M A) (P : A -> Prop) w a w' :
  yields m P -> m w = (Ret a, w') -> P a.
Proof. intros H Hrun. specialize (H w). rewrite Hrun in H. exact H. Qed.

(** ** What a scan returns *)

Lemma media_path_below prefix item :
  is_media_file item = true -> media_path (prefix ++ "/" ++ item).
Proof.
  unfold media_path, is_media_file. intros H.
  apply existsb_exists in H. destruct H as (ext & Hin & Hends).
  apply existsb_exists. exists ext. split; [exact Hin |].
  rewrite !lower_app. apply endswith_app, endswith_app, Hends.
Qed.

Lemma scan_item_media dev directory_path item files subdirs :
  Forall media_path files ->
  yields (scan_item dev directory_path item (files, subdirs))
    (fun c => Forall media_path (fst (ctl_state c))).
Proof.
  intros Hfiles. unfold scan_item.
  apply yields_bind_any. intros [|]; [apply yields_ret, Hfiles |].
  apply yields_try; [| intros; apply yields_ret, Hfiles].
  apply yields_bind_any. intros [|]; [apply yields_ret, Hfiles |].
  destruct (is_media_file item) eqn:Hmedia; [| apply yields_ret, Hfiles].
  do 4 (apply yields_bind_any; intros ?).
  apply yields_ret. simpl. apply Forall_app. split; [exact Hfiles |].
  constructor; [| constructor]. apply media_path_below, Hmedia.
Qed.

Lemma scan_depth_media dev depth :
  forall directory_path,
    yields (scan_depth dev depth directory_path) (Forall media_path).
Proof.
  induction depth as [| depth IH]; intros directory_path.
  - apply yields_ret. constructor.
  - cbn [scan_depth].
    apply yields_bind_any. intros [|]; [apply yields_ret; constructor |].
    apply yields_bind_any. intros [items |]; [| apply yields_ret; constructor].
    eapply yields_bind.
    { apply (yields_for_each_in (scan_item dev directory_path)
               (fun acc => Forall media_path (fst acc)) items).
      - intros item _ [files subdirs] Hacc. apply scan_item_media, Hacc.
      - constructor. }
    intros [files subdirs] Hfiles. simpl in Hfiles.
    destruct subdirs as [| subdir subdirs]; [apply yields_ret, Hfiles |].
    apply yields_bind_any. intros [|]; [apply yields_ret, Hfiles |].
    apply yields_for_each_in; [| exact Hfiles].
    intros x _ photos Hphotos.
    apply yields_bind_any. intros [|]; [apply yields_ret, Hphotos |].
    apply yields_try; [| intros; apply yields_ret, Hphotos].
    eapply yields_bind; [apply IH |].
    intros sub_photos Hsub. apply yields_ret. simpl.
    apply Forall_app. split; assumption.
Qed.

(** When the existence test and the directory test of the scanned root do
    not raise, the scan returns, at every depth and whatever happens below
    the root (a subdirectory that cannot be listed, an entry whose test
    raises, a raising observer are all absorbed), and every path it returns
    passes the media filter. *)
Theorem scan_returns_only_media dev directory_path max_depth w :
  answers (afc_exists dev) directory_path ->
  answers (afc_isdir dev) directory_path ->
  exists photos w',
    scan_photos_safe dev directory_path max_depth w = (Ret photos, w') /\
    Forall media_path photos.
Proof.
  intros Hex Hdir. unfold scan_photos_safe.
  destruct (returns_scan_depth dev (Z.to_nat max_depth) directory_path Hex Hdir w)
    as [photos Hr].
  destruct (scan_depth dev (Z.to_nat max_depth) directory_path w) as [r w'] eqn:Hrun.
  simpl in Hr. subst r. exists photos, w'. split; [reflexivity |].
  exact (yields_run _ _ _ _ _ (scan_depth_media dev _ directory_path) Hrun).
Qed.

Lemma scan_returns_only_media_witness :
  answers (afc_exists apple_device) "/DCIM" /\
  answers (afc_isdir apple_device) "/DCIM" /\
  exists photos w',
    scan_photos_safe apple_device "/DCIM" 3 (fresh ∅) = (Ret photos, w') /\
    Forall media_path photos.
Proof.
  assert (Hex : answers (afc_exists apple_device) "/DCIM")
    by (intros h; eexists; reflexivity).
  assert (Hdir : answers (afc_isdir apple_device) "/DCIM")
    by (intros h; eexists; reflexivity).
  split; [exact Hex |]. split; [exact Hdir |].
  exact (scan_returns_only_media apple_device "/DCIM" 3 (fresh ∅) Hex Hdir).
Defined.

(** The work of a scan is bounded, however it ends: with [max_depth <= 0]
    it returns the empty list at once, touching nothing, and for every
    [max_depth], device and starting state the number of directories it
    lists (the existence tests it makes) is at most [scan_bound max_depth],
    the size of a tree of depth [max_depth] with fan-out 20. *)
Theorem scan_work_bounded dev directory_path max_depth w :
  (max_depth <= 0 -> scan_photos_safe dev directory_path max_depth w = (Ret [], w)) /\
  (directories_listed (trace (snd (scan_photos_safe dev directory_path max_depth w)))
   <= directories_listed (trace w) + scan_bound (Z.to_nat max_depth))%nat.
Proof.
  split.
  - intros Hle. unfold scan_photos_safe.
    replace (Z.to_nat max_depth) with 0%nat by lia. reflexivity.
  - apply cost_scan_depth.
Qed.

Lemma scan_work_bounded_witness :
  0 <= 0 /\
  scan_photos_safe crowded_device "/" 0 (fresh ∅) = (Ret [], fresh ∅) /\
  (directories_listed (trace (snd (scan_photos_safe crowded_device "/" 3 (fresh ∅))))
   <= 421)%nat.
Proof.
  split; [lia |]. split.
  - apply (proj1 (scan_work_bounded crowded_device "/" 0 (fresh ∅))). lia.
  - exact (proj2 (scan_work_bounded crowded_device "/" 3 (fresh ∅))).
Defined.

(** ** What an analysis result holds *)

Lemma get_file_info_safe_record dev p :
  yields (get_file_info_safe dev p)
    (fun o => match o with
              | Some fi => path fi = p /\ record_of_path fi
              | None => True
              end).
Proof.
  unfold get_file_info_safe.
  apply yields_bind_any. intros [|]; [apply yields_ret; exact Logic.I |].
  apply yields_try; [| intros; apply yields_ret; exact Logic.I].
  apply yields_bind_any. intros stat. apply yields_ret.
  split; [reflexivity |]. split; reflexivity.
Qed.

Lemma analyze_photo_media dev n j photo all_photos :
  media_path photo ->
  Forall media_record all_photos ->
  yields (analyze_photo dev n (j, photo) all_photos)
    (fun c => Forall media_record (ctl_state c)).
Proof.
  intros Hphoto Hall. unfold analyze_photo.
  apply yields_bind_any. intros [|]; [apply yields_ret, Hall |].
  eapply yields_bind; [apply get_file_info_safe_record |].
  intros photo_info Hinfo. apply yields_bind_any. intros _. apply yields_ret. simpl.
  destruct photo_info as [fi |]; [| exact Hall].
  destruct Hinfo as [Hpath Hrec].
  apply Forall_app. split; [exact Hall |].
  constructor; [| constructor]. split; [rewrite Hpath; exact Hphoto | exact Hrec].
Qed.

Lemma analyze_directory_media dev n id all_photos :
  Forall media_record all_photos ->
  yields (analyze_directory dev n id all_photos)
    (fun c => Forall media_record (ctl_state c)).
Proof.
  intros Hall. unfold analyze_directory. destruct id as [i directory].
  apply yields_bind_any. intros [|].
  { apply yields_bind_any. intros _. apply yields_ret, Hall. }
  apply yields_bind_any. intros _. apply yields_bind_any. intros _.
  eapply yields_bind; [apply (scan_depth_media dev (Z.to_nat 3) directory) |].
  intros photos Hphotos.
  apply yields_bind_any. intros [|]; [apply yields_ret, Hall |].
  destruct photos as [| photo photos]; [apply yields_ret, Hall |].
  apply yields_bind_any. intros _.
  eapply yields_bind; [| intros all' Hall'; apply yields_ret; exact Hall'].
  apply yields_for_each_in; [| exact Hall].
  intros [j q] Hin acc Hacc. apply analyze_photo_media; [| exact Hacc].
  unfold enumerate in Hin. apply in_combine_r in Hin.
  rewrite Forall_forall in Hphotos. apply Hphotos, list_elem_of_In, Hin.
Qed.

Lemma analyze_photos_safe_loop dev w w' result :
  analyze_photos_safe dev w = (Ret (Some result), w') ->
  exists directories w1 w2,
    for_each (analyze_directory dev (len directories)) (enumerate directories) [] w1
    = (Ret (photos_info result), w2) /\
    statistics (photos_info result) = Ret result.
Proof.
  unfold analyze_photos_safe. intros H.
  inv_bind H as u. inv_bind H as connected.
  destruct connected; simpl in H; [| inv_ret H].
  inv_bind H as stopped. destruct stopped; [inv_ret H |].
  inv_bind H as ready. destruct ready; simpl in H; [| inv_ret H].
  inv_bind H as stopped. destruct stopped; [inv_ret H |].
  inv_bind H as u1. inv_bind H as u2. inv_bind H as directories.
  inv_bind H as stopped.
  destruct stopped; [inv_bind H as u3; inv_ret H |].
  destruct directories as [| directory directories]; [inv_bind H as u3; inv_ret H |].
  inv_bind H as u3. inv_bind H as all_photos. inv_bind H as stopped.
  destruct stopped; [inv_bind H as u4; inv_bind H as u5; inv_ret H |].
  destruct all_photos as [| p all_photos]; [inv_bind H as u4; inv_ret H |].
  inv_bind H as result0. inv_bind H as u4. inv_bind H as u5. inv_bind H as u6.
  inv_bind H as u7. inv_bind H as u8. inv_ret H.
  assert (Hstat : statistics (p :: all_photos) = Ret result).
  { match goal with
    | Hl : lift _ _ = _ |- _ => unfold lift in Hl; inversion Hl; reflexivity
    end. }
  destruct (statistics_result _ _ Hstat) as (Hinfo & _).
  eexists (directory :: directories), _, _. rewrite Hinfo.
  split; [eassumption | exact Hstat].
Qed.

Lemma count_types_bounded l :
  0 <= count_type image l /\ 0 <= count_type video l /\
  count_type image l + count_type video l <= len l.
Proof.
  unfold count_type, len. induction l as [| r l IH]; simpl; [lia |].
  rewrite !filter_cons. destruct (type r); simpl;
    repeat (destruct (decide _) as [Hd | Hd]; try discriminate Hd;
            try (contradiction Hd; reflexivity)); simpl; lia.
Qed.

(** Every record of an analysis result has a path that passes the media
    filter, with its name and its type derived from that path; the image
    and video counts are non-negative and together never exceed the number
    of records. *)
Theorem analysis_records_are_media dev w w' result :
  analyze_photos_safe dev w = (Ret (Some result), w') ->
  Forall media_record (photos_info result) /\
  photos_info result <> [] /\
  0 <= image_count result /\ 0 <= video_count result /\
  image_count result + video_count result <= total_files result.
Proof.
  intros H.
  destruct (analyze_photos_safe_result dev w w' result H) as (all & Hne & Heq).
  destruct (analyze_photos_safe_loop dev w w' result H)
    as (directories & w1 & w2 & Hloop & Hstat).
  split.
  - refine (yields_run _ _ _ _ _ _ Hloop).
    apply yields_for_each_in; [| constructor].
    intros id _ acc Hacc. apply analyze_directory_media, Hacc.
  - destruct (statistics_result _ _ Heq) as (Hinfo & Hn & Hi & Hv & _).
    split; [rewrite Hinfo; exact Hne |].
    rewrite Hn, Hi, Hv. apply count_types_bounded.
Qed.

Lemma analysis_records_are_media_witness :
  exists result w',
    analyze_photos_safe raw_device (fresh ∅) = (Ret (Some result), w') /\
    Forall media_record (photos_info result) /\
    image_count result + video_count result <= total_files result.
Proof.
  pose (r := analyze_photos_safe raw_device (fresh ∅)).
  assert (Hr : exists result w', r = (Ret (Some result), w')).
  { vm_compute. eexists _, _. reflexivity. }
  destruct Hr as (result & w' & Hr).
  destruct (analysis_records_are_media raw_device (fresh ∅) w' result Hr)
    as (Hall & _ & _ & _ & Hsum).
  exists result, w'. split; [exact Hr |]. split; [exact Hall | exact Hsum].
Defined.

(** ** Path discovery *)

Lemma sublist_loop {A} (body : Z * A -> list A -> M (ctl (list A))) :
  (forall ip acc,
     yields (body ip acc)
       (fun c => c = Break acc \/ c = Next acc \/ c = Next (acc ++ [snd ip])%list)) ->
  forall items acc,
    yields (for_each body items acc)
      (fun res => exists extra, res = (acc ++ extra)%list /\
                                sublist extra (map snd items)).
Proof.
  intros Hbody. induction items as [| ip items IH]; intros acc; simpl.
  - apply yields_ret. exists []. split; [rewrite app_nil_r; reflexivity | constructor].
  - eapply yields_bind; [apply Hbody |].
    intros c [-> | [-> | ->]].
    + apply yields_ret. exists []. split; [rewrite app_nil_r; reflexivity |].
      apply sublist_nil_l.
    + intros w. specialize (IH acc w). destruct (fst (for_each body items acc w));
        [| exact Logic.I].
      destruct IH as (extra & -> & Hsub). exists extra. split; [reflexivity |].
      apply sublist_cons, Hsub.
    + intros w. specialize (IH (acc ++ [snd ip])%list w).
      destruct (fst (for_each body items (acc ++ [snd ip])%list w)); [| exact Logic.I].
      destruct IH as (extra & -> & Hsub). exists (snd ip :: extra).
      split; [rewrite <- app_assoc; reflexivity |]. apply sublist_skip, Hsub.
Qed.

Lemma get_photo_directories_safe_sublist dev :
  yields (get_photo_directories_safe dev) (fun roots => sublist roots potential_paths).
Proof.
  unfold get_photo_directories_safe.
  apply yields_bind_any. intros [|]; [apply yields_ret, sublist_nil_l |].
  apply yields_bind_any. intros _.
  eapply yields_bind.
  { apply sublist_loop. intros [i p] acc.
    apply yields_bind_any. intros [|].
    { apply yields_bind_any. intros _. apply yields_ret. left. reflexivity. }
    apply yields_bind_any. intros _. apply yields_bind_any. intros [items |].
    - destruct (0 <? len items)%Z; [| apply yields_ret; right; left; reflexivity].
      destruct (_ || _)%bool; [| apply yields_ret; right; left; reflexivity].
      apply yields_bind_any. intros _. apply yields_ret. right. right. reflexivity.
    - apply yields_ret. right. left. reflexivity. }
  intros roots (extra & -> & Hsub). apply yields_bind_any. intros _.
  apply yields_ret. exact Hsub.
Qed.

Lemma cost_logger l m : cost (logger l m) 0.
Proof. apply cost_modify. reflexivity. Qed.

Lemma cost_get_photo_directories_safe dev :
  cost (get_photo_directories_safe dev) 13.
Proof.
  unfold get_photo_directories_safe.
  apply cost_bind_r; [apply cost_is_stopped |].
  intros [|]; [apply cost_zero_le, cost_ret |].
  apply cost_bind_r; [apply cost_update_progress |]. intros _.
  apply cost_bind_l.
  2: { intros roots. apply cost_bind_r; [apply cost_update_progress |].
       intros; apply cost_ret. }
  apply (cost_le _ (length (enumerate potential_paths) * 1)); [| vm_compute; lia].
  apply cost_for_each. intros [i p] acc.
  apply cost_bind_r; [apply cost_is_stopped |].
  intros [|].
  { apply cost_zero_le. apply cost_bind_r; [apply cost_logger | intros; apply cost_ret]. }
  apply cost_bind_r; [apply cost_update_progress |]. intros _.
  apply cost_bind_l; [apply cost_safe_listdir |].
  intros [items |]; [| apply cost_ret].
  destruct (0 <? len items)%Z; [| apply cost_ret].
  destruct (_ || _)%bool; [| apply cost_ret].
  apply cost_bind_r; [apply cost_logger | intros; apply cost_ret].
Qed.

(** Path discovery returns candidates only, in candidate order (a
    subsequence of the fixed list), and it lists at most 13 directories, one
    per candidate: it never recurses. *)
Theorem discovery_returns_candidates dev w :
  (forall roots w',
     get_photo_directories_safe dev w = (Ret roots, w') ->
     sublist roots potential_paths) /\
  (directories_listed (trace (snd (get_photo_directories_safe dev w)))
   <= directories_listed (trace w) + 13)%nat.
Proof.
  split.
  - intros roots w' Hrun.
    exact (yields_run _ _ _ _ _ (get_photo_directories_safe_sublist dev) Hrun).
  - apply cost_get_photo_directories_safe.
Qed.

Lemma discovery_returns_candidates_witness :
  exists w',
    get_photo_directories_safe apple_device (fresh ∅) = (Ret ["/DCIM"], w') /\
    sublist ["/DCIM"] potential_paths.
Proof.
  eexists. split; [vm_compute; reflexivity |].
  eapply (proj1 (discovery_returns_candidates apple_device (fresh ∅))).
  vm_compute. reflexivity.
Defined.

(** ** A device that cannot be reached *)

Lemma connect_device_fails dev :
  (forall h, exists e, create_using_usbmux dev h = Raise e) ->
  settles observer_silent (connect_device dev) (fun connected => connected = false).
Proof.
  intros Hraise w Hobs. unfold connect_device.
  destruct (settles_plain is_stopped returns_is_stopped
              ltac:(preserves_auto) w Hobs) as (stopped & w1 & Hrun1 & Hobs1 & _).
  rewrite (bind_run _ _ _ _ _ Hrun1). destruct stopped.
  { eexists _, _. split; [reflexivity |]. split; [exact Hobs1 | reflexivity]. }
  destruct (settles_update_progress 0 100 MsgSearchingDevice w1 Hobs1)
    as (u & w2 & Hrun2 & Hobs2 & _).
  set (w3 := add_log INFO LogSearchingDevice w2).
  destruct (Hraise (trace w3)) as [e He].
  set (w4 := add_event EvUsbmux w3).
  set (w5 := add_log ERROR (LogConnectFailed e) w4).
  assert (Hobs5 : observer_silent w5) by exact Hobs2.
  destruct (settles_update_progress 0 100 (MsgConnectFailed e) w5 Hobs5)
    as (u' & w6 & Hrun6 & Hobs6 & _).
  eexists false, _. split; [| split; [| reflexivity]].
  - erewrite try_run_raise.
    2: { rewrite (bind_run _ _ _ _ _ Hrun2).
         unfold bind at 1. change (logger INFO LogSearchingDevice w2) with (Ret tt, w3).
         cbn beta iota. apply bind_run_raise.
         unfold remote_call. rewrite He. reflexivity. }
    erewrite bind_run; [| reflexivity].
    erewrite bind_run; [| exact Hrun6]. reflexivity.
  - exact Hobs6.
Qed.

Lemma connect_device_no_afc dev :
  preserves (fun w => afc_history (trace w)) (connect_device dev).
Proof. unfold connect_device, logger. preserves_auto. Qed.

(** When the connection to the device cannot be made, an analysis returns
    [None] instead of raising (the observer not raising either), and no call
    is made to the AFC service. *)
Theorem analysis_without_device dev w :
  observer_silent w ->
  (forall h, exists e, create_using_usbmux dev h = Raise e) ->
  exists w',
    analyze_photos_safe dev w = (Ret None, w') /\
    afc_history (trace w') = afc_history (trace w).
Proof.
  intros Hobs Hraise. unfold analyze_photos_safe.
  set (w0 := set_stop false (sigints w) w).
  assert (Hobs0 : observer_silent w0) by exact Hobs.
  destruct (connect_device_fails dev Hraise w0 Hobs0) as (c & w1 & Hrun1 & _ & ->).
  pose proof (connect_device_no_afc dev w0) as Hafc. rewrite Hrun1 in Hafc.
  exists w1. split; [| exact Hafc].
  unfold bind at 1. change (reset w) with (Ret tt, w0). cbn beta iota.
  rewrite (bind_run _ _ _ _ _ Hrun1). reflexivity.
Qed.

Lemma analysis_without_device_witness :
  observer_silent (fresh ∅) /\
  exists w', analyze_photos_safe unreachable_device (fresh ∅) = (Ret None, w').
Proof.
  assert (H : observer_silent (fresh ∅)) by exact Logic.I.
  split; [exact H |].
  destruct (analysis_without_device unreachable_device (fresh ∅) H
              (fun _ => ex_intro _ (OtherException "no device") eq_refl))
    as (w' & Hrun & _).
  exists w'. exact Hrun.
Defined.

(** ** Scanning and discovery without cancellation *)

Lemma stable_calm_is_stopped : stable calm is_stopped.
Proof. intros w Hc. rewrite (is_stopped_calm w Hc). exact Hc. Qed.

Lemma stable_calm_safe_listdir dev p : stable calm (safe_listdir dev p).
Proof.
  unfold safe_listdir.
  apply stable_bind; [apply stable_calm_is_stopped |].
  intros [|]; [apply stable_ret |].
  apply stable_try; [| intros; apply stable_raise].
  apply stable_bind; [apply stable_remote_call; intros w H; exact H |].
  intros ex. destruct (negb ex); [apply stable_ret |].
  apply stable_bind; [apply stable_remote_call; intros w H; exact H |].
  intros isd. destruct (negb isd); [apply stable_ret |].
  apply stable_bind.
  { destruct (afc_listdir dev); [| apply stable_ret].
    apply stable_try; [| intros; apply stable_ret].
    apply stable_remote_call; intros w H; exact H. }
  intros items1. apply stable_bind.
  { destruct items1; [apply stable_ret |].
    destruct (afc_ls dev); [| apply stable_ret].
    apply stable_try; [| intros; apply stable_ret].
    apply stable_bind; [apply stable_remote_call; intros w H; exact H |].
    intros [l | [l |] |]; apply stable_ret. }
  intros items2. apply stable_bind.
  { destruct items2; [apply stable_ret |].
    destruct (afc_list_directory dev); [| apply stable_ret].
    apply stable_try; [| intros; apply stable_ret].
    apply stable_remote_call; intros w H; exact H. }
  intros [items |]; apply stable_ret.
Qed.

Lemma safe_listdir_ends_calm dev p w :
  calm w -> exists o w', safe_listdir dev p w = (o, w') /\ calm w'.
Proof.
  intros Hc. pose proof (stable_calm_safe_listdir dev p w Hc) as Hc'.
  destruct (safe_listdir dev p w) as [o w']. exists o, w'. split; [reflexivity | exact Hc'].
Qed.

Lemma safe_listdir_calm dev p w :
  calm w ->
  answers (afc_exists dev) p ->
  answers (afc_isdir dev) p ->
  exists r w', safe_listdir dev p w = (Ret r, w') /\ calm w'.
Proof.
  intros Hc Hex Hdir. destruct (returns_safe_listdir dev p Hex Hdir w) as [r Hr].
  destruct (safe_listdir_ends_calm dev p w Hc) as (o & w' & Hrun & Hc').
  rewrite Hrun in Hr. simpl in Hr. subst o.
  exists r, w'. split; [exact Hrun | exact Hc'].
Qed.

Lemma safe_listdir_refused dev p w l :
  calm w -> refuses (afc_exists dev) p -> fst (safe_listdir dev p w) <> Ret (Some l).
Proof.
  intros Hc Hrefuse. unfold safe_listdir.
  rewrite (bind_run _ _ _ _ _ (is_stopped_calm w Hc)).
  unfold try_except, bind at 1, remote_call at 1.
  destruct (Hrefuse (trace w)) as [-> | [e ->]]; discriminate.
Qed.

Lemma safe_listdir_plain_calm dev p names w :
  calm w ->
  lists_plain dev p names ->
  exists w',
    safe_listdir dev p w
    = (Ret (Some (List.filter (fun s => negb (pseudo_entry s)) names)), w') /\
    calm w'.
Proof.
  intros Hc (Hex & Hdir & listdir & Hhas & Hlist).
  unfold safe_listdir. rewrite (bind_run _ _ _ _ _ (is_stopped_calm w Hc)).
  unfold try_except, bind, remote_call. rewrite Hhas.
  rewrite Hex. cbn [negb]. rewrite Hdir. cbn [negb]. rewrite Hlist.
  destruct (afc_ls dev); destruct (afc_list_directory dev);
    (eexists; split; [unfold ret; rewrite filtered_plain_names; reflexivity | exact Hc]).
Qed.

Lemma scan_item_file_calm dev directory_path item files w :
  calm w ->
  (forall h, afc_isdir dev h (item_path directory_path item) = Ret false) ->
  exists w',
    scan_item dev directory_path item (files, []) w
    = (Ret (Next ((files ++ if is_media_file item
                            then [item_path directory_path item] else [])%list, [])),
       w') /\
    calm w'.
Proof.
  intros Hc Hfile. unfold scan_item.
  rewrite (bind_run _ _ _ _ _ (is_stopped_calm w Hc)).
  fold (item_path directory_path item).
  set (w1 := add_event (EvIsdir (item_path directory_path item)) w).
  assert (Hrun1 : remote_call (EvIsdir (item_path directory_path item))
                    (fun h => afc_isdir dev h (item_path directory_path item)) w
                  = (Ret false, w1)).
  { unfold remote_call. rewrite Hfile. reflexivity. }
  assert (Hc1 : calm w1) by exact Hc.
  destruct (is_media_file item).
  - set (w2 := set_scan_progress (scan_current w1 + 1) (scan_total w1) w1).
    assert (Hc2 : calm w2) by exact Hc1.
    assert (Hstep : exists w3,
      (if (scan_current w2 mod 20 =? 0)%Z
       then try_except
              (update_progress (scan_current w2) (scan_total w2)
                 (MsgFoundMedia (scan_current w2)))
              (fun _ => ret tt)
       else ret tt) w2 = (Ret tt, w3) /\ calm w3).
    { destruct (_ =? _)%Z.
      - destruct (update_progress_calm_run (scan_current w2) (scan_total w2)
                    (MsgFoundMedia (scan_current w2)) w2 Hc2) as (w3 & Hrun3 & Hc3 & _).
        exists w3. split; [apply try_run, Hrun3 | exact Hc3].
      - exists w2. split; [reflexivity | exact Hc2]. }
    destruct Hstep as (w3 & Hrun3 & Hc3).
    exists w3. split; [| exact Hc3].
    apply try_run. rewrite (bind_run _ _ _ _ _ Hrun1). cbn beta iota.
    erewrite bind_run; [| reflexivity].
    erewrite bind_run; [| reflexivity].
    erewrite bind_run; [| reflexivity].
    erewrite bind_run; [| exact Hrun3]. reflexivity.
  - exists w1. split; [| exact Hc1].
    apply try_run. rewrite (bind_run _ _ _ _ _ Hrun1). cbn beta iota.
    rewrite app_nil_r. reflexivity.
Qed.

Lemma leaf_loop_calm dev directory_path names :
  forall files w,
    calm w ->
    (forall n, In n names ->
       forall h, afc_isdir dev h (item_path directory_path n) = Ret false) ->
    exists w',
      for_each (scan_item dev directory_path) names (files, []) w
      = (Ret ((files ++ map (item_path directory_path)
                          (List.filter is_media_file names))%list, []), w') /\
      calm w'.
Proof.
  induction names as [| n names IH]; intros files w Hc Hfiles.
  - exists w. simpl. rewrite app_nil_r. split; [reflexivity | exact Hc].
  - cbn [for_each].
    destruct (scan_item_file_calm dev directory_path n files w Hc)
      as (w1 & Hrun1 & Hc1); [apply Hfiles; left; reflexivity |].
    rewrite (bind_run _ _ _ _ _ Hrun1).
    destruct (IH (files ++ if is_media_file n then [item_path directory_path n] else [])%list
                w1 Hc1) as (w' & Hrun & Hc').
    { intros m Hm. apply Hfiles. right. exact Hm. }
    exists w'. split; [| exact Hc']. rewrite Hrun.
    cbn [List.filter]. destruct (is_media_file n); cbn [map].
    + rewrite <- app_assoc. reflexivity.
    + rewrite app_nil_r. reflexivity.
Qed.

(** The scan of a directory that holds files only: without cancellation it
    returns, in listing order, the paths of the entries that pass the media
    filter, each built from the directory path without its trailing
    slashes; [.], [..] and the empty name are left out with the rest. *)
Theorem scan_of_leaf_directory dev directory_path max_depth names w :
  calm w ->
  0 < max_depth ->
  lists_plain dev directory_path names ->
  (forall n, In n names ->
     forall h, afc_isdir dev h (item_path directory_path n) = Ret false) ->
  exists w',
    scan_photos_safe dev directory_path max_depth w
    = (Ret (map (item_path directory_path)
              (List.filter is_media_file
                 (List.filter (fun s => negb (pseudo_entry s)) names))), w').
Proof.
  intros Hc Hdepth Hlist Hfiles. unfold scan_photos_safe.
  destruct (Z.to_nat max_depth) as [| depth] eqn:Hd; [lia |].
  cbn [scan_depth]. rewrite (bind_run _ _ _ _ _ (is_stopped_calm w Hc)).
  destruct (safe_listdir_plain_calm dev directory_path names w Hc Hlist)
    as (w1 & Hrun1 & Hc1).
  rewrite (bind_run _ _ _ _ _ Hrun1).
  destruct (leaf_loop_calm dev directory_path
              (List.filter (fun s => negb (pseudo_entry s)) names) [] w1 Hc1)
    as (w2 & Hrun2 & _).
  { intros n Hn. apply filter_In in Hn. apply Hfiles, Hn. }
  rewrite (bind_run _ _ _ _ _ Hrun2). exists w2. reflexivity.
Qed.

Lemma scan_of_leaf_directory_witness :
  calm (fresh ∅) /\
  exists w',
    scan_photos_safe apple_device "/DCIM/100APPLE" 3 (fresh ∅)
    = (Ret ["/DCIM/100APPLE/IMG_0001.JPG"; "/DCIM/100APPLE/IMG_0002.MOV"], w').
Proof.
  assert (Hc : calm (fresh ∅)).
  { split; [reflexivity |]. split; [reflexivity | exact Logic.I]. }
  split; [exact Hc |].
  apply (scan_of_leaf_directory apple_device "/DCIM/100APPLE" 3
           ["IMG_0001.JPG"; "IMG_0002.MOV"; "notes.txt"] (fresh ∅) Hc eq_refl).
  - split; [intros; reflexivity |]. split; [intros; reflexivity |].
    exists (fun _ p => Ret (apple_roll p)). split; intros; reflexivity.
  - intros n [<- | [<- | [<- | []]]] h; reflexivity.
Defined.

Lemma discovery_loop_calm {A} (body : Z * A -> list A -> M (ctl (list A)))
    (good keep drop : A -> Prop) :
  (forall i p acc w,
     good p -> calm w ->
     exists acc' w',
       body (i, p) acc w = (Ret (Next acc'), w') /\ calm w' /\
       (acc' = acc \/ acc' = (acc ++ [p])%list) /\
       (keep p -> acc' = (acc ++ [p])%list) /\
       (drop p -> acc' = acc)) ->
  forall items acc w,
    (forall p, In p (map snd items) -> good p) ->
    calm w ->
    exists res w',
      for_each body items acc w = (Ret res, w') /\ calm w' /\
      (forall c, keep c -> In c acc \/ In c (map snd items) -> In c res) /\
      (forall c, drop c -> ~ In c acc -> ~ In c res).
Proof.
  intros Hbody. induction items as [| [i p] items IH]; intros acc w Hgood Hc.
  - exists acc, w. split; [reflexivity |]. split; [exact Hc |]. split.
    + intros c _ [H | []]. exact H.
    + intros c _ H. exact H.
  - cbn [for_each].
    destruct (Hbody i p acc w (Hgood p (or_introl eq_refl)) Hc)
      as (acc' & w1 & Hrun1 & Hc1 & Hshape & Hkeep & Hdrop).
    rewrite (bind_run _ _ _ _ _ Hrun1).
    destruct (IH acc' w1 (fun q Hq => Hgood q (or_intror Hq)) Hc1)
      as (res & w' & Hrun & Hc' & Hin & Hout).
    exists res, w'. split; [exact Hrun |]. split; [exact Hc' |]. split.
    + intros c Hk [Hacc | [<- | Hrest]].
      * apply (Hin c Hk). left. destruct Hshape as [-> | ->]; [exact Hacc |].
        apply in_or_app. left. exact Hacc.
      * apply (Hin p Hk). left. rewrite (Hkeep Hk). apply in_or_app. right. left.
        reflexivity.
      * apply (Hin c Hk). right. exact Hrest.
    + intros c Hd Hacc. apply (Hout c Hd).
      destruct Hshape as [-> | ->]; [exact Hacc |].
      intros H. apply in_app_or in H. destruct H as [H | [<- | []]]; [exact (Hacc H) |].
      exfalso. pose proof (Hdrop Hd) as Heq.
      apply (f_equal (@length A)) in Heq. rewrite length_app in Heq. simpl in Heq. lia.
Qed.

(** Which candidates path discovery keeps, without cancellation and on a
    device whose existence and directory tests do not raise for the
    candidates: the call returns; a candidate that lists plain names and
    looks like a photo directory (a photo-like name among the first 10
    entries, or more than 50 entries) is returned; a candidate whose
    existence test answers no is not. *)
Theorem discovery_keeps_photo_directories dev w :
  calm w ->
  (forall c, In c potential_paths ->
     answers (afc_exists dev) c /\ answers (afc_isdir dev) c) ->
  exists roots w',
    get_photo_directories_safe dev w = (Ret roots, w') /\
    (forall c names,
       In c potential_paths ->
       lists_plain dev c names ->
       looks_like_photos (List.filter (fun s => negb (pseudo_entry s)) names) = true ->
       In c roots) /\
    (forall c, refuses (afc_exists dev) c -> ~ In c roots).
Proof.
  intros Hc Hanswers. unfold get_photo_directories_safe.
  rewrite (bind_run _ _ _ _ _ (is_stopped_calm w Hc)).
  destruct (update_progress_calm_run 0 (len potential_paths) MsgSearchingDirs w Hc)
    as (w1 & Hrun1 & Hc1 & _).
  rewrite (bind_run _ _ _ _ _ Hrun1).
  match goal with
  | |- context [for_each ?b _ _] => set (body := b)
  end.
  destruct (discovery_loop_calm body
              (fun c => answers (afc_exists dev) c /\ answers (afc_isdir dev) c)
              (fun c => exists names,
                 lists_plain dev c names /\
                 looks_like_photos
                   (List.filter (fun s => negb (pseudo_entry s)) names) = true)
              (fun c => refuses (afc_exists dev) c))
    with (items := enumerate potential_paths) (acc := @nil string) (w := w1)
    as (roots & w2 & Hrun2 & Hc2 & Hin & Hout); [| exact Hanswers | exact Hc1 |].
  { intros i p acc w0 [Hex Hdir] Hc0. subst body. cbn beta iota.
    rewrite (bind_run _ _ _ _ _ (is_stopped_calm w0 Hc0)).
    destruct (update_progress_calm_run i (len potential_paths) (MsgChecking p) w0 Hc0)
      as (wa & Hruna & Hca & _).
    rewrite (bind_run _ _ _ _ _ Hruna).
    destruct (safe_listdir_calm dev p wa Hca Hex Hdir) as (items & wb & Hrunb & Hcb).
    rewrite (bind_run _ _ _ _ _ Hrunb).
    assert (Hgeneral : exists acc' w',
      match items with
      | Some items0 =>
          if (0 <? len items0)%Z
          then if existsb photo_related_item (firstn 10 items0) || (50 <? len items0)%Z
               then logger INFO (LogFoundDirectory p (len items0)) ;;
                    ret (Next (acc ++ [p])%list)
               else ret (Next acc)
          else ret (Next acc)
      | None => ret (Next acc)
      end wb = (Ret (Next acc'), w') /\ calm w' /\
      (acc' = acc \/ acc' = (acc ++ [p])%list) /\
      (items = None -> acc' = acc) /\
      (forall l, items = Some l -> looks_like_photos l = true -> acc' = (acc ++ [p])%list)).
    { unfold looks_like_photos. destruct items as [l |].
      - destruct (0 <? len l)%Z eqn:E0.
        + destruct (existsb photo_related_item (firstn 10 l) || (50 <? len l)%Z)%bool
            eqn:E1.
          * eexists _, _. split; [reflexivity |]. split; [exact Hcb |].
            split; [right; reflexivity |]. split; [discriminate |].
            intros; reflexivity.
          * eexists _, _. split; [reflexivity |]. split; [exact Hcb |].
            split; [left; reflexivity |]. split; [discriminate |].
            intros l' Hl Hlooks. injection Hl as <-.
            rewrite E0, E1 in Hlooks. discriminate Hlooks.
        + eexists _, _. split; [reflexivity |]. split; [exact Hcb |].
          split; [left; reflexivity |]. split; [discriminate |].
          intros l' Hl Hlooks. injection Hl as <-.
          rewrite E0 in Hlooks. discriminate Hlooks.
      - eexists _, _. split; [reflexivity |]. split; [exact Hcb |].
        split; [left; reflexivity |]. split; [reflexivity | discriminate]. }
    destruct Hgeneral as (acc' & w' & Hrun & Hc' & Hshape & Hnone & Hsome).
    exists acc', w'. split; [exact Hrun |]. split; [exact Hc' |].
    split; [exact Hshape |]. split.
    - intros (names & Hlist & Hlooks).
      destruct (safe_listdir_plain_calm dev p names wa Hca Hlist) as (wb' & Hrunb' & _).
      rewrite Hrunb in Hrunb'. inversion Hrunb'; subst.
      apply (Hsome _ eq_refl Hlooks).
    - intros Hrefuse. apply Hnone. destruct items as [l |]; [| reflexivity].
      exfalso. apply (safe_listdir_refused dev p wa l Hca Hrefuse).
      rewrite Hrunb. reflexivity. }
  rewrite (bind_run _ _ _ _ _ Hrun2).
  destruct (update_progress_calm_run (len potential_paths) (len potential_paths)
              (MsgFoundDirs (len roots)) w2 Hc2) as (w3 & Hrun3 & _).
  rewrite (bind_run _ _ _ _ _ Hrun3).
  exists roots, w3. split; [reflexivity |]. split.
  - intros c names Hcand Hlist Hlooks. apply (Hin c).
    + exists names. split; assumption.
    + right. exact Hcand.
  - intros c Hrefuse. apply (Hout c Hrefuse). intros [].
Qed.

Lemma discovery_keeps_photo_directories_witness :
  calm (fresh ∅) /\
  (forall c, In c potential_paths ->
     answers (afc_exists apple_device) c /\ answers (afc_isdir apple_device) c) /\
  exists roots w',
    get_photo_directories_safe apple_device (fresh ∅) = (Ret roots, w') /\
    In "/DCIM" roots /\ ~ In "/Photos" roots.
Proof.
  assert (Hc : calm (fresh ∅)).
  { split; [reflexivity |]. split; [reflexivity | exact Logic.I]. }
  assert (Ha : forall c, In c potential_paths ->
                 answers (afc_exists apple_device) c /\ answers (afc_isdir apple_device) c).
  { intros c _. split; intros h; eexists; reflexivity. }
  split; [exact Hc |]. split; [exact Ha |].
  destruct (discovery_keeps_photo_directories apple_device (fresh ∅) Hc Ha)
    as (roots & w' & Hrun & Hin & Hout).
  exists roots, w'. split; [exact Hrun |]. split.
  - apply (Hin "/DCIM" ["100APPLE"]).
    + left. reflexivity.
    + split; [intros; reflexivity |]. split; [intros; reflexivity |].
      exists (fun _ p => Ret (apple_roll p)). split; intros; reflexivity.
    + reflexivity.
  - apply Hout. intros h. left. reflexivity.
Defined.

(** ** Session setup *)

Lemma detect_afc_api_version_calm dev w :
  calm w ->
  exists methods w', _detect_afc_api_version dev w = (Ret methods, w') /\ calm w'.
Proof.
  intros Hc. unfold _detect_afc_api_version.
  match goal with
  | |- context [LogAfcMethods ?l] => destruct l
  end; eexists _, _; (split; [reflexivity | exact Hc]).
Qed.

(** Starting the AFC service, without cancellation and with a silent
    observer, never raises and reports whether the root directory of the
    device could be listed: it answers no when the service cannot be
    created and when the existence test of "/" answers no or raises, and
    yes when the service is created and "/" lists plain names. *)
Theorem afc_setup_tests_root_listing dev w :
  calm w ->
  exists started w',
    setup_afc_service dev w = (Ret started, w') /\ calm w' /\
    ((forall h, exists e, AfcService dev h = Raise e) -> started = false) /\
    (refuses (afc_exists dev) "/" -> started = false) /\
    ((forall h, AfcService dev h = Ret tt) ->
     forall names, lists_plain dev "/" names -> started = true).
Proof.
  intros Hc. unfold setup_afc_service.
  rewrite (bind_run _ _ _ _ _ (is_stopped_calm w Hc)).
  destruct (update_progress_calm_run 0 100 MsgAfcInit w Hc) as (w1 & Hrun1 & Hc1 & _).
  set (w2 := add_event EvAfcService w1).
  assert (Hc2 : calm w2) by exact Hc1.
  destruct (AfcService dev (trace w1)) as [[] | e] eqn:Hsvc.
  - destruct (detect_afc_api_version_calm dev w2 Hc2) as (methods & w3 & Hrun3 & Hc3).
    destruct (safe_listdir_ends_calm dev "/" w3 Hc3) as (o & w4 & Hrun4 & Hc4).
    assert (Htest : exists started w5,
      try_except
        (test_items <- safe_listdir dev "/" ;;
         match test_items with
         | Some _ =>
             logger INFO LogAfcTested ;; update_progress 100 100 MsgAfcStarted ;; ret true
         | None => logger ERROR LogAfcNoAccess ;; ret false
         end)
        (fun test_error => logger ERROR (LogAfcTestFailed test_error) ;; ret false) w3
      = (Ret started, w5) /\ calm w5 /\
      ((forall l, o <> Ret (Some l)) -> started = false) /\
      (forall l, o = Ret (Some l) -> started = true)).
    { destruct o as [[l |] | e].
      - set (w4' := add_log INFO LogAfcTested w4).
        assert (Hc4' : calm w4') by exact Hc4.
        destruct (update_progress_calm_run 100 100 MsgAfcStarted w4' Hc4')
          as (w5 & Hrun5 & Hc5 & _).
        exists true, w5. split.
        + apply try_run. rewrite (bind_run _ _ _ _ _ Hrun4).
          erewrite bind_run; [| reflexivity]. fold w4'.
          rewrite (bind_run _ _ _ _ _ Hrun5). reflexivity.
        + split; [exact Hc5 |]. split; [| reflexivity].
          intros Hno. exfalso. apply (Hno l). reflexivity.
      - eexists false, _. split.
        + apply try_run. rewrite (bind_run _ _ _ _ _ Hrun4). reflexivity.
        + split; [exact Hc4 |]. split; [reflexivity | discriminate].
      - eexists false, _. split.
        + erewrite try_run_raise; [| apply bind_run_raise; exact Hrun4]. reflexivity.
        + split; [exact Hc4 |]. split; [reflexivity | discriminate]. }
    destruct Htest as (started & w5 & Hrun5 & Hc5 & Hnone & Hsome).
    exists started, w5. split.
    + erewrite try_run; [reflexivity |].
      rewrite (bind_run _ _ _ _ _ Hrun1).
      erewrite bind_run; [| unfold remote_call; rewrite Hsvc; reflexivity].
      fold w2. rewrite (bind_run _ _ _ _ _ Hrun3). exact Hrun5.
    + split; [exact Hc5 |]. split; [| split].
      * intros Hraise. destruct (Hraise (trace w1)) as [e He]. congruence.
      * intros Hrefuse. apply Hnone. intros l Ho.
        apply (safe_listdir_refused dev "/" w3 l Hc3 Hrefuse).
        rewrite Hrun4. exact Ho.
      * intros _ names Hlist.
        destruct (safe_listdir_plain_calm dev "/" names w3 Hc3 Hlist) as (w4' & Hr & _).
        rewrite Hrun4 in Hr. inversion Hr; subst. apply (Hsome _ eq_refl).
  - set (w3 := add_log ERROR (LogAfcStartFailed e) w2).
    assert (Hc3 : calm w3) by exact Hc1.
    destruct (update_progress_calm_run 0 100 (MsgAfcFailed e) w3 Hc3)
      as (w4 & Hrun4 & Hc4 & _).
    exists false, w4. split.
    + erewrite try_run_raise.
      2: { rewrite (bind_run _ _ _ _ _ Hrun1). apply bind_run_raise.
           unfold remote_call. rewrite Hsvc. reflexivity. }
      erewrite bind_run; [| reflexivity]. fold w2 w3.
      rewrite (bind_run _ _ _ _ _ Hrun4). reflexivity.
    + split; [exact Hc4 |]. split; [reflexivity |]. split; [reflexivity |].
      intros Hok. rewrite Hok in Hsvc. discriminate.
Qed.

Lemma afc_setup_tests_root_listing_witness :
  calm (fresh ∅) /\
  exists w', setup_afc_service apple_device (fresh ∅) = (Ret true, w').
Proof.
  assert (Hc : calm (fresh ∅)).
  { split; [reflexivity |]. split; [reflexivity | exact Logic.I]. }
  split; [exact Hc |].
  destruct (afc_setup_tests_root_listing apple_device (fresh ∅) Hc)
    as (started & w' & Hrun & _ & _ & _ & Hyes).
  exists w'. rewrite Hrun. f_equal. f_equal.
  apply (Hyes (fun _ => eq_refl) ["DCIM"]).
  split; [intros; reflexivity |]. split; [intros; reflexivity |].
  exists (fun _ p => Ret (apple_roll p)). split; intros; reflexivity.
Defined.


Lemma update_progress_calm_info current total m w :
  calm w ->
  exists w1,
    update_progress current total m w = (Ret tt, w1) /\
    calm w1 /\ device_info w1 = device_info w.
Proof.
  intros Hc. destruct (update_progress_calm_run current total m w Hc) as (w1 & Hrun & Hc1 & _).
  exists w1. split; [exact Hrun |]. split; [exact Hc1 |].
  pose proof (preserves_update_progress device_info current total m
                ltac:(intros; reflexivity) ltac:(intros; reflexivity) w) as Hp.
  rewrite Hrun in Hp. exact Hp.
Qed.

(** Connecting, without cancellation and with a silent observer, never
    raises: when the USB multiplexer gives a device the call answers yes and
    the reader holds the values of that device; when it raises, the call
    answers no and the values held before are kept. *)
Theorem connect_device_records_lockdown dev w :
  calm w ->
  exists connected w',
    connect_device dev w = (Ret connected, w') /\ calm w' /\
    (forall lockdown,
       (forall h, create_using_usbmux dev h = Ret lockdown) ->
       connected = true /\ device_info w' = Some lockdown) /\
    ((forall h, exists e, create_using_usbmux dev h = Raise e) ->
     connected = false /\ device_info w' = device_info w).
Proof.
  intros Hc. unfold connect_device.
  rewrite (bind_run _ _ _ _ _ (is_stopped_calm w Hc)).
  destruct (update_progress_calm_info 0 100 MsgSearchingDevice w Hc)
    as (w1 & Hrun1 & Hc1 & Hinfo1).
  set (w2 := add_log INFO LogSearchingDevice w1).
  set (w3 := add_event EvUsbmux w2).
  assert (Hc3 : calm w3) by exact Hc1.
  destruct (create_using_usbmux dev (trace w2)) as [lockdown | e] eqn:Hmux.
  - set (w4 := set_device_info (Some lockdown) w3).
    assert (Hc4 : calm w4) by exact Hc1.
    set (name := default "Unknown" (DeviceName lockdown)).
    set (ios_version := default "Unknown" (ProductVersion lockdown)).
    destruct (update_progress_calm_info 50 100 (MsgConnected name) w4 Hc4)
      as (w5 & Hrun5 & Hc5 & Hinfo5).
    assert (Hlogs : exists w6,
      (logger INFO (LogConnected name) ;;
       logger INFO (LogModel (default "Unknown" (ProductType lockdown))) ;;
       logger INFO (LogIosVersion ios_version) ;;
       (if Str.startswith ios_version "18." then logger INFO LogIos18
        else if existsb (Str.startswith ios_version) ["17."; "16."; "15."]
        then logger INFO (LogIosStandard ios_version)
        else logger WARNING (LogIosSpecial ios_version))) w5 = (Ret tt, w6) /\
      calm w6 /\ device_info w6 = device_info w5).
    { destruct (Str.startswith ios_version "18.") eqn:E18;
        [| destruct (existsb (Str.startswith ios_version) ["17."; "16."; "15."]) eqn:E17];
        eexists; (split; [unfold bind, logger, modify;
                          rewrite ?E18, ?E17; reflexivity |]);
        (split; [exact Hc5 | reflexivity]). }
    destruct Hlogs as (w6 & Hrun6 & Hc6 & Hinfo6).
    destruct (update_progress_calm_info 100 100 MsgConnectDone w6 Hc6)
      as (w7 & Hrun7 & Hc7 & Hinfo7).
    exists true, w7. split.
    + erewrite try_run; [reflexivity |].
      rewrite (bind_run _ _ _ _ _ Hrun1).
      erewrite bind_run; [| reflexivity]. fold w2.
      erewrite bind_run; [| unfold remote_call; rewrite Hmux; reflexivity]. fold w3.
      rewrite (bind_run _ _ _ _ _ (is_stopped_calm w3 Hc3)).
      erewrite bind_run; [| reflexivity]. fold w4.
      fold name ios_version.
      rewrite (bind_run _ _ _ _ _ Hrun5).
      unfold bind in Hrun6 |- *. unfold logger, modify in Hrun6 |- *.
      cbn beta iota in Hrun6 |- *.
      destruct (Str.startswith ios_version "18.");
        [| destruct (existsb (Str.startswith ios_version) ["17."; "16."; "15."])];
        cbn beta iota in Hrun6 |- *; inversion Hrun6; subst w6;
        rewrite Hrun7; reflexivity.
    + split; [exact Hc7 |]. split.
      * intros l Hl. split; [reflexivity |].
        rewrite Hinfo7, Hinfo6, Hinfo5. rewrite Hl in Hmux. inversion Hmux. reflexivity.
      * intros Hraise. destruct (Hraise (trace w2)) as [e He]. congruence.
  - set (w4 := add_log ERROR (LogConnectFailed e) w3).
    assert (Hc4 : calm w4) by exact Hc1.
    destruct (update_progress_calm_info 0 100 (MsgConnectFailed e) w4 Hc4)
      as (w5 & Hrun5 & Hc5 & Hinfo5).
    eexists false, _. split; [| split; [| split]].
    + erewrite try_run_raise.
      2: { rewrite (bind_run _ _ _ _ _ Hrun1).
           erewrite bind_run; [| reflexivity]. fold w2.
           apply bind_run_raise. unfold remote_call. rewrite Hmux. reflexivity. }
      erewrite bind_run; [| reflexivity]. fold w3 w4.
      rewrite (bind_run _ _ _ _ _ Hrun5). reflexivity.
    + exact Hc5.
    + intros l Hl. rewrite Hl in Hmux. discriminate.
    + intros _. split; [reflexivity |]. cbn. rewrite Hinfo5. exact Hinfo1.
Qed.

Lemma connect_device_records_lockdown_witness :
  calm (fresh ∅) /\
  exists w',
    connect_device apple_device (fresh ∅) = (Ret true, w') /\
    device_info w' = Some sample_lockdown.
Proof.
  assert (Hc : calm (fresh ∅)).
  { split; [reflexivity |]. split; [reflexivity | exact Logic.I]. }
  split; [exact Hc |].
  destruct (connect_device_records_lockdown apple_device (fresh ∅) Hc)
    as (connected & w' & Hrun & _ & Hyes & _).
  destruct (Hyes sample_lockdown (fun _ => eq_refl)) as [-> Hinfo].
  exists w'. split; [exact Hrun | exact Hinfo].
Defined.
